(** * masserstein: mass spectra as weighted point measures

    A shallow embedding of [masserstein/spectrum.py]: the [Spectrum]
    class with its canonical sorted and merged peak list, the
    composition algebra ([__add__], [__mul__], [ScalarProduct]), the
    Wasserstein sweep ([WSDistanceMoves], [WSDistance]), the
    preprocessing utilities [normalize], [cut_smallest_peaks],
    [filter_against_theoretical], [coarse_bin] and [add_gaussian_noise],
    and the summaries [average_mass], [get_modal_peak],
    [explained_intensity] and [find_peaks].

    Python numbers are abstracted by the class [Number].  Two instances
    are given: [exact], the canonical rationals [Qc], on which the
    general theorems are proved (arithmetic without rounding), and
    [binary64], IEEE 754 double precision as Python's [float], on which
    the concrete examples are replayed. *)

From Equations Require Import Equations.
From Stdlib Require Import QArith Qcanon Qabs Qround Lqa.
From Stdlib Require Import List Sorted Permutation Arith Lia Bool.
From Stdlib Require Import String.
From Stdlib Require Import Floats Uint63.
Import ListNotations.

Close Scope Qc_scope.
Close Scope Q_scope.
Close Scope string_scope.
Open Scope nat_scope.
Open Scope list_scope.

Set Implicit Arguments.

(** ** Numbers *)

(** The operations the source applies to peak positions and weights.
    [lit] reads a decimal literal of the source, given as a fraction. *)
Class Number (R : Type) : Type := {
  lit : Q -> R;
  add : R -> R -> R;
  sub : R -> R -> R;
  mul : R -> R -> R;
  div : R -> R -> R;
  absv : R -> R;
  eqb : R -> R -> bool;
  leb : R -> R -> bool;
  ltb : R -> R -> bool
}.

(** [math.fsum]: the sum of the list without intermediate rounding. *)
Class FSum (R : Type) : Type := { fsum : list R -> R }.

Definition Qcabs (x : Qc) : Qc := Q2Qc (Qabs x).
Definition Qcleb (x y : Qc) : bool := Qle_bool x y.
Definition Qcltb (x y : Qc) : bool := negb (Qle_bool y x).

#[export] Instance exact : Number Qc := {
  lit := Q2Qc;
  add := Qcplus;
  sub := Qcminus;
  mul := Qcmult;
  div := Qcdiv;
  absv := Qcabs;
  eqb := Qc_eq_bool;
  leb := Qcleb;
  ltb := Qcltb
}.

#[export] Instance exact_fsum : FSum Qc := {
  fsum := fun l => fold_right Qcplus (Q2Qc 0) l
}.

Definition float_of_Z (z : Z) : float :=
  match z with
  | Z0 => PrimFloat.of_uint63 0
  | Zpos p => PrimFloat.of_uint63 (Uint63.of_Z (Zpos p))
  | Zneg p => PrimFloat.opp (PrimFloat.of_uint63 (Uint63.of_Z (Zpos p)))
  end.

(** A literal [n/d] with [|n|, d < 2^53] is the correctly rounded
    quotient of two exactly represented integers, which is the double
    that Python reads from the decimal literal. *)
#[export] Instance binary64 : Number float := {
  lit := fun q => PrimFloat.div (float_of_Z (Qnum q)) (float_of_Z (Zpos (Qden q)));
  add := PrimFloat.add;
  sub := PrimFloat.sub;
  mul := PrimFloat.mul;
  div := PrimFloat.div;
  absv := PrimFloat.abs;
  eqb := PrimFloat.eqb;
  leb := PrimFloat.leb;
  ltb := PrimFloat.ltb
}.

(** ** Exceptions *)

Inductive exn : Type :=
| IndexError
| ValueError (msg : string)
| ZeroDivisionError.

Inductive result (A : Type) : Type :=
| OK (a : A)
| Raise (e : exn).
Arguments OK {A} a.
Arguments Raise {A} e.

Definition bind {A B : Type} (r : result A) (k : A -> result B) : result B :=
  match r with
  | OK a => k a
  | Raise e => Raise e
  end.

Notation "x <- r ;; k" := (bind r (fun x => k))
  (at level 61, r at next level, right associativity).

(** [l[i]] on a Python list, for [0 <= i]. *)
Definition getitem {A : Type} (l : list A) (i : nat) : result A :=
  match nth_error l i with
  | Some a => OK a
  | None => Raise IndexError
  end.

Definition inspect {A : Type} (a : A) : {b : A | a = b} := exist _ a eq_refl.

(** ** Peak lists *)

(** A peak is a tuple (position, weight); a plan entry is a tuple
    (position in [other], position in [self], weight); a queue item
    of [ScalarProduct] is a tuple [(conf, spectre_no, conf_idx)]. *)
Abbreviation peak R := (R * R)%type (only parsing).
Abbreviation move R := (R * R * R)%type (only parsing).
Abbreviation item R := ((R * R) * nat * nat)%type (only parsing).

Section Confs.
Context {R : Type} `{Number R}.

Definition zero : R := lit (0 # 1).
Definition one : R := lit (1 # 1).

(** [sum(...)]: Python's left-to-right sum, starting from 0. *)
Definition sum (l : list R) : R := fold_left add l zero.

(** [list.sort(key=..., reverse=...)] is a stable sort that compares the
    keys with [<] only; a stable insertion sort yields the same list. *)
Fixpoint sort_insert (key : peak R -> R) (reverse : bool) (x : peak R)
    (l : list (peak R)) : list (peak R) :=
  match l with
  | [] => [x]
  | y :: l' =>
      if (if reverse then ltb (key x) (key y) else ltb (key y) (key x))
      then y :: sort_insert key reverse x l'
      else x :: y :: l'
  end.

Definition list_sort (key : peak R -> R) (reverse : bool) (l : list (peak R))
    : list (peak R) :=
  fold_right (sort_insert key reverse) [] l.

Definition sort_confs (confs : list (peak R)) : list (peak R) :=
  list_sort fst false confs.

(** One round of the loop of [merge_confs]; the state is
    [(cmass, cprob, ret)]. *)
Definition merge_step (st : R * R * list (peak R)) (x : peak R)
    : R * R * list (peak R) :=
  let '(cmass, cprob, ret) := st in
  let '(mass, prob) := x in
  let '(cmass, cprob, ret) :=
    if negb (eqb mass cmass)
    then (mass, zero, ret ++ [(cmass, cprob)])
    else (cmass, cprob, ret) in
  (cmass, add cprob prob, ret).

Definition prune_threshold : R := lit (1 # 1000000000000).

Definition merge_confs (confs : list (peak R)) : result (list (peak R)) :=
  c0 <- getitem confs 0 ;;
  let '(_, _, ret) :=
    fold_left merge_step (confs ++ [(lit (-1 # 1), zero)]) (fst c0, zero, []) in
  OK (filter (fun x => ltb prune_threshold (snd x)) ret).

Definition set_confs (confs : list (peak R)) : result (list (peak R)) :=
  merge_confs (sort_confs confs).

(** ** The class [Spectrum] *)

Record Spectrum : Type := {
  formula : string;
  empty : bool;
  label : string;
  charge : Z;
  confs : list (peak R)
}.

Definition with_confs (s : Spectrum) (c : list (peak R)) : Spectrum :=
  {| formula := formula s; empty := empty s; label := label s;
     charge := charge s; confs := c |}.

Definition with_label (s : Spectrum) (l : string) : Spectrum :=
  {| formula := formula s; empty := empty s; label := l;
     charge := charge s; confs := confs s |}.

Section Init.

(** The isotope-pattern calculator behind [confs_from_formula]
    (IsoSpecPy) is not part of the repository. *)
Variable confs_from_formula :
  string -> R -> option R -> Z -> option string -> result (list (peak R)).

Definition __init__ (formula : string) (threshold : R)
    (total_prob : option R) (charge : Z) (adduct : option string)
    (confs : option (list (peak R))) (label : option string)
    : result Spectrum :=
  let label := match label with None => formula | Some l => l end in
  let self := {| formula := formula; empty := false; label := label;
                 charge := charge; confs := [] |} in
  match String.eqb formula EmptyString, confs with
  | false, Some _ =>
      Raise (ValueError "Formula and confs cannot be set at the same time!")
  | _, Some confs =>
      c <- set_confs confs ;; OK (with_confs self c)
  | false, None =>
      c0 <- confs_from_formula formula threshold total_prob charge adduct ;;
      c <- set_confs c0 ;; OK (with_confs self c)
  | true, None =>
      OK {| formula := formula; empty := true; label := label;
            charge := charge; confs := [] |}
  end.

(** [Spectrum()], every parameter at its default. *)
Definition new_Spectrum : result Spectrum :=
  __init__ EmptyString (lit (1 # 1000)) None 1%Z None None None.

End Init.

(** The object that [Spectrum()] returns. *)
Definition empty_Spectrum : Spectrum :=
  {| formula := EmptyString; empty := true; label := EmptyString;
     charge := 1%Z; confs := [] |}.

Definition __add__ (self other : Spectrum) : result Spectrum :=
  let res := empty_Spectrum in
  let res := with_confs res (confs self ++ confs other) in
  let res := with_confs res (sort_confs (confs res)) in
  c <- merge_confs (confs res) ;;
  let res := with_confs res c in
  OK (with_label res (label self ++ " + " ++ label other)%string).

Definition __mul__ (self : Spectrum) (number : R) : result Spectrum :=
  let res := empty_Spectrum in
  c <- set_confs (map (fun x => (fst x, mul number (snd x))) (confs self)) ;;
  let res := with_confs res c in
  OK (with_label res (label self)).

(** Python's [/] on floats. *)
Definition truediv (x y : R) : result R :=
  if eqb y zero then Raise ZeroDivisionError else OK (div x y).

Definition normalize `{FSum R} (self : Spectrum) (target_value : R) : result Spectrum :=
  x <- truediv target_value (fsum (map snd (confs self))) ;;
  OK (with_confs self (map (fun v => (fst v, mul (snd v) x)) (confs self))).

(** ** The transport sweep *)

(** The [while] loop of [WSDistanceMoves] for the peak [(mass, prob)] of
    [self]: the entries it yields, and either the exception that ends
    it or [(ii, leftoverprob, prob)] at its exit. *)
Equations? moves_while (other : list (peak R)) (mass : R) (ii : nat)
    (leftoverprob prob : R) : list (move R) * result (nat * R * R)
    by wf (List.length other - ii) lt :=
  moves_while other mass ii leftoverprob prob with leb leftoverprob prob := {
    | false := ([], OK (ii, leftoverprob, prob))
    | true with getitem other ii := {
        | Raise e := ([], Raise e)
        | OK o with inspect (getitem other (S ii)) := {
            | exist _ (Raise e) _ := ([(fst o, mass, leftoverprob)], Raise e)
            | exist _ (OK o') _ :=
                let '(ys, r) := moves_while other mass (S ii) (snd o')
                                  (sub prob leftoverprob) in
                ((fst o, mass, leftoverprob) :: ys, r) } } }.
Proof.
  unfold getitem in *.
  destruct (nth_error other (S ii)) eqn:E; [| discriminate].
  assert (nth_error other (S ii) <> None) as Hn by congruence.
  apply nth_error_Some in Hn. lia.
Qed.

(** The [for] loop over the peaks of [self]. *)
Fixpoint moves_for (other self : list (peak R)) (ii : nat) (leftoverprob : R)
    : list (move R) * result unit :=
  match self with
  | [] => ([], OK tt)
  | (mass, prob) :: self' =>
      match moves_while other mass ii leftoverprob prob with
      | (ys, Raise e) => (ys, Raise e)
      | (ys, OK (ii, leftoverprob, prob)) =>
          match getitem other ii with
          | Raise e => (ys, Raise e)
          | OK o =>
              let '(zs, r) := moves_for other self' ii (sub leftoverprob prob) in
              (ys ++ (fst o, mass, prob) :: zs, r)
          end
      end
  end.

(** The generator [WSDistanceMoves], as the list of the entries it
    yields and how it ends; [except IndexError: return] ends it
    normally. *)
Definition WSDistanceMoves (self other : Spectrum) : list (move R) * result unit :=
  let '(ys, r) :=
    match getitem (confs other) 0 with
    | Raise e => ([], Raise e)
    | OK o => moves_for (confs other) (confs self) 0 (snd o)
    end in
  (ys, match r with Raise IndexError => OK tt | _ => r end).

(** [numpy.isclose(a, b)] with numpy's default [rtol] and [atol]. *)
Definition rtol : R := lit (1 # 100000).
Definition atol : R := lit (1 # 100000000).

Definition isclose (a b : R) : bool :=
  leb (absv (sub a b)) (add atol (mul rtol (absv b))).

Definition move_cost (x : move R) : R :=
  mul (absv (sub (fst (fst x)) (snd (fst x)))) (snd x).

Definition WSDistance `{FSum R} (self other : Spectrum) : result R :=
  if negb (isclose (sum (map snd (confs self))) one)
  then Raise (ValueError "Self is not normalized.")
  else if negb (isclose (sum (map snd (confs other))) one)
  then Raise (ValueError "Other is not normalized.")
  else
    let '(mvs, r) := WSDistanceMoves self other in
    _ <- r ;; OK (fsum (map move_cost mvs)).

(** ** Smallest-peak pruning *)

(** [l.pop()]: the list without its last item, and that item. *)
Definition pop {A : Type} (l : list A) : result (list A * A) :=
  match rev l with
  | [] => Raise IndexError
  | x :: r => OK (rev r, x)
  end.

Lemma pop_OK {A : Type} (l l' : list A) (x : A) :
  pop l = OK (l', x) -> l = l' ++ [x].
Proof.
  unfold pop. destruct (rev l) as [| y r] eqn:E; [discriminate |].
  intros [= <- <-]. rewrite <- (rev_involutive l), E. reflexivity.
Qed.

(** The [while] loop of [cut_smallest_peaks]; returns the remaining
    list and [removed]. *)
Equations? cut_while (confs : list (peak R)) (threshold removed : R)
    : list (peak R) * R by wf (List.length confs) lt :=
  cut_while confs threshold removed with inspect (pop confs) := {
    | exist _ (Raise _) _ := (confs, removed)
    | exist _ (OK (confs', x)) _ with leb (add removed (snd x)) threshold := {
        | true := cut_while confs' threshold (add removed (snd x))
        | false := (confs, removed) } }.
Proof.
  apply pop_OK in e. subst. rewrite length_app. simpl. lia.
Qed.

Definition cut_smallest_peaks (self : Spectrum) (removed_proportion : R)
    : Spectrum :=
  let confs := list_sort snd true (confs self) in
  let threshold := mul removed_proportion (sum (map snd confs)) in
  let removed := zero in
  let '(confs, removed) := cut_while confs threshold removed in
  with_confs self (list_sort fst false confs).

(** ** Reference filtering *)

(** The argument [theoreticals]: one spectrum, or an iterable of
    spectra.  A [Spectrum] is not iterable, so that the [for] loop over
    it raises the [TypeError] which the source catches. *)
Inductive theoreticals_arg : Type :=
| One (theoretical : Spectrum)
| Many (theoreticals : list Spectrum).

(** The [while] loop of [filter_against_theoretical]; returns [index]. *)
Equations? filter_while (theoretical_masses : list R) (mz : R) (index : nat)
    : nat by wf (List.length theoretical_masses - index) lt :=
  filter_while theoretical_masses mz index
    with inspect (nth_error theoretical_masses (index + 1)) := {
    | exist _ None _ := index
    | exist _ (Some t) _ with ltb t mz := {
        | true := filter_while theoretical_masses mz (index + 1)
        | false := index } }.
Proof.
  assert (nth_error theoretical_masses (index + 1) <> None) as Hn by congruence.
  apply nth_error_Some in Hn. lia.
Qed.

(** One round of the [for] loop; the state is [(index, result_confs)]. *)
Definition filter_step (theoretical_masses : list R) (margin : R)
    (st : nat * list (peak R)) (x : peak R) : result (nat * list (peak R)) :=
  let '(index, result_confs) := st in
  let '(mz, abund) := x in
  let index := filter_while theoretical_masses mz index in
  t <- getitem theoretical_masses index ;;
  if leb (absv (sub mz t)) margin
     || match nth_error theoretical_masses (index + 1) with
        | Some t' => leb (absv (sub mz t')) margin
        | None => false
        end
  then OK (index, result_confs ++ [(mz, abund)])
  else OK (index, result_confs).

Fixpoint filter_for (theoretical_masses : list R) (margin : R)
    (experimental_confs : list (peak R)) (st : nat * list (peak R))
    : result (nat * list (peak R)) :=
  match experimental_confs with
  | [] => OK st
  | x :: rest =>
      st' <- filter_step theoretical_masses margin st x ;;
      filter_for theoretical_masses margin rest st'
  end.

Definition filter_against_theoretical (experimental : Spectrum)
    (theoreticals : theoreticals_arg) (margin : R) : result Spectrum :=
  theoretical <-
    match theoreticals with
    | Many l =>
        let th_confs := List.concat (map confs l) in
        c <- set_confs th_confs ;; OK (with_confs empty_Spectrum c)
    | One theoretical => OK theoretical
    end ;;
  let experimental_confs := confs experimental in
  let theoretical_masses := map fst (confs theoretical) in
  st <- filter_for theoretical_masses margin experimental_confs (0, []) ;;
  let new_spectrum := with_label empty_Spectrum (label experimental) in
  OK (with_confs new_spectrum (snd st)).

(** ** Weighted k-way merge *)

(** Python's [==] and [<] on tuples: the first components that differ
    decide. *)
Definition peak_eqb (p q : peak R) : bool :=
  eqb (fst p) (fst q) && eqb (snd p) (snd q).

Definition peak_ltb (p q : peak R) : bool :=
  if negb (eqb (fst p) (fst q)) then ltb (fst p) (fst q)
  else if negb (eqb (snd p) (snd q)) then ltb (snd p) (snd q)
  else false.

Definition item_ltb (a b : item R) : bool :=
  let '(c1, i1, j1) := a in
  let '(c2, i2, j2) := b in
  if negb (peak_eqb c1 c2) then peak_ltb c1 c2
  else if negb (i1 =? i2) then i1 <? i2
  else j1 <? j2.

(** [heapq] is Python's library, outside the repository.  Its binary
    heap is represented by the list of the queued items in ascending
    order, of which [heapq.heappop] takes the head: it returns a least
    item under either representation, and the items of one queue are
    pairwise distinct. *)
Fixpoint heappush (Q : list (item R)) (a : item R) : list (item R) :=
  match Q with
  | [] => [a]
  | b :: Q' => if item_ltb b a then b :: heappush Q' a else a :: b :: Q'
  end.

Definition heapify (Q : list (item R)) : list (item R) :=
  fold_left heappush Q [].

(** The number of peaks the queue [Q] still stands for. *)
Definition item_size (spectra : list Spectrum) (a : item R) : nat :=
  let '(_, i, j) := a in
  match nth_error spectra i with
  | Some s => S (List.length (confs s) - j)
  | None => 1
  end.

Definition queue_size (spectra : list Spectrum) (Q : list (item R)) : nat :=
  list_sum (map (item_size spectra) Q).

Lemma queue_size_heappush spectra Q a :
  queue_size spectra (heappush Q a) = item_size spectra a + queue_size spectra Q.
Proof.
  unfold queue_size. induction Q as [| b Q IH]; simpl; [reflexivity |].
  destruct (item_ltb b a); simpl; [rewrite IH |]; lia.
Qed.

(** The [while] loop of [ScalarProduct]; returns [ret.confs]. *)
Equations? product_while (spectra : list Spectrum) (weights : list R)
    (Q : list (item R)) (ret_confs : list (peak R)) : result (list (peak R))
    by wf (queue_size spectra Q) lt :=
  product_while spectra weights [] ret_confs := OK ret_confs;
  product_while spectra weights ((conf, spectre_no, conf_idx) :: Q') ret_confs
    with getitem weights spectre_no := {
    | Raise e := Raise e
    | OK w with inspect (getitem spectra spectre_no) := {
        | exist _ (Raise e) _ := Raise e
        | exist _ (OK s) _
            with inspect (getitem (confs s) (conf_idx + 1)) := {
            | exist _ (Raise _) _ :=
                product_while spectra weights Q'
                  (ret_confs ++ [(fst conf, mul (snd conf) w)])
            | exist _ (OK c) _ :=
                product_while spectra weights
                  (heappush Q' (c, spectre_no, conf_idx + 1))
                  (ret_confs ++ [(fst conf, mul (snd conf) w)]) } } }.
Proof.
  - rewrite queue_size_heappush. unfold queue_size. simpl.
    unfold getitem in *.
    destruct (nth_error spectra spectre_no) as [s' |]; [| discriminate].
    injection e as ->.
    destruct (nth_error (confs s) (conf_idx + 1)) eqn:E; [| discriminate].
    assert (nth_error (confs s) (conf_idx + 1) <> None) as Hn by congruence.
    apply nth_error_Some in Hn. lia.
  - unfold queue_size. simpl. destruct (nth_error spectra spectre_no); lia.
Qed.

Fixpoint initial_queue (spectra : list Spectrum) (i : nat)
    : result (list (item R)) :=
  match spectra with
  | [] => OK []
  | s :: rest =>
      c <- getitem (confs s) 0 ;;
      Q <- initial_queue rest (S i) ;;
      OK ((c, i, 0) :: Q)
  end.

Definition ScalarProduct (spectra : list Spectrum) (weights : list R)
    : result Spectrum :=
  let ret := empty_Spectrum in
  Q <- initial_queue spectra 0 ;;
  let Q := heapify Q in
  ret_confs <- product_while spectra weights Q (confs ret) ;;
  c <- merge_confs ret_confs ;;
  OK (with_confs ret c).

(** The weighted sum by repeated [__add__] and [__mul__], which the
    specification compares [ScalarProduct] with; it is how [WSDeconv.py]
    builds the fitted spectrum: [fitted = Spectrum("", empty=True)],
    then [fitted += s*w] for each spectrum and weight. *)
Definition pairwise_sum (spectra : list Spectrum) (weights : list R)
    : result Spectrum :=
  fold_left
    (fun fitted sw =>
       fitted <- fitted ;;
       t <- __mul__ (fst sw) (snd sw) ;;
       __add__ fitted t)
    (combine spectra weights) (OK empty_Spectrum).

(** ** Other methods of [Spectrum] *)

Definition __rmul__ (self : Spectrum) (number : R) : result Spectrum :=
  __mul__ self number.

Definition __len__ (self : Spectrum) : nat := List.length (confs self).

(** The generator expression of [average_mass] is summed from 0, left
    to right; the division of its first term already raises when [norm]
    is zero. *)
Definition average_mass (self : Spectrum) : result R :=
  let norm := sum (map snd (confs self)) in
  fold_left
    (fun acc x =>
       acc <- acc ;;
       t <- truediv (mul (fst x) (snd x)) norm ;;
       OK (add acc t))
    (confs self) (OK zero).

(** [max(l, key=key)]: the first item of the greatest key; a later item
    replaces the current one only when its key is greater. *)
Definition py_max (key : peak R -> R) (l : list (peak R)) : result (peak R) :=
  match l with
  | [] => Raise (ValueError "max() arg is an empty sequence")
  | x :: l' =>
      OK (fold_left (fun best y => if ltb (key best) (key y) then y else best)
            l' x)
  end.

Definition get_modal_peak (self : Spectrum) : result (peak R) :=
  py_max snd (confs self).

(** [min(a, b)]: [b] when [b < a], else [a]. *)
Definition py_min (a b : R) : R := if ltb b a then b else a.

Definition explained_intensity (self other : Spectrum) : result R :=
  fold_left
    (fun e i =>
       e <- e ;;
       s <- getitem (confs self) i ;;
       o <- getitem (confs other) i ;;
       OK (add e (py_min (snd s) (snd o))))
    (seq 0 (List.length (confs self))) (OK zero).

(** The slices [l[1:]], [l[:-1]] and [l[1:-1]] are [tl l], [removelast l]
    and [removelast (tl l)]; [zip] is [combine]. *)
Definition find_peaks (self : Spectrum) : list (peak R) :=
  let confs := confs self in
  let diffs :=
    map (fun np => sub (snd (fst np)) (snd (snd np)))
      (combine (tl confs) (removelast confs)) in
  let is_max :=
    map (fun d => ltb (fst d) zero && ltb zero (snd d))
      (combine (tl diffs) (removelast diffs)) in
  map fst (filter snd (combine (removelast (tl confs)) is_max)).

(** [add_gaussian_noise], given the array [noised] that [rd.normal]
    draws, one number for each peak. *)
Definition add_gaussian_noise (noised : list R) (self : Spectrum) : Spectrum :=
  with_confs self
    (map (fun xy => (fst (fst xy), snd xy))
       (filter (fun xy => ltb zero (snd xy)) (combine (confs self) noised))).

(** [coarse_bin], given Python's [round(x, ndigits)] on floats; the
    rounded peaks are merged as they stand, without being sorted. *)
Definition coarse_bin (round : R -> Z -> R) (self : Spectrum)
    (nb_of_digits : Z) : result Spectrum :=
  let confs := map (fun x => (round (fst x) nb_of_digits, snd x)) (confs self) in
  c <- merge_confs confs ;;
  OK (with_confs self c).

End Confs.

Arguments Spectrum R : clear implicits.
Arguments theoreticals_arg R : clear implicits.

(** * Vocabulary of the properties *)

(** ** The sweep as a function of two lists *)

Section SweepFunction.
Context {R : Type} `{Number R}.

(** The sweep as a function of what remains of the two peak lists, the
    weight of each head being what is left of it.  [sweep_WSDistanceMoves]
    below shows that the generator yields this list. *)
Equations? sweep (a b : list (peak R)) : list (move R)
    by wf (List.length a + List.length b) lt :=
  sweep [] _ := [];
  sweep _ [] := [];
  sweep ((x, p) :: a') ((y, q) :: b') with leb q p := {
    | true := (y, x, q) :: sweep ((x, sub p q) :: a') b'
    | false := (y, x, p) :: sweep a' ((y, sub q p) :: b') }.
Proof. all: simpl; lia. Qed.

(** What the generator still yields after the [while] loop has been
    entered at [ii], with [o] the peak of [other] at [ii]. *)
Definition after_while (other a' : list (peak R)) (mass : R)
    (w : list (move R) * result (nat * R * R)) : list (move R) :=
  match w with
  | (ys, Raise _) => ys
  | (ys, OK (ii', l', p')) =>
      match nth_error other ii' with
      | Some o' =>
          ys ++ (fst o', mass, p')
                :: sweep a' ((fst o', sub l' p') :: skipn (S ii') other)
      | None => ys
      end
  end.

End SweepFunction.

(** ** Exact arithmetic *)

(** From here on positions and weights are rationals: every statement
    that mentions numbers is about the instance [exact], where no
    operation rounds. *)

Section Vocabulary.

Open Scope Qc_scope.

Definition nonnegative (l : list (peak Qc)) : Prop :=
  Forall (fun x => 0 <= snd x) l.

Definition cost (m : list (move Qc)) : Qc := fsum (map move_cost m).

(** The sum that [WSDistance] compares with 1. *)
Definition total_weight (s : Spectrum Qc) : Qc := sum (map snd (confs s)).

(** [atol + rtol * abs(1.)], the distance from 1 that [numpy.isclose]
    accepts. *)
Definition tolerance : Qc := lit (1001 # 100000000).

(** Whether the peak [p] lies within [margin] of one of the positions
    [ths]. *)
Definition within (ths : list Qc) (margin : Qc) (p : peak Qc) : bool :=
  existsb (fun t => leb (absv (sub (fst p) t)) margin) ths.

Definition sorted_by_position (l : list (peak Qc)) : Prop :=
  StronglySorted (fun x y => fst x <= fst y) l.

(** What the loop of [merge_confs] makes of the peaks [l] that follow a
    group at [cmass] of weight [cprob] so far: the groups of adjacent
    peaks at one position, the last one included. *)
Fixpoint group_from (cmass cprob : Qc) (l : list (peak Qc)) : list (peak Qc) :=
  match l with
  | [] => [(cmass, cprob)]
  | (mass, prob) :: l' =>
      if eqb mass cmass
      then group_from cmass (cprob + prob) l'
      else (cmass, cprob) :: group_from mass (0 + prob) l'
  end.

Definition groups (l : list (peak Qc)) : list (peak Qc) :=
  match l with
  | [] => []
  | (mass, prob) :: l' => group_from mass (0 + prob) l'
  end.

(** The pruning rule of [merge_confs]. *)
Definition kept (x : peak Qc) : bool := ltb prune_threshold (snd x).

Definition strictly_sorted (l : list (peak Qc)) : Prop :=
  StronglySorted (fun x y => fst x < fst y) l.

(** The lists that [merge_confs] returns: positions strictly
    increasing, every weight above 1e-12. *)
Definition canonical (l : list (peak Qc)) : Prop :=
  strictly_sorted l /\ Forall (fun x => kept x = true) l.

(** No peak at -1, the position of the sentinel of [merge_confs]. *)
Definition off_sentinel (l : list (peak Qc)) : Prop :=
  Forall (fun x => fst x <> lit (-1 # 1)) l.

(** The total weight that the list [l] puts at the position [x]. *)
Definition weight_at (l : list (peak Qc)) (x : Qc) : Qc :=
  fsum (map snd (filter (fun p => eqb (fst p) x) l)).

(** The peaks of [l] with their weights multiplied by [number]. *)
Definition scaled (number : Qc) (l : list (peak Qc)) : list (peak Qc) :=
  map (fun x => (fst x, mul number (snd x))) l.


(** The positions of the reference peaks. *)
Definition reference_positions (theoreticals : theoreticals_arg Qc) : list Qc :=
  match theoreticals with
  | One theoretical => map fst (confs theoretical)
  | Many l => map fst (List.concat (map confs l))
  end.


(** The position of the peak of a queue item. *)
Definition item_position (a : item Qc) : Qc := fst (fst (fst a)).

Definition queue_sorted (Q : list (item Qc)) : Prop :=
  StronglySorted (fun a b => item_position a <= item_position b) Q.

(** The scaled peaks of all the spectra, spectrum after spectrum. *)
Definition scaled_all (pairs : list (Spectrum Qc * Qc)) : list (peak Qc) :=
  flat_map (fun sw => scaled (snd sw) (confs (fst sw))) pairs.

(** What a canonical list [a] has in common with a list [L] of which
    it is the sorted and merged form. *)
Definition represents (a L : list (peak Qc)) : Prop :=
  canonical a
  /\ (forall x, In x (map fst a) <-> In x (map fst L))
  /\ (forall x, weight_at a x = weight_at L x).

(** A spectrum that [ScalarProduct] and [__mul__] take: canonical, with
    at least one peak and none at the sentinel position. *)
Definition spectrum_ok (s : Spectrum Qc) : Prop :=
  canonical (confs s) /\ confs s <> [] /\ off_sentinel (confs s).

(** The first spectrum keeps a peak when it is scaled by its weight. *)
Definition first_kept (pairs : list (Spectrum Qc * Qc)) : Prop :=
  match pairs with
  | [] => False
  | (s, w) :: _ => Exists (fun x => prune_threshold < w * snd x) (confs s)
  end.

(** What the scaled peaks [L] need at the position [x] for the pruning
    of each scaled peak on its own to come to the same as the pruning
    of their sum: the scaled peaks at [x] that are pruned on their own
    add nothing to the others, or none passes the pruning rule and
    their sum does not either. *)
Definition agree_at (L : list (peak Qc)) (x : Qc) : Prop :=
  weight_at L x = weight_at (filter kept L) x
  \/ (weight_at L x <= prune_threshold
      /\ ~ In x (map fst (filter kept L))).

(** A weight that is zero, or scales every peak of its spectrum above
    the pruning threshold. *)
Definition zero_or_kept (sw : Spectrum Qc * Qc) : Prop :=
  snd sw = 0
  \/ Forall (fun x => prune_threshold < snd sw * snd x) (confs (fst sw)).

Section Order.

Variable key : peak Qc -> Qc.
Variable reverse : bool.

(** The order in which [list_sort key reverse] leaves two peaks. *)
Definition in_order (x y : peak Qc) : Prop :=
  if reverse then key y <= key x else key x <= key y.

End Order.

Section Queue.

Variable spectra : list (Spectrum Qc).
Variable weights : list Qc.

(** A queue item stands for a peak of one of the spectra, which has a
    weight. *)
Definition item_ok (a : item Qc) : Prop :=
  exists s w,
    nth_error spectra (snd (fst a)) = Some s
    /\ nth_error weights (snd (fst a)) = Some w
    /\ nth_error (confs s) (snd a) = Some (fst (fst a)).

(** The scaled peaks that an item stands for: its own and those that
    follow it in its spectrum. *)
Definition item_rest (a : item Qc) : list (peak Qc) :=
  match nth_error spectra (snd (fst a)), nth_error weights (snd (fst a)) with
  | Some s, Some w => scaled w (skipn (snd a) (confs s))
  | _, _ => []
  end.

Definition remaining (Q : list (item Qc)) : list (peak Qc) :=
  flat_map item_rest Q.

End Queue.

End Vocabulary.

(** ** Transport plans *)

Section PlanVocabulary.

Open Scope Qc_scope.

(** The weight that a plan brings to the position [x] of [self], and
    the weight that it takes from the position [y] of [other]. *)
Definition plan_to (plan : list (move Qc)) (x : Qc) : Qc :=
  fsum (map snd (filter (fun m => eqb (snd (fst m)) x) plan)).

Definition plan_from (plan : list (move Qc)) (y : Qc) : Qc :=
  fsum (map snd (filter (fun m => eqb (fst (fst m)) y) plan)).

(** A plan that never goes back, in [other] or in [self]. *)
Definition plan_monotone (plan : list (move Qc)) : Prop :=
  StronglySorted
    (fun m n => fst (fst m) <= fst (fst n) /\ snd (fst m) <= snd (fst n))
    plan.

End PlanVocabulary.

Section RangeVocabulary.

Open Scope Qc_scope.

(** Exact numbers have no limits; doubles have.  A spectrum is well
    within their range when no weight is negative, the positions are
    at most 1e150 in absolute value and the weights sum to a number
    between 1e-150 and 1e150: the sums, quotients and products that
    [normalize] and [WSDistance] then compute on doubles neither
    overflow nor underflow to zero, and [math.fsum] raises no
    [OverflowError]. *)
Definition range_max : Qc := lit (inject_Z (10 ^ 150)).

Definition range_min : Qc := / range_max.

Definition well_within_range (l : list (peak Qc)) : Prop :=
  nonnegative l
  /\ Forall (fun p => Qcabs (fst p) <= range_max) l
  /\ range_min <= fsum (map snd l) <= range_max.

End RangeVocabulary.

(** * Properties *)

(** ** Tactics, and the comparisons of [exact] as propositions *)

(** After [funelim], forgets the equations on [inspect]ed values and on
    the call itself, which only restate hypotheses that stay. *)
Ltac forget_inspect :=
  repeat match goal with
  | Hs : sigmaI _ _ _ = sigmaI _ _ _ |- _ => clear Hs
  end.

Lemma Qc_eq_this (x y : Qc) : x = y <-> (this x == this y)%Q.
Proof. split; [intros ->; reflexivity | apply Qc_is_canon]. Qed.

(** Moves a goal on [Qc] to [Q], where [lra] applies. *)
Ltac qc_to_q :=
  cbn [lit add sub mul div absv exact] in *;
  unfold zero, one in *;
  cbn [lit add sub mul div absv exact] in *;
  rewrite ?Qc_eq_this in *;
  unfold Qcle, Qclt, Qcminus, Qcabs in *;
  unfold Qcplus, Qcopp, Qcmult in *;
  cbn [this Q2Qc] in *;
  rewrite ?Qred_correct in *.

Ltac qc_lra := qc_to_q; lra.

(** Closes [x <> y] on two numerals. *)
Ltac qc_neq :=
  let E := fresh in
  intro E; apply (f_equal this) in E; vm_compute in E; discriminate.

Lemma leb_le (x y : Qc) : leb x y = true <-> (x <= y)%Qc.
Proof. apply Qle_bool_iff. Qed.

Lemma leb_gt (x y : Qc) : leb x y = false <-> (y < x)%Qc.
Proof.
  cbn [leb exact]. unfold Qcleb, Qclt.
  rewrite <- not_true_iff_false, Qle_bool_iff. split.
  - apply Qnot_le_lt.
  - apply Qlt_not_le.
Qed.

Lemma ltb_lt (x y : Qc) : ltb x y = true <-> (x < y)%Qc.
Proof.
  cbn [ltb exact]. unfold Qcltb. rewrite negb_true_iff. apply leb_gt.
Qed.

Lemma ltb_ge (x y : Qc) : ltb x y = false <-> (y <= x)%Qc.
Proof.
  cbn [ltb exact]. unfold Qcltb. rewrite negb_false_iff. apply leb_le.
Qed.

Lemma eqb_eq (x y : Qc) : eqb x y = true <-> x = y.
Proof.
  cbn [eqb exact]. unfold Qc_eq_bool.
  destruct (Qc_eq_dec x y); split; congruence.
Qed.

Lemma eqb_neq (x y : Qc) : eqb x y = false <-> x <> y.
Proof. rewrite <- not_true_iff_false, eqb_eq. reflexivity. Qed.

Open Scope string_scope.
Open Scope list_scope.

(** ** Construction *)

Section Construction.
Context {R : Type} `{Number R}.
Variable confs_from_formula :
  string -> R -> option R -> Z -> option string -> result (list (peak R)).

(** C9: a call of the constructor with a nonempty formula and a peak
    list raises [ValueError], whatever the other arguments are, so that
    it returns no spectrum. *)
Theorem init_formula_and_confs_raises (formula : string) (threshold : R)
    (total_prob : option R) (charge : Z) (adduct : option string)
    (confs : list (peak R)) (label : option string) :
  formula <> "" ->
  __init__ confs_from_formula formula threshold total_prob charge adduct
    (Some confs) label
  = Raise (ValueError "Formula and confs cannot be set at the same time!")
  /\ forall s : Spectrum R,
       __init__ confs_from_formula formula threshold total_prob charge adduct
         (Some confs) label <> OK s.
Proof.
  intros Hf. unfold __init__.
  destruct (String.eqb_spec formula "") as [E | _]; [contradiction |].
  split; [reflexivity | discriminate].
Qed.

(** C10, as the code has it: [merge_confs] reads the first peak before
    anything else, so that the empty peak list makes [merge_confs],
    [set_confs], the constructor called with [confs=[]] and the sum of
    two spectra without peaks raise [IndexError]; [Spectrum()] returns
    the spectrum without peaks. *)
Theorem empty_confs_raise_IndexError :
  merge_confs (R:=R) [] = Raise IndexError
  /\ set_confs (R:=R) [] = Raise IndexError
  /\ (forall threshold total_prob charge adduct label,
        __init__ confs_from_formula "" threshold total_prob charge adduct
          (Some []) label = Raise IndexError)
  /\ (forall a b : Spectrum R,
        __add__ (with_confs a []) (with_confs b []) = Raise IndexError)
  /\ new_Spectrum confs_from_formula = OK empty_Spectrum
  /\ confs (R:=R) empty_Spectrum = [].
Proof.
  repeat split; reflexivity.
Qed.

End Construction.

(** The constructor without arguments is not the only way to a spectrum
    without peaks: the constructor called with a peak of weight zero,
    and the product of a spectrum and zero, return one as well, the
    peaks being pruned after [merge_confs] has read the first one. *)
Lemma empty_confs_raise_IndexError_counterexample :
  let no_formula : string -> Qc -> option Qc -> Z -> option string
                   -> result (list (peak Qc)) :=
    fun _ _ _ _ _ => Raise IndexError in
  let a : Spectrum Qc :=
    {| formula := ""; empty := false; label := "a"; charge := 1%Z;
       confs := [(lit (1 # 1), lit (1 # 1))] |} in
  (exists s,
     __init__ no_formula "" (lit (1 # 1000)) None 1%Z None
       (Some [(lit (1 # 1), lit (0 # 1))]) None = OK s
     /\ confs s = [])
  /\ (exists s, __mul__ a (lit (0 # 1)) = OK s /\ confs s = []).
Proof.
  intros no_formula a.
  split; eexists; split; vm_compute; reflexivity.
Qed.

Lemma init_formula_and_confs_raises_witness :
  "C2H5OH" <> ""
  /\ __init__ (R:=Qc) (fun _ _ _ _ _ => OK []) "C2H5OH" (lit (1 # 1000)) None
       1%Z None (Some [(lit (46 # 1), lit (1 # 1))]) None
     = Raise (ValueError "Formula and confs cannot be set at the same time!").
Proof.
  split; [discriminate |].
  apply (init_formula_and_confs_raises (R:=Qc)). discriminate.
Defined.

(** ** Normalization *)

(** C8: when the weights of a spectrum sum to zero, [normalize] raises
    (the division raises [ZeroDivisionError]) and returns no spectrum;
    the spectrum without peaks is such a spectrum. *)
Theorem normalize_zero_total (self : Spectrum Qc) (target_value : Qc) :
  fsum (map snd (confs self)) = zero ->
  normalize self target_value = Raise ZeroDivisionError
  /\ (forall s : Spectrum Qc, normalize self target_value <> OK s)
  /\ normalize (with_confs self []) target_value = Raise ZeroDivisionError.
Proof.
  intros Hz. unfold normalize, truediv. rewrite Hz.
  assert (eqb (zero : Qc) zero = true) as -> by (apply eqb_eq; reflexivity).
  repeat split; try reflexivity. discriminate.
Qed.

Lemma normalize_zero_total_witness :
  normalize (R:=Qc)
    {| formula := ""; empty := false; label := ""; charge := 1%Z;
       confs := [(lit (1 # 1), lit (1 # 2)); (lit (2 # 1), lit (-1 # 2))] |}
    one
  = Raise ZeroDivisionError.
Proof.
  apply normalize_zero_total. apply Qc_is_canon. reflexivity.
Defined.

(** ** The transport sweep *)

Section Sweep.
Context {R : Type} `{Number R}.

Lemma getitem_Raise {A : Type} (l : list A) (i : nat) (e : exn) :
  getitem l i = Raise e -> e = IndexError.
Proof. unfold getitem. destruct (nth_error l i); congruence. Qed.

Lemma sweep_cons (x p : R) (a' : list (peak R)) (y q : R) (b' : list (peak R)) :
  sweep ((x, p) :: a') ((y, q) :: b')
  = if leb q p
    then (y, x, q) :: sweep ((x, sub p q) :: a') b'
    else (y, x, p) :: sweep a' ((y, sub q p) :: b').
Proof. simp sweep. destruct (leb q p); reflexivity. Qed.

Lemma sweep_nil_r (a : list (peak R)) : sweep a [] = [].
Proof. destruct a as [| [x p] a]; reflexivity. Qed.

Lemma getitem_OK {A : Type} (l : list A) (i : nat) (a : A) :
  getitem l i = OK a <-> nth_error l i = Some a.
Proof. unfold getitem. destruct (nth_error l i); split; congruence. Qed.

Lemma getitem_Raise_None {A : Type} (l : list A) (i : nat) (e : exn) :
  getitem l i = Raise e -> nth_error l i = None.
Proof. unfold getitem. destruct (nth_error l i); congruence. Qed.

Lemma moves_while_Raise (other : list (peak R)) mass ii leftoverprob prob ys e :
  moves_while other mass ii leftoverprob prob = (ys, Raise e) ->
  e = IndexError.
Proof.
  revert ys.
  funelim (moves_while other mass ii leftoverprob prob); intros ys' Hr.
  - discriminate.
  - injection Hr as _ <-. eauto using getitem_Raise.
  - destruct (moves_while other mass (S ii) (snd o') (sub prob leftoverprob))
      as [zs r] eqn:E.
    injection Hr as _ ->. eauto.
  - injection Hr as _ <-. eauto using getitem_Raise.
Qed.

Lemma moves_for_Raise (other self : list (peak R)) ii leftoverprob ys e :
  moves_for other self ii leftoverprob = (ys, Raise e) -> e = IndexError.
Proof.
  revert ii leftoverprob ys.
  induction self as [| [mass prob] self IH]; intros ii leftoverprob ys; simpl.
  - discriminate.
  - destruct (moves_while other mass ii leftoverprob prob) as [zs [[[ii' l'] p'] | e']] eqn:E.
    + destruct (getitem other ii') as [o |] eqn:G.
      * destruct (moves_for other self ii' (sub l' p')) as [ws r] eqn:F.
        intros [= _ ->]. eauto.
      * intros [= _ <-]. eauto using getitem_Raise.
    + intros [= _ <-]. eauto using moves_while_Raise.
Qed.

Lemma WSDistanceMoves_returns (self other : Spectrum R) :
  snd (WSDistanceMoves self other) = OK tt.
Proof.
  unfold WSDistanceMoves.
  destruct (getitem (confs other) 0) as [o |] eqn:G.
  - destruct (moves_for (confs other) (confs self) 0 (snd o)) as [ys [[] | e]] eqn:F;
      [reflexivity |].
    apply moves_for_Raise in F. subst e. reflexivity.
  - apply getitem_Raise in G. subst e. reflexivity.
Qed.

Lemma skipn_nth_error {A : Type} (l : list A) (i : nat) (a : A) :
  nth_error l i = Some a -> skipn i l = a :: skipn (S i) l.
Proof.
  revert i. induction l as [| b l IH]; intros [| i]; simpl; try discriminate.
  - intros [= ->]. reflexivity.
  - apply IH.
Qed.

Lemma skipn_nth_error_None {A : Type} (l : list A) (i : nat) :
  nth_error l i = None -> skipn i l = [].
Proof. intros Hn. apply skipn_all2. apply nth_error_None. exact Hn. Qed.

Lemma sweep_moves_while (other : list (peak R)) mass ii leftoverprob prob :
  forall o a',
    nth_error other ii = Some o ->
    sweep ((mass, prob) :: a') ((fst o, leftoverprob) :: skipn (S ii) other)
    = after_while other a' mass (moves_while other mass ii leftoverprob prob).
Proof.
  funelim (moves_while other mass ii leftoverprob prob); intros o1 a' Ho.
  - rewrite sweep_cons, Heq. cbn [after_while]. rewrite Ho. reflexivity.
  - apply getitem_Raise_None in Heq. congruence.
  - clear Heqcall. forget_inspect. apply getitem_OK in Heq, e.
    rewrite Ho in Heq. injection Heq as ->. rename e into E.
    rewrite sweep_cons, Heq0, (skipn_nth_error _ _ E).
    destruct o' as [y q]. cbn [fst snd] in *.
    pose proof (H0 (y, q) a' E) as IH. cbn [fst snd] in IH.
    destruct (moves_while other mass (S ii) q (sub prob leftoverprob))
      as [zs [[[ii' l'] p'] | e']]; cbn [after_while] in *.
    + destruct (nth_error other ii'); cbn [app]; f_equal; exact IH.
    + f_equal. exact IH.
  - clear Heqcall. forget_inspect.
    match goal with
    | E' : getitem other (S ii) = Raise _ |- _ =>
        apply getitem_Raise_None in E'; rename E' into E
    end.
    apply getitem_OK in Heq. rewrite Ho in Heq. injection Heq as ->.
    rewrite sweep_cons, Heq0, (skipn_nth_error_None _ _ E), sweep_nil_r.
    reflexivity.
Qed.

Lemma sweep_moves_for (other self : list (peak R)) :
  forall ii leftoverprob o,
    nth_error other ii = Some o ->
    fst (moves_for other self ii leftoverprob)
    = sweep self ((fst o, leftoverprob) :: skipn (S ii) other).
Proof.
  induction self as [| [mass prob] self IH]; intros ii leftoverprob o Ho.
  - reflexivity.
  - rewrite (sweep_moves_while _ mass _ leftoverprob prob self Ho). cbn [moves_for].
    destruct (moves_while other mass ii leftoverprob prob)
      as [ys [[[ii' l'] p'] | e']]; cbn [after_while]; [| reflexivity].
    unfold getitem.
    destruct (nth_error other ii') as [o' |] eqn:E; [| reflexivity].
    rewrite <- (IH ii' (sub l' p') o' E).
    destruct (moves_for other self ii' (sub l' p')). reflexivity.
Qed.

(** The generator yields the sweep of the two peak lists. *)
Lemma sweep_WSDistanceMoves (self other : Spectrum R) :
  fst (WSDistanceMoves self other) = sweep (confs self) (confs other).
Proof.
  unfold WSDistanceMoves, getitem.
  destruct (confs other) as [| [y q] b] eqn:E; cbn [nth_error snd].
  - rewrite sweep_nil_r. reflexivity.
  - pose proof (sweep_moves_for ((y, q) :: b) (confs self) 0 q (o := (y, q))
                  eq_refl) as Hs.
    cbn [fst skipn] in Hs. rewrite <- Hs.
    destruct (moves_for ((y, q) :: b) (confs self) 0 q). reflexivity.
Qed.

End Sweep.

Section ExactSweep.

Open Scope Qc_scope.

Lemma sum_fsum (l : list Qc) : sum l = fsum l.
Proof.
  unfold sum. cbn [fsum exact_fsum add exact]. unfold zero. cbn [lit exact].
  apply fold_symmetric; intros; ring.
Qed.

Lemma fsum_cons (x : Qc) (l : list Qc) : fsum (x :: l) = x + fsum l.
Proof. reflexivity. Qed.

Lemma fsum_app (l1 l2 : list Qc) : fsum (l1 ++ l2) = fsum l1 + fsum l2.
Proof.
  induction l1 as [| x l1 IH]; cbn [app]; rewrite ?fsum_cons.
  - cbn. ring.
  - rewrite IH. ring.
Qed.

(** The weights of the plan add up to the weights of one of the two
    lists: of [b] when the sweep ends on the exhaustion of [b], of [a]
    otherwise. *)
Lemma sweep_mass (a b : list (peak Qc)) :
  fsum (map snd (sweep a b)) = fsum (map snd a)
  \/ fsum (map snd (sweep a b)) = fsum (map snd b).
Proof.
  funelim (sweep a b); simp sweep; try rewrite Heq; cbn [sweep_clause_3 map snd].
  - left. reflexivity.
  - right. reflexivity.
  - rewrite !fsum_cons. cbn [map snd] in H. rewrite !fsum_cons in H.
    destruct H as [-> | ->]; [left | right]; cbn [sub exact]; ring.
  - rewrite !fsum_cons. cbn [map snd] in H. rewrite !fsum_cons in H.
    destruct H as [-> | ->]; [left | right]; cbn [sub exact]; ring.
Qed.

(** C1: when the weights of the two spectra have the same sum, the
    generator ends normally and the weights of the plan entries it yields
    add up to that sum. *)
Theorem WSDistanceMoves_mass_conservation (self other : Spectrum Qc) :
  sum (map snd (confs self)) = sum (map snd (confs other)) ->
  snd (WSDistanceMoves self other) = OK tt
  /\ sum (map snd (fst (WSDistanceMoves self other)))
     = sum (map snd (confs self)).
Proof.
  intros Heq. split; [apply WSDistanceMoves_returns |].
  rewrite sweep_WSDistanceMoves. rewrite !sum_fsum in *.
  destruct (sweep_mass (confs self) (confs other)) as [-> | ->]; congruence.
Qed.

Lemma WSDistanceMoves_mass_conservation_witness :
  let a : Spectrum Qc :=
    {| formula := ""; empty := false; label := "a"; charge := 1%Z;
       confs := [(lit (100 # 1), lit (1 # 2)); (lit (101 # 1), lit (1 # 2))] |} in
  let b : Spectrum Qc :=
    {| formula := ""; empty := false; label := "b"; charge := 1%Z;
       confs := [(lit (100 # 1), lit (3 # 10)); (lit (101 # 1), lit (7 # 10))] |} in
  sum (map snd (fst (WSDistanceMoves a b))) = sum (map snd (confs a)).
Proof.
  intros a b.
  apply (WSDistanceMoves_mass_conservation a b).
  apply Qc_is_canon. reflexivity.
Defined.

(** *** Symmetry of the transport cost *)

Lemma cost_cons (x : move Qc) (m : list (move Qc)) :
  cost (x :: m) = move_cost x + cost m.
Proof. reflexivity. Qed.

Lemma move_cost_swap (x y w : Qc) : move_cost (y, x, w) = move_cost (x, y, w).
Proof.
  unfold move_cost. cbn [fst snd]. f_equal.
  apply Qc_is_canon. cbn [absv sub exact]. unfold Qcabs, Qcminus, Qcplus, Qcopp.
  cbn [this Q2Qc]. rewrite !Qred_correct.
  pose proof (Qabs_Qminus y x) as E. unfold Qminus in E. rewrite E.
  reflexivity.
Qed.

Lemma move_cost_zero (x y : Qc) : move_cost (y, x, 0) = 0.
Proof. unfold move_cost. cbn [fst snd mul exact]. ring. Qed.

Lemma move_cost_nonneg (x y w : Qc) : 0 <= w -> 0 <= move_cost (y, x, w).
Proof.
  intros Hw. unfold move_cost. cbn [fst snd]. qc_to_q.
  apply Qmult_le_0_compat; [apply Qabs_nonneg | exact Hw].
Qed.

Lemma sub_zero_r (p : Qc) : sub p 0 = p.
Proof. cbn [sub exact]. ring. Qed.

Lemma sub_diag (p : Qc) : sub p p = 0.
Proof. cbn [sub exact]. ring. Qed.

(** A peak of weight zero at the head of either list adds nothing to
    the cost. *)
Lemma cost_sweep_zero_r (a : list (peak Qc)) (y : Qc) (b' : list (peak Qc)) :
  nonnegative a ->
  cost (sweep a ((y, 0) :: b')) = cost (sweep a b').
Proof.
  intros Ha. destruct a as [| [x p] a'].
  - simp sweep. reflexivity.
  - rewrite sweep_cons.
    assert (leb 0 p = true) as -> by (apply leb_le; inversion Ha; assumption).
    rewrite cost_cons, move_cost_zero, sub_zero_r. ring.
Qed.

Lemma cost_sweep_zero_l (x : Qc) (a' b : list (peak Qc)) :
  nonnegative a' -> nonnegative b ->
  cost (sweep ((x, 0) :: a') b) = cost (sweep a' b).
Proof.
  intros Ha Hb. induction Hb as [| [y q] b' Hq Hb IH].
  - rewrite !sweep_nil_r. reflexivity.
  - rewrite sweep_cons. cbn [snd] in Hq.
    destruct (leb q 0) eqn:E.
    + apply leb_le in E.
      assert (q = 0) as -> by (apply Qcle_antisym; assumption).
      rewrite cost_cons, move_cost_zero, sub_diag, IH, cost_sweep_zero_r by assumption.
      ring.
    + rewrite cost_cons, move_cost_zero, sub_zero_r. ring.
Qed.

Lemma sub_nonneg (p q : Qc) : q <= p -> 0 <= sub p q.
Proof. intros Hle. qc_lra. Qed.

Lemma sweep_cost_sym (a b : list (peak Qc)) :
  nonnegative a -> nonnegative b ->
  cost (sweep a b) = cost (sweep b a).
Proof.
  funelim (sweep a b); intros Ha Hb.
  - rewrite sweep_nil_r. simp sweep. reflexivity.
  - simp sweep. reflexivity.
  - clear Heqcall. rename Heq into E. apply leb_le in E.
    inversion Ha as [| ? ? Hp Ha']; inversion Hb as [| ? ? Hq Hb']; subst.
    cbn [snd] in Hp, Hq.
    rewrite cost_cons, (sweep_cons y q).
    destruct (leb p q) eqn:E'.
    + apply leb_le in E'.
      assert (q = p) as -> by (apply Qcle_antisym; assumption).
      rewrite cost_cons, (move_cost_swap y x). f_equal.
      rewrite sub_diag in *.
      rewrite H by (try constructor; assumption || apply Qcle_refl).
      rewrite cost_sweep_zero_r, cost_sweep_zero_l by assumption.
      reflexivity.
    + rewrite cost_cons, (move_cost_swap y x). f_equal.
      apply H; [constructor; [apply sub_nonneg |] |]; assumption.
  - clear Heqcall. rename Heq into E. apply leb_gt in E.
    inversion Ha as [| ? ? Hp Ha']; inversion Hb as [| ? ? Hq Hb']; subst.
    cbn [snd] in Hp, Hq.
    rewrite cost_cons, (sweep_cons y q).
    assert (leb p q = true) as -> by (apply leb_le, Qclt_le_weak; exact E).
    rewrite cost_cons, (move_cost_swap y x). f_equal.
    apply H; [| constructor; [apply sub_nonneg, Qclt_le_weak |]]; assumption.
Qed.

Lemma sweep_cost_nonneg (a b : list (peak Qc)) :
  nonnegative a -> nonnegative b -> 0 <= cost (sweep a b).
Proof.
  funelim (sweep a b); intros Ha Hb.
  - apply Qcle_refl.
  - apply Qcle_refl.
  - clear Heqcall. rename Heq into E. apply leb_le in E.
    inversion Ha as [| ? ? Hp Ha']; inversion Hb as [| ? ? Hq Hb']; subst.
    cbn [snd] in Hp, Hq. rewrite cost_cons.
    pose proof (move_cost_nonneg x y Hq).
    assert (0 <= cost (sweep ((x, sub p q) :: a') b')).
    { apply H; [constructor; [apply sub_nonneg |] |]; assumption. }
    qc_lra.
  - clear Heqcall. rename Heq into E. apply leb_gt in E.
    inversion Ha as [| ? ? Hp Ha']; inversion Hb as [| ? ? Hq Hb']; subst.
    cbn [snd] in Hp, Hq. rewrite cost_cons.
    pose proof (move_cost_nonneg x y Hp).
    assert (0 <= cost (sweep a' ((y, sub q p) :: b'))).
    { apply H; [| constructor; [apply sub_nonneg, Qclt_le_weak |]]; assumption. }
    qc_lra.
Qed.

(** *** The distance *)

Lemma isclose_one (x : Qc) :
  isclose x one = true <-> Qcabs (x - 1) <= tolerance.
Proof.
  unfold isclose. rewrite leb_le.
  replace (add atol (mul rtol (absv one))) with tolerance
    by (apply Qc_is_canon; reflexivity).
  reflexivity.
Qed.

Lemma isclose_one_false (x : Qc) :
  isclose x one = false <-> tolerance < Qcabs (x - 1).
Proof.
  rewrite <- not_true_iff_false, isclose_one. split.
  - apply Qcnot_le_lt.
  - apply Qclt_not_le.
Qed.

Lemma WSDistance_OK (self other : Spectrum Qc) :
  isclose (total_weight self) one = true ->
  isclose (total_weight other) one = true ->
  WSDistance self other = OK (cost (sweep (confs self) (confs other))).
Proof.
  intros Hs Ho. unfold WSDistance. fold (total_weight self) (total_weight other).
  rewrite Hs, Ho. cbn [negb].
  pose proof (WSDistanceMoves_returns self other) as Hr.
  pose proof (sweep_WSDistanceMoves self other) as Hm.
  destruct (WSDistanceMoves self other) as [mvs r]. cbn [fst snd] in *.
  subst r mvs. reflexivity.
Qed.

(** C3, as the code has it: [WSDistance] raises, and then a
    [ValueError], exactly when the weights of one of the two spectra sum
    to a number further from 1 than [atol + rtol * 1 = 1.001e-5];
    otherwise, and so whenever both sums are within 1e-9 of 1, it returns
    the cost of the plan. *)
Theorem WSDistance_precondition (self other : Spectrum Qc) :
  ((exists e, WSDistance self other = Raise e)
   <-> (tolerance < Qcabs (total_weight self - 1)
        \/ tolerance < Qcabs (total_weight other - 1)))
  /\ (forall e, WSDistance self other = Raise e -> exists msg, e = ValueError msg)
  /\ (Qcabs (total_weight self - 1) <= tolerance ->
      Qcabs (total_weight other - 1) <= tolerance ->
      WSDistance self other = OK (cost (fst (WSDistanceMoves self other))))
  /\ (Qcabs (total_weight self - 1) <= lit (1 # 1000000000) ->
      Qcabs (total_weight other - 1) <= lit (1 # 1000000000) ->
      WSDistance self other = OK (cost (fst (WSDistanceMoves self other)))).
Proof.
  assert (forall x : Qc, Qcabs (x - 1) <= lit (1 # 1000000000) ->
                         Qcabs (x - 1) <= tolerance) as Hsmall.
  { intros x Hx. eapply Qcle_trans; [exact Hx |]. discriminate. }
  rewrite <- !isclose_one_false, sweep_WSDistanceMoves.
  destruct (isclose (total_weight self) one) eqn:Es;
    [destruct (isclose (total_weight other) one) eqn:Eo |].
  - rewrite (WSDistance_OK _ _ Es Eo). repeat split; try discriminate.
    + intros [e He]. discriminate.
    + intros [E | E]; discriminate.
  - unfold WSDistance. fold (total_weight self) (total_weight other).
    rewrite Es, Eo. cbn [negb]. repeat split.
    + intros _. right. reflexivity.
    + intros _. eexists. reflexivity.
    + intros e [= <-]. eexists. reflexivity.
    + intros _ Ho. apply isclose_one in Ho. congruence.
    + intros _ Ho. apply Hsmall, isclose_one in Ho. congruence.
  - unfold WSDistance. fold (total_weight self) (total_weight other).
    rewrite Es. cbn [negb]. repeat split.
    + intros _. left. reflexivity.
    + intros _. eexists. reflexivity.
    + intros e [= <-]. eexists. reflexivity.
    + intros Hs. apply isclose_one in Hs. congruence.
    + intros Hs. apply Hsmall, isclose_one in Hs. congruence.
Qed.

(** The weights of [a] sum to 1.000001, further from 1 than 1e-9, and
    [WSDistance] does not raise. *)
Lemma WSDistance_precondition_counterexample :
  let a : Spectrum Qc :=
    {| formula := ""; empty := false; label := "a"; charge := 1%Z;
       confs := [(lit (100 # 1), lit (1000001 # 1000000))] |} in
  let b : Spectrum Qc :=
    {| formula := ""; empty := false; label := "b"; charge := 1%Z;
       confs := [(lit (100 # 1), lit (1 # 1))] |} in
  ~ ((exists e, WSDistance a b = Raise e)
     <-> (lit (1 # 1000000000) < Qcabs (total_weight a - 1)
          \/ lit (1 # 1000000000) < Qcabs (total_weight b - 1))).
Proof.
  intros a b [_ Hr].
  destruct Hr as [e He]; [left; reflexivity |].
  vm_compute in He. discriminate.
Qed.

(** The check alone, in double precision: the sum 1.000001 is further
    from 1 than 1e-9 and passes [isclose]. *)
Example isclose_binary64 :
  let total : float := sum [lit (1000001 # 1000000)] in
  ltb (lit (1 # 1000000000)) (absv (sub total one)) = true
  /\ isclose total one = true.
Proof. vm_compute. split; reflexivity. Qed.

Lemma WSDistance_precondition_witness :
  let a : Spectrum Qc :=
    {| formula := ""; empty := false; label := "a"; charge := 1%Z;
       confs := [(lit (100 # 1), lit (1000001 # 1000000))] |} in
  let b : Spectrum Qc :=
    {| formula := ""; empty := false; label := "b"; charge := 1%Z;
       confs := [(lit (101 # 1), lit (1 # 1))] |} in
  WSDistance a b = OK (cost (fst (WSDistanceMoves a b))).
Proof.
  intros a b.
  apply (proj1 (proj2 (proj2 (WSDistance_precondition a b))));
    vm_compute; discriminate.
Defined.

(** The sweep gives the same cost whichever spectrum supplies and
    whichever demands, provided no weight is negative. *)
Lemma WSDistance_sym (a b : Spectrum Qc) :
  nonnegative (confs a) -> nonnegative (confs b) ->
  isclose (total_weight a) one = true ->
  isclose (total_weight b) one = true ->
  exists d, WSDistance a b = OK d /\ WSDistance b a = OK d /\ 0 <= d.
Proof.
  intros Ha Hb Hta Htb.
  exists (cost (sweep (confs a) (confs b))). split; [| split].
  - apply WSDistance_OK; assumption.
  - rewrite (sweep_cost_sym Ha Hb). apply WSDistance_OK; assumption.
  - apply sweep_cost_nonneg; assumption.
Qed.

(** C2: for two spectra of nonnegative weights that sum to 1, the
    distance from [a] to [b] and the distance from [b] to [a] are the
    same number, and it is not negative. *)
Theorem WSDistance_symmetric_nonnegative (a b : Spectrum Qc) :
  nonnegative (confs a) -> nonnegative (confs b) ->
  total_weight a = 1 -> total_weight b = 1 ->
  exists d, WSDistance a b = OK d /\ WSDistance b a = OK d /\ 0 <= d.
Proof.
  intros Ha Hb Hta Htb.
  apply WSDistance_sym; try assumption.
  - rewrite Hta. reflexivity.
  - rewrite Htb. reflexivity.
Qed.

Lemma WSDistance_symmetric_nonnegative_witness :
  let a : Spectrum Qc :=
    {| formula := ""; empty := false; label := "a"; charge := 1%Z;
       confs := [(lit (100 # 1), lit (1 # 2)); (lit (101 # 1), lit (1 # 2))] |} in
  let b : Spectrum Qc :=
    {| formula := ""; empty := false; label := "b"; charge := 1%Z;
       confs := [(lit (100 # 1), lit (3 # 10)); (lit (101 # 1), lit (7 # 10))] |} in
  exists d, WSDistance a b = OK d /\ WSDistance b a = OK d /\ 0 <= d.
Proof.
  intros a b.
  apply (WSDistance_symmetric_nonnegative a b).
  - repeat constructor; discriminate.
  - repeat constructor; discriminate.
  - apply Qc_is_canon. reflexivity.
  - apply Qc_is_canon. reflexivity.
Defined.

End ExactSweep.

(** ** Sorting *)

Section Sorting.

Open Scope Qc_scope.

Variable key : peak Qc -> Qc.
Variable reverse : bool.

Lemma in_order_trans (x y z : peak Qc) :
  in_order key reverse x y -> in_order key reverse y z ->
  in_order key reverse x z.
Proof.
  unfold in_order. destruct reverse; intros Hxy Hyz;
    eapply Qcle_trans; eassumption.
Qed.

Lemma sort_insert_perm (x : peak Qc) (l : list (peak Qc)) :
  Permutation (x :: l) (sort_insert key reverse x l).
Proof.
  induction l as [| y l IH]; cbn [sort_insert]; [reflexivity |].
  destruct (if reverse then ltb (key x) (key y) else ltb (key y) (key x)).
  - rewrite perm_swap. apply perm_skip. exact IH.
  - reflexivity.
Qed.

Lemma list_sort_perm (l : list (peak Qc)) :
  Permutation l (list_sort key reverse l).
Proof.
  induction l as [| x l IH]; cbn [list_sort fold_right]; [reflexivity |].
  rewrite <- sort_insert_perm. apply perm_skip. exact IH.
Qed.

Lemma sort_insert_sorted (x : peak Qc) (l : list (peak Qc)) :
  StronglySorted (in_order key reverse) l ->
  StronglySorted (in_order key reverse) (sort_insert key reverse x l).
Proof.
  induction 1 as [| y l Hs IH Hy]; cbn [sort_insert].
  - repeat constructor.
  - destruct (if reverse then ltb (key x) (key y) else ltb (key y) (key x)) eqn:E.
    + constructor; [exact IH |].
      rewrite Forall_forall in *. intros z Hz.
      apply (Permutation_in _ (Permutation_sym (sort_insert_perm x l))) in Hz.
      destruct Hz as [<- | Hz]; [| auto].
      unfold in_order. destruct reverse; apply ltb_lt in E;
        apply Qclt_le_weak; exact E.
    + assert (in_order key reverse x y) as Hxy.
      { unfold in_order. destruct reverse; apply ltb_ge in E; exact E. }
      constructor; [constructor; assumption |].
      constructor; [exact Hxy |].
      rewrite Forall_forall in *. intros z Hz.
      eapply in_order_trans; eauto.
Qed.

Lemma list_sort_sorted (l : list (peak Qc)) :
  StronglySorted (in_order key reverse) (list_sort key reverse l).
Proof.
  induction l as [| x l IH]; cbn [list_sort fold_right].
  - constructor.
  - apply sort_insert_sorted. exact IH.
Qed.

End Sorting.

Lemma fsum_perm (l1 l2 : list Qc) : Permutation l1 l2 -> fsum l1 = fsum l2.
Proof.
  induction 1 as [| x l1 l2 _ IH | x y l | l1 l2 l3 _ IH1 _ IH2];
    rewrite ?fsum_cons.
  - reflexivity.
  - rewrite IH. reflexivity.
  - ring.
  - congruence.
Qed.

(** ** Smallest-peak pruning *)

Section Pruning.

Open Scope Qc_scope.

Lemma pop_Raise {A : Type} (l : list A) (e : exn) : pop l = Raise e -> l = [].
Proof.
  unfold pop. destruct (rev l) as [| x r] eqn:E; [| discriminate].
  intros _. rewrite <- (rev_involutive l), E. reflexivity.
Qed.

(** The loop pops a suffix [popped] of the list, adds its weights to
    [removed], never lets a pop take [removed] above the threshold, and
    stops on a last peak that would. *)
Lemma cut_while_spec (confs : list (peak Qc)) (threshold removed : Qc) :
  exists popped,
    confs = fst (cut_while confs threshold removed) ++ popped
    /\ snd (cut_while confs threshold removed)
       = removed + fsum (map snd popped)
    /\ (popped = [] \/ snd (cut_while confs threshold removed) <= threshold)
    /\ (forall l x, fst (cut_while confs threshold removed) = l ++ [x] ->
          threshold < snd (cut_while confs threshold removed) + snd x).
Proof.
  funelim (cut_while confs threshold removed); clear Heqcall; forget_inspect.
  - exists []. cbn [fst snd]. repeat split.
    + rewrite app_nil_r. reflexivity.
    + cbn. ring.
    + left. reflexivity.
    + intros l y Hl. apply pop_Raise in e. rewrite e in Hl.
      destruct l; discriminate.
  - destruct H as (popped & Hc & Hr & Hle & Hstop).
    apply pop_OK in e. apply leb_le in Heq.
    exists (popped ++ [x]). repeat split.
    + rewrite app_assoc, <- Hc. exact e.
    + rewrite Hr, map_app, fsum_app. cbn. ring.
    + right. destruct Hle as [-> | Hle]; [| exact Hle].
      rewrite Hr. cbn. cbn in Heq. qc_lra.
    + exact Hstop.
  - exists []. cbn [fst snd]. repeat split.
    + rewrite app_nil_r. reflexivity.
    + cbn. ring.
    + left. reflexivity.
    + intros l y Hl. apply pop_OK in e. rewrite Hl in e.
      apply app_inj_tail in e. destruct e as [_ ->].
      apply leb_gt in Heq. exact Heq.
Qed.

Lemma StronglySorted_app_inv {A : Type} (P : A -> A -> Prop) (l1 l2 : list A) :
  StronglySorted P (l1 ++ l2) ->
  forall x y, In x l1 -> In y l2 -> P x y.
Proof.
  induction l1 as [| a l1 IH]; cbn [app]; intros Hs x y Hx Hy; [contradiction |].
  inversion Hs as [| ? ? Hs' Ha]; subst.
  destruct Hx as [<- | Hx].
  - rewrite Forall_forall in Ha. apply Ha, in_or_app. right. exact Hy.
  - eauto.
Qed.

Lemma total_weight_list_sort key reverse (self : Spectrum Qc) :
  sum (map snd (list_sort key reverse (confs self))) = total_weight self.
Proof.
  unfold total_weight. rewrite !sum_fsum. apply fsum_perm, Permutation_map.
  symmetry. apply list_sort_perm.
Qed.

(** The loop on any number type, in terms of its own additions and
    comparisons: the peaks popped are a suffix of the list; each was
    popped because the running sum, that peak included, passed the test
    against the threshold; and the loop stopped on a peak that failed
    it, or on the empty list. *)
Lemma cut_while_run {R : Type} {N : Number R} (confs : list (peak R))
    (threshold removed : R) :
  exists popped,
    confs = fst (cut_while confs threshold removed) ++ popped
    /\ (forall r1 x r2, popped = r1 ++ x :: r2 ->
          leb (add (fold_left add (map snd (rev r2)) removed) (snd x)) threshold
          = true)
    /\ (forall l x, fst (cut_while confs threshold removed) = l ++ [x] ->
          leb (add (fold_left add (map snd (rev popped)) removed) (snd x))
            threshold
          = false).
Proof.
  funelim (cut_while confs threshold removed); clear Heqcall; forget_inspect.
  - exists []. cbn [fst]. rewrite app_nil_r. split; [reflexivity |]. split.
    + intros r1 y r2 E. destruct r1; discriminate.
    + intros l y Hl. apply pop_Raise in e. rewrite e in Hl.
      destruct l; discriminate.
  - destruct H as (popped & Hc & Hpass & Hstop).
    apply pop_OK in e.
    exists (popped ++ [x]). split; [| split].
    + rewrite app_assoc, <- Hc. exact e.
    + intros r1 y r2 E.
      destruct (rev r2) as [| z r] eqn:Er.
      * apply (f_equal (@rev _)) in Er. rewrite rev_involutive in Er.
        cbn [rev] in Er. subst r2. apply app_inj_tail in E.
        destruct E as [_ <-]. cbn [map fold_left]. exact Heq.
      * apply (f_equal (@rev _)) in Er. rewrite rev_involutive in Er.
        cbn [rev] in Er. subst r2.
        change (r1 ++ y :: rev r ++ [z]) with (r1 ++ (y :: rev r) ++ [z]) in E.
        rewrite app_assoc in E. apply app_inj_tail in E.
        destruct E as [E <-]. cbn [map fold_left].
        pose proof (Hpass r1 y (rev r) E) as Hp.
        rewrite rev_involutive in Hp. exact Hp.
    + intros l y Hl. rewrite rev_app_distr. cbn [rev app map fold_left].
      exact (Hstop l y Hl).
  - exists []. cbn [fst]. rewrite app_nil_r. split; [reflexivity |]. split.
    + intros r1 y r2 E. destruct r1; discriminate.
    + intros l y Hl. apply pop_OK in e. rewrite e in Hl.
      apply app_inj_tail in Hl. destruct Hl as [_ <-].
      cbn [rev map fold_left]. exact Heq.
Qed.

(** C6, as the code has it: on the example the peaks (1, 0.01) and
    (2, 0.04) are both removed, the removed weight 0.05 being equal to,
    not above, the threshold.  In general, on any number type and with
    the sums as the code adds them: the removed peaks are the last
    ones of the list sorted by decreasing weight; each was removed
    because the running sum of the weights removed so far, lightest
    first and that peak included, was at most the threshold,
    [removed_proportion] times the sum of the weights taken heaviest
    first; and the running sum with the lightest peak that stays is
    above it.  On exact numbers the list sorted by decreasing weight is
    a permutation of the peaks in which no peak is heavier than an
    earlier one, so that the peaks are removed lightest first. *)
Theorem cut_smallest_peaks_boundary :
  confs (cut_smallest_peaks
           {| formula := ""; empty := false; label := ""; charge := 1%Z;
              confs := [(lit (1 # 1), lit (1 # 100));
                        (lit (2 # 1), lit (4 # 100));
                        (lit (3 # 1), lit (95 # 100))] |}
           (lit (5 # 100)))
  = [(lit (3 # 1) : Qc, lit (95 # 100) : Qc)]
  /\ (forall (R : Type) (N : Number R) (self : Spectrum R)
             (removed_proportion : R),
        let by_weight := list_sort snd true (confs self) in
        let threshold := mul removed_proportion (sum (map snd by_weight)) in
        exists kept removed,
          by_weight = kept ++ removed
          /\ confs (cut_smallest_peaks self removed_proportion)
             = sort_confs kept
          /\ (forall r1 x r2, removed = r1 ++ x :: r2 ->
                leb (add (sum (map snd (rev r2))) (snd x)) threshold = true)
          /\ (forall l x, kept = l ++ [x] ->
                leb (add (sum (map snd (rev removed))) (snd x)) threshold
                = false))
  /\ (forall self : Spectrum Qc,
        Permutation (confs self) (list_sort snd true (confs self))
        /\ StronglySorted (fun x y => snd y <= snd x)
             (list_sort snd true (confs self))).
Proof.
  split; [vm_compute; reflexivity |]. split.
  - intros R N self p by_weight threshold. unfold cut_smallest_peaks.
    fold by_weight. fold threshold.
    destruct (cut_while_run by_weight threshold zero)
      as (popped & Hc & Hpass & Hstop).
    destruct (cut_while by_weight threshold zero) as [kept removed'].
    cbn [fst] in *.
    exists kept, popped. split; [exact Hc |]. split; [| split].
    + destruct self. reflexivity.
    + exact Hpass.
    + exact Hstop.
  - intros self. split.
    + apply list_sort_perm.
    + exact (list_sort_sorted snd true (confs self)).
Qed.

(** The general half on doubles, for the weights 0.3, 0.2, 0.1 and the
    proportion 1.0. *)
Lemma cut_smallest_peaks_boundary_witness :
  let self : Spectrum float :=
    {| formula := ""; empty := false; label := ""; charge := 1%Z;
       confs := [(lit (1 # 1), lit (3 # 10)); (lit (2 # 1), lit (2 # 10));
                 (lit (3 # 1), lit (1 # 10))] |} in
  exists kept removed,
    list_sort snd true (confs self) = kept ++ removed
    /\ confs (cut_smallest_peaks self (lit (1 # 1))) = sort_confs kept.
Proof.
  intros self.
  destruct (proj1 (proj2 cut_smallest_peaks_boundary) float binary64 self
              (lit (1 # 1)))
    as (kept & removed & Hsplit & Hres & _).
  exists kept, removed. split; assumption.
Defined.

(** The specification's reading of the example, that only (1, 0.01) is
    removed, is not what the code computes. *)
Lemma cut_smallest_peaks_boundary_counterexample :
  confs (cut_smallest_peaks
           {| formula := ""; empty := false; label := ""; charge := 1%Z;
              confs := [(lit (1 # 1), lit (1 # 100));
                        (lit (2 # 1), lit (4 # 100));
                        (lit (3 # 1), lit (95 # 100))] |}
           (lit (5 # 100)))
  <> [(lit (2 # 1) : Qc, lit (4 # 100) : Qc); (lit (3 # 1), lit (95 # 100))].
Proof. vm_compute. discriminate. Qed.

(** The same example in double precision: the sum of the weights is
    1.0, the threshold 0.05 and 0.01 + 0.04 the same double, so that
    both peaks are removed there too. *)
Example cut_smallest_peaks_boundary_binary64 :
  confs (cut_smallest_peaks
           {| formula := ""; empty := false; label := ""; charge := 1%Z;
              confs := [(lit (1 # 1), lit (1 # 100));
                        (lit (2 # 1), lit (4 # 100));
                        (lit (3 # 1), lit (95 # 100))] |}
           (lit (5 # 100)))
  = [(lit (3 # 1) : float, lit (95 # 100) : float)].
Proof. vm_compute. reflexivity. Qed.

End Pruning.

(** ** Reference filtering *)

Section Filtering.

Open Scope Qc_scope.



Lemma within_spec (ths : list Qc) (margin : Qc) (p : peak Qc) :
  within ths margin p = true
  <-> exists t, In t ths /\ Qcabs (fst p - t) <= margin.
Proof.
  unfold within. rewrite existsb_exists.
  split; intros (t & Ht & Hn); exists t; (split; [exact Ht |]);
    apply leb_le; exact Hn.
Qed.





End Filtering.

(** ** Canonical peak lists *)

Section Canonical.

Open Scope Qc_scope.

Lemma last_cons {A : Type} (l : list A) :
  forall a d, last (a :: l) d = last l a.
Proof.
  induction l as [| b l IH]; intros a d; [reflexivity |].
  change (last (a :: b :: l) d) with (last (b :: l) d).
  rewrite !IH. reflexivity.
Qed.

Lemma merge_step_fold (l : list (peak Qc)) :
  forall cmass cprob ret,
  exists out cmass' cprob',
    fold_left merge_step l (cmass, cprob, ret) = (cmass', cprob', ret ++ out)
    /\ group_from cmass cprob l = out ++ [(cmass', cprob')]
    /\ cmass' = last (map fst l) cmass.
Proof.
  induction l as [| [mass prob] l IH]; intros cmass cprob ret.
  - exists [], cmass, cprob. cbn. rewrite app_nil_r. auto.
  - cbn [fold_left merge_step group_from].
    destruct (eqb mass cmass) eqn:E; cbn [negb].
    + apply eqb_eq in E. subst mass.
      destruct (IH cmass (cprob + prob) ret) as (out & cm & cp & Hf & Hg & Hl).
      exists out, cm, cp. repeat split; try assumption.
      rewrite Hl. cbn [map fst]. rewrite last_cons. reflexivity.
    + destruct (IH mass (0 + prob) (ret ++ [(cmass, cprob)]))
        as (out & cm & cp & Hf & Hg & Hl).
      exists ((cmass, cprob) :: out), cm, cp. repeat split.
      * cbn [add zero exact lit] in *. unfold zero. cbn [lit exact].
        rewrite Hf, <- app_assoc. reflexivity.
      * rewrite Hg. reflexivity.
      * rewrite Hl. cbn [map fst]. rewrite last_cons. reflexivity.
Qed.

Lemma last_In {A : Type} (l : list A) (d : A) : l <> [] -> In (last l d) l.
Proof.
  induction l as [| a l IH]; [congruence |]. intros _.
  destruct l as [| b l]; [left; reflexivity |].
  right. apply IH. discriminate.
Qed.

(** Away from the sentinel position, [merge_confs] returns the groups
    that pass the pruning rule. *)
Lemma merge_confs_groups (l : list (peak Qc)) :
  l <> [] -> off_sentinel l ->
  merge_confs l = OK (filter kept (groups l)).
Proof.
  intros Hne Hoff. destruct l as [| [mass prob] l]; [congruence |].
  unfold merge_confs. cbn [getitem nth_error bind fst].
  rewrite fold_left_app.
  destruct (merge_step_fold ((mass, prob) :: l) mass zero [])
    as (out & cm & cp & Hf & Hg & Hl).
  rewrite Hf. cbn [fold_left merge_step app].
  assert (eqb (lit (-1 # 1)) cm = false) as ->.
  { apply eqb_neq. intros Heq. rewrite Hl in Heq.
    assert (In (last (map fst ((mass, prob) :: l)) mass)
               (map fst ((mass, prob) :: l))) as Hin
      by (apply last_In; discriminate).
    apply in_map_iff in Hin. destruct Hin as (p & Hp & Hin).
    unfold off_sentinel in Hoff. rewrite Forall_forall in Hoff.
    apply (Hoff p Hin). congruence. }
  cbn [negb]. rewrite <- Hg.
  cbn [group_from groups].
  assert (eqb mass mass = true) as -> by (apply eqb_eq; reflexivity).
  reflexivity.
Qed.

Lemma sort_confs_sorted (l : list (peak Qc)) :
  sorted_by_position l -> sort_confs l = l.
Proof.
  unfold sort_confs. induction 1 as [| x l Hs IH Hx]; [reflexivity |].
  cbn [list_sort fold_right]. fold (list_sort fst false l). rewrite IH.
  destruct l as [| y l]; [reflexivity |]. cbn [sort_insert].
  inversion Hx as [| ? ? Hxy _]; subst.
  assert (ltb (fst y) (fst x) = false) as -> by (apply ltb_ge; exact Hxy).
  reflexivity.
Qed.

Lemma strictly_sorted_sorted (l : list (peak Qc)) :
  strictly_sorted l -> sorted_by_position l.
Proof.
  induction 1 as [| x l Hs IH Hx]; constructor; [exact IH |].
  eapply Forall_impl; [| exact Hx]. intros y Hy. apply Qclt_le_weak. exact Hy.
Qed.

Lemma group_from_strictly_sorted (l : list (peak Qc)) :
  forall mass prob,
    strictly_sorted ((mass, prob) :: l) ->
    group_from mass prob l = (mass, prob) :: l.
Proof.
  induction l as [| [m p] l IH]; intros mass prob Hs; [reflexivity |].
  inversion Hs as [| ? ? Hs' Hx]; subst.
  inversion Hx as [| ? ? Hlt _]; subst. cbn [fst] in Hlt.
  cbn [group_from].
  assert (eqb m mass = false) as ->.
  { apply eqb_neq. intros ->. exact (Qclt_not_eq _ _ Hlt eq_refl). }
  replace (0 + p) with p by ring.
  rewrite (IH m p Hs'). reflexivity.
Qed.

Lemma groups_strictly_sorted (l : list (peak Qc)) :
  strictly_sorted l -> groups l = l.
Proof.
  destruct l as [| [m p] l]; [reflexivity |]. intros Hs. cbn [groups].
  replace (0 + p) with p by ring.
  apply group_from_strictly_sorted. exact Hs.
Qed.

(** [set_confs] on a list that is already strictly sorted only prunes. *)
Lemma set_confs_strictly_sorted (l : list (peak Qc)) :
  strictly_sorted l -> l <> [] -> off_sentinel l ->
  set_confs l = OK (filter kept l).
Proof.
  intros Hs Hne Hoff. unfold set_confs.
  rewrite (sort_confs_sorted (strictly_sorted_sorted Hs)).
  rewrite (merge_confs_groups Hne Hoff), (groups_strictly_sorted Hs).
  reflexivity.
Qed.

Lemma scaled_strictly_sorted (number : Qc) (l : list (peak Qc)) :
  strictly_sorted l -> strictly_sorted (scaled number l).
Proof.
  induction 1 as [| x l Hs IH Hx]; cbn [scaled map]; constructor; [exact IH |].
  rewrite Forall_forall in *. intros y Hy.
  apply in_map_iff in Hy. destruct Hy as (z & <- & Hz). cbn [fst]. auto.
Qed.

Lemma scaled_off_sentinel (number : Qc) (l : list (peak Qc)) :
  off_sentinel l -> off_sentinel (scaled number l).
Proof.
  unfold off_sentinel, scaled. rewrite Forall_map. cbn [fst]. trivial.
Qed.

Lemma prune_threshold_pos : 0 < (prune_threshold : Qc).
Proof. reflexivity. Qed.

Lemma kept_pos (x : peak Qc) : kept x = true -> 0 < snd x.
Proof.
  unfold kept. rewrite ltb_lt. intros Hx.
  eapply Qclt_trans; [exact prune_threshold_pos | exact Hx].
Qed.

Lemma scaled_nonpositive_pruned (number : Qc) (l : list (peak Qc)) :
  number <= 0 -> Forall (fun x => kept x = true) l ->
  filter kept (scaled number l) = [].
Proof.
  intros Hneg. induction 1 as [| x l Hx _ IH]; [reflexivity |].
  cbn [scaled map filter]. fold (scaled number l).
  assert (kept (fst x, mul number (snd x)) = false) as ->; [| exact IH].
  unfold kept. cbn [snd]. apply ltb_ge.
  apply kept_pos in Hx.
  pose proof prune_threshold_pos as Hp.
  qc_to_q. nra.
Qed.

(** C4, as the code has it: on a canonical list with at least one peak
    and none at the sentinel position, [__mul__] returns the peaks with
    their weights multiplied, those whose product is not above 1e-12
    left out; a factor that is zero or negative leaves no peak at
    all. *)
Theorem mul_scales_and_prunes (self : Spectrum Qc) (number : Qc) :
  canonical (confs self) -> confs self <> [] -> off_sentinel (confs self) ->
  exists res,
    __mul__ self number = OK res
    /\ label res = label self
    /\ confs res = filter kept (scaled number (confs self))
    /\ ((forall x, In x (confs self) -> prune_threshold < number * snd x) ->
        confs res = scaled number (confs self))
    /\ (number <= 0 -> confs res = []).
Proof.
  intros [Hs Hk] Hne Hoff. unfold __mul__.
  fold (scaled number (confs self)).
  rewrite set_confs_strictly_sorted;
    [| apply scaled_strictly_sorted; exact Hs
     | intros E; apply map_eq_nil in E; contradiction
     | apply scaled_off_sentinel; exact Hoff].
  cbn [bind]. eexists. split; [reflexivity |].
  cbn [label confs with_label with_confs]. repeat split.
  - intros Hall. apply forallb_filter_id. apply forallb_forall.
    intros y Hy. apply in_map_iff in Hy. destruct Hy as (x & <- & Hx).
    unfold kept. cbn [snd]. apply ltb_lt. apply Hall. exact Hx.
  - intros Hneg. apply scaled_nonpositive_pruned; assumption.
Qed.

Lemma mul_scales_and_prunes_witness :
  let self : Spectrum Qc :=
    {| formula := ""; empty := false; label := "a"; charge := 1%Z;
       confs := [(lit (100 # 1), lit (1 # 2)); (lit (101 # 1), lit (1 # 2))] |} in
  exists res, __mul__ self (lit (-1 # 1)) = OK res /\ confs res = [].
Proof.
  intros self.
  destruct (@mul_scales_and_prunes self (lit (-1 # 1)))
    as (res & Hres & _ & _ & _ & Hneg).
  - split.
    + repeat constructor.
    + repeat constructor.
  - discriminate.
  - repeat constructor; qc_neq.
  - exists res. split; [exact Hres |]. apply Hneg. discriminate.
Defined.

(** Scaling the one peak (1, 1) by -1 leaves no peak, where the specification
    has the peak (1, -1). *)
Lemma mul_scales_and_prunes_counterexample :
  let self : Spectrum Qc :=
    {| formula := ""; empty := false; label := "a"; charge := 1%Z;
       confs := [(lit (1 # 1), lit (1 # 1))] |} in
  exists res,
    __mul__ self (lit (-1 # 1)) = OK res
    /\ confs res = []
    /\ confs res <> scaled (lit (-1 # 1)) (confs self).
Proof.
  intros self. eexists. split; [vm_compute; reflexivity |].
  split; [reflexivity | discriminate].
Qed.

(** The same in double precision. *)
Example mul_negative_binary64 :
  __mul__ {| formula := ""; empty := false; label := "a"; charge := 1%Z;
             confs := [(lit (1 # 1) : float, lit (1 # 1) : float)] |}
    (lit (-1 # 1))
  = OK {| formula := ""; empty := true; label := "a"; charge := 1%Z;
          confs := [] |}.
Proof. vm_compute. reflexivity. Qed.

(** *** The groups of a sorted list *)

Lemma weight_at_cons (m p : Qc) (l : list (peak Qc)) (x : Qc) :
  weight_at ((m, p) :: l) x = (if eqb m x then p else 0) + weight_at l x.
Proof.
  unfold weight_at. cbn [filter fst].
  destruct (eqb m x); cbn [map snd]; rewrite ?fsum_cons; ring.
Qed.

Lemma weight_at_app (l1 l2 : list (peak Qc)) (x : Qc) :
  weight_at (l1 ++ l2) x = weight_at l1 x + weight_at l2 x.
Proof.
  unfold weight_at. rewrite filter_app, map_app, fsum_app. reflexivity.
Qed.

Lemma weight_at_perm (l1 l2 : list (peak Qc)) (x : Qc) :
  Permutation l1 l2 -> weight_at l1 x = weight_at l2 x.
Proof.
  intros Hp. unfold weight_at. apply fsum_perm, Permutation_map.
  induction Hp as [| y l1 l2 _ IH | y z l | l1 l2 l3 _ IH1 _ IH2];
    cbn [filter].
  - reflexivity.
  - destruct (eqb (fst y) x); [apply perm_skip |]; exact IH.
  - destruct (eqb (fst y) x), (eqb (fst z) x);
      try reflexivity. apply perm_swap.
  - etransitivity; eassumption.
Qed.

Lemma weight_at_not_in (l : list (peak Qc)) (x : Qc) :
  ~ In x (map fst l) -> weight_at l x = 0.
Proof.
  induction l as [| [m p] l IH]; intros Hx; [reflexivity |].
  rewrite weight_at_cons. cbn [map fst In] in Hx.
  assert (eqb m x = false) as -> by (apply eqb_neq; tauto).
  rewrite IH by tauto. ring.
Qed.

Lemma group_from_positions (l : list (peak Qc)) :
  forall cmass cprob x,
    In x (map fst (group_from cmass cprob l))
    <-> x = cmass \/ In x (map fst l).
Proof.
  induction l as [| [m p] l IH]; intros cmass cprob x; cbn [group_from].
  - cbn. intuition.
  - destruct (eqb m cmass) eqn:E.
    + apply eqb_eq in E. subst m. rewrite IH. cbn [map fst In]. intuition.
    + cbn [map fst In]. rewrite IH. intuition.
Qed.

Lemma group_from_weight_at (l : list (peak Qc)) :
  forall cmass cprob x,
    weight_at (group_from cmass cprob l) x
    = weight_at ((cmass, cprob) :: l) x.
Proof.
  induction l as [| [m p] l IH]; intros cmass cprob x; cbn [group_from].
  - reflexivity.
  - destruct (eqb m cmass) eqn:E.
    + apply eqb_eq in E. subst m. rewrite IH, !weight_at_cons.
      destruct (eqb cmass x); ring.
    + rewrite weight_at_cons, IH, !weight_at_cons.
      destruct (eqb cmass x), (eqb m x); ring.
Qed.

Lemma sorted_by_position_head (m p p' : Qc) (l : list (peak Qc)) :
  sorted_by_position ((m, p) :: l) -> sorted_by_position ((m, p') :: l).
Proof. intros Hs. inversion Hs; subst. constructor; assumption. Qed.

Lemma group_from_sorted (l : list (peak Qc)) :
  forall cmass cprob,
    sorted_by_position ((cmass, cprob) :: l) ->
    strictly_sorted (group_from cmass cprob l).
Proof.
  induction l as [| [m p] l IH]; intros cmass cprob Hs; cbn [group_from].
  - repeat constructor.
  - inversion Hs as [| ? ? Hs' Hx]; subst.
    destruct (eqb m cmass) eqn:E.
    + apply eqb_eq in E. subst m. apply IH.
      eapply sorted_by_position_head. exact Hs'.
    + apply eqb_neq in E.
      constructor; [apply IH; eapply sorted_by_position_head; exact Hs' |].
      rewrite Forall_forall in *. intros y Hy. cbn [fst].
      assert (In (fst y) (map fst (group_from m (0 + p) l))) as Hin
        by (apply in_map; exact Hy).
      apply group_from_positions in Hin.
      assert (cmass <= m) as Hle by (apply (Hx (m, p)); left; reflexivity).
      assert (cmass < m) as Hlt.
      { destruct (Qc_eq_dec cmass m) as [-> | Hne]; [congruence |].
        apply Qcle_lt_or_eq in Hle. tauto. }
      destruct Hin as [-> | Hin]; [exact Hlt |].
      apply in_map_iff in Hin. destruct Hin as (z & <- & Hz).
      eapply Qclt_le_trans; [exact Hlt |].
      inversion Hs' as [| ? ? _ Hm]; subst.
      rewrite Forall_forall in Hm. apply (Hm z Hz).
Qed.

Lemma group_from_kept (l : list (peak Qc)) :
  forall cmass cprob,
    prune_threshold < cprob ->
    Forall (fun x => kept x = true) l ->
    Forall (fun x => kept x = true) (group_from cmass cprob l).
Proof.
  induction l as [| [m p] l IH]; intros cmass cprob Hc Hl; cbn [group_from].
  - repeat constructor. apply ltb_lt. exact Hc.
  - inversion Hl as [| ? ? Hp Hl']; subst.
    pose proof (kept_pos _ Hp) as Hpos. cbn [snd] in Hpos.
    unfold kept in Hp. cbn [snd] in Hp. apply ltb_lt in Hp.
    destruct (eqb m cmass).
    + apply IH; [| exact Hl']. qc_lra.
    + constructor; [apply ltb_lt; exact Hc |].
      apply IH; [| exact Hl']. qc_lra.
Qed.

Lemma groups_positions (l : list (peak Qc)) (x : Qc) :
  In x (map fst (groups l)) <-> In x (map fst l).
Proof.
  destruct l as [| [m p] l]; [reflexivity |]. cbn [groups].
  rewrite group_from_positions. cbn [map fst In]. intuition.
Qed.

Lemma groups_weight_at (l : list (peak Qc)) (x : Qc) :
  weight_at (groups l) x = weight_at l x.
Proof.
  destruct l as [| [m p] l]; [reflexivity |]. cbn [groups].
  rewrite group_from_weight_at, !weight_at_cons.
  destruct (eqb m x); ring.
Qed.

Lemma groups_sorted (l : list (peak Qc)) :
  sorted_by_position l -> strictly_sorted (groups l).
Proof.
  destruct l as [| [m p] l]; [constructor |]. intros Hs. cbn [groups].
  apply group_from_sorted. inversion Hs; subst. constructor; assumption.
Qed.

Lemma groups_kept (l : list (peak Qc)) :
  Forall (fun x => kept x = true) l ->
  Forall (fun x => kept x = true) (groups l).
Proof.
  destruct l as [| [m p] l]; [constructor |]. intros Hl. cbn [groups].
  inversion Hl as [| ? ? Hp Hl']; subst.
  apply group_from_kept; [| exact Hl'].
  unfold kept in Hp. cbn [snd] in Hp. apply ltb_lt in Hp. qc_lra.
Qed.

Lemma filter_kept_id (l : list (peak Qc)) :
  Forall (fun x => kept x = true) l -> filter kept l = l.
Proof.
  intros Hl. apply forallb_filter_id, forallb_forall.
  rewrite Forall_forall in Hl. exact Hl.
Qed.


(** Two strictly sorted lists with the same positions and the same
    weight at every position are the same list. *)
Lemma strictly_sorted_unique (l1 : list (peak Qc)) :
  forall l2,
    strictly_sorted l1 -> strictly_sorted l2 ->
    (forall x, In x (map fst l1) <-> In x (map fst l2)) ->
    (forall x, weight_at l1 x = weight_at l2 x) ->
    l1 = l2.
Proof.
  induction l1 as [| [m1 p1] l1 IH]; intros l2 Hs1 Hs2 Hpos Hw.
  - destruct l2 as [| [m2 p2] l2]; [reflexivity |].
    exfalso. apply (Hpos m2). left. reflexivity.
  - destruct l2 as [| [m2 p2] l2].
    { exfalso. apply (Hpos m1). left. reflexivity. }
    inversion Hs1 as [| ? ? Hs1' Hm1]; inversion Hs2 as [| ? ? Hs2' Hm2]; subst.
    rewrite Forall_forall in Hm1, Hm2. cbn [map fst In] in Hpos.
    assert (forall x, In x (map fst l1) -> m1 < x) as Hgt1.
    { intros x Hx. apply in_map_iff in Hx. destruct Hx as (z & <- & Hz).
      apply (Hm1 z Hz). }
    assert (forall x, In x (map fst l2) -> m2 < x) as Hgt2.
    { intros x Hx. apply in_map_iff in Hx. destruct Hx as (z & <- & Hz).
      apply (Hm2 z Hz). }
    assert (m1 = m2) as ->.
    { destruct (proj1 (Hpos m1) (or_introl eq_refl)) as [E | H1]; [congruence |].
      destruct (proj2 (Hpos m2) (or_introl eq_refl)) as [E | H2]; [congruence |].
      apply Hgt2 in H1. apply Hgt1 in H2. cbn [fst] in *.
      exfalso. qc_lra. }
    assert (forall x, In x (map fst l1) -> x <> m2) as Hne1.
    { intros x Hx ->. apply Hgt1 in Hx. exact (Qclt_not_eq _ _ Hx eq_refl). }
    assert (forall x, In x (map fst l2) -> x <> m2) as Hne2.
    { intros x Hx ->. apply Hgt2 in Hx. exact (Qclt_not_eq _ _ Hx eq_refl). }
    assert (p1 = p2) as ->.
    { pose proof (Hw m2) as E. rewrite !weight_at_cons in E.
      assert (eqb m2 m2 = true) as Et by (apply eqb_eq; reflexivity).
      rewrite Et in E.
      rewrite (@weight_at_not_in l1), (@weight_at_not_in l2) in E
        by (intros Hin; first [exact (Hne1 _ Hin eq_refl) | exact (Hne2 _ Hin eq_refl)]).
      qc_lra. }
    f_equal. apply IH; try assumption.
    + intros x. split; intros Hx.
      * destruct (proj1 (Hpos x) (or_intror Hx)) as [E | H2]; [| exact H2].
        cbn [fst] in E. exfalso. apply (Hne1 x Hx). congruence.
      * destruct (proj2 (Hpos x) (or_intror Hx)) as [E | H1]; [| exact H1].
        cbn [fst] in E. exfalso. apply (Hne2 x Hx). congruence.
    + intros x. pose proof (Hw x) as E. rewrite !weight_at_cons in E.
      destruct (eqb m2 x); qc_lra.
Qed.

End Canonical.

Section FilteringTheorem.

Open Scope Qc_scope.









(** The example in double precision. *)
Example filter_against_theoretical_binary64 :
  filter_against_theoretical
    {| formula := ""; empty := false; label := "e"; charge := 1%Z;
       confs := [(lit (10 # 1) : float, lit (1 # 4) : float);
                 (lit (20 # 1), lit (1 # 4)); (lit (50 # 1), lit (1 # 2))] |}
    (One {| formula := ""; empty := false; label := "t"; charge := 1%Z;
            confs := [(lit (101 # 10), lit (1 # 2));
                      (lit (499 # 10), lit (1 # 2))] |})
    (lit (2 # 10))
  = OK {| formula := ""; empty := true; label := "e"; charge := 1%Z;
          confs := [(lit (10 # 1), lit (1 # 4)); (lit (50 # 1), lit (1 # 2))] |}.
Proof. vm_compute. reflexivity. Qed.

End FilteringTheorem.

(** ** Weighted k-way merge *)

Section KWayMerge.

Open Scope Qc_scope.

Lemma item_ltb_position (b a : item Qc) :
  item_ltb b a = true -> item_position b <= item_position a.
Proof.
  destruct b as [[[m1 p1] i1] j1], a as [[[m2 p2] i2] j2].
  unfold item_ltb, peak_eqb, peak_ltb, item_position. cbn [fst snd].
  destruct (eqb m1 m2) eqn:E; cbn [andb negb].
  - apply eqb_eq in E. subst. intros _. apply Qcle_refl.
  - intros Hlt. apply ltb_lt in Hlt. apply Qclt_le_weak. exact Hlt.
Qed.

Lemma item_ltb_false_position (b a : item Qc) :
  item_ltb b a = false -> item_position a <= item_position b.
Proof.
  destruct b as [[[m1 p1] i1] j1], a as [[[m2 p2] i2] j2].
  unfold item_ltb, peak_eqb, peak_ltb, item_position. cbn [fst snd].
  destruct (eqb m1 m2) eqn:E; cbn [andb negb].
  - apply eqb_eq in E. subst. intros _. apply Qcle_refl.
  - intros Hlt. apply ltb_ge in Hlt. exact Hlt.
Qed.

Lemma heappush_perm (Q : list (item Qc)) (a : item Qc) :
  Permutation (a :: Q) (heappush Q a).
Proof.
  induction Q as [| b Q IH]; cbn [heappush]; [reflexivity |].
  destruct (item_ltb b a); [| reflexivity].
  rewrite perm_swap. apply perm_skip. exact IH.
Qed.

Lemma heappush_sorted (Q : list (item Qc)) (a : item Qc) :
  queue_sorted Q -> queue_sorted (heappush Q a).
Proof.
  induction 1 as [| b Q Hs IH Hb]; cbn [heappush].
  - repeat constructor.
  - destruct (item_ltb b a) eqn:E.
    + constructor; [exact IH |].
      rewrite Forall_forall in *. intros c Hc.
      apply (Permutation_in _ (Permutation_sym (heappush_perm Q a))) in Hc.
      destruct Hc as [<- | Hc]; [apply item_ltb_position; exact E | auto].
    + apply item_ltb_false_position in E.
      constructor; [constructor; assumption |].
      constructor; [exact E |].
      rewrite Forall_forall in *. intros c Hc.
      eapply Qcle_trans; [exact E | auto].
Qed.

Lemma heapify_perm_sorted (Q : list (item Qc)) :
  Permutation Q (heapify Q) /\ queue_sorted (heapify Q).
Proof.
  unfold heapify.
  assert (forall acc, queue_sorted acc ->
            Permutation (acc ++ Q) (fold_left heappush Q acc)
            /\ queue_sorted (fold_left heappush Q acc)) as Hgen.
  { induction Q as [| a Q IH]; intros acc Hacc; cbn [fold_left].
    - rewrite app_nil_r. split; [reflexivity | exact Hacc].
    - destruct (IH (heappush acc a) (heappush_sorted a Hacc)) as [Hp Hs].
      split; [| exact Hs].
      rewrite <- Hp, <- heappush_perm. symmetry. apply Permutation_middle. }
  apply (Hgen []). constructor.
Qed.

Variable spectra : list (Spectrum Qc).
Variable weights : list Qc.

Lemma remaining_perm (Q1 Q2 : list (item Qc)) :
  Permutation Q1 Q2 ->
  Permutation (remaining spectra weights Q1) (remaining spectra weights Q2).
Proof.
  unfold remaining. induction 1 as [| a Q1 Q2 _ IH | a b Q | Q1 Q2 Q3 _ IH1 _ IH2];
    cbn [flat_map].
  - reflexivity.
  - apply Permutation_app_head. exact IH.
  - rewrite !app_assoc. apply Permutation_app_tail, Permutation_app_comm.
  - etransitivity; eassumption.
Qed.

Hypothesis spectra_sorted :
  Forall (fun s => strictly_sorted (confs s)) spectra.

Lemma strictly_sorted_skipn (l : list (peak Qc)) :
  strictly_sorted l ->
  forall j c x, nth_error l j = Some c -> In x (skipn (S j) l) -> fst c < fst x.
Proof.
  induction 1 as [| y l Hs IH Hy]; intros j c x Hc Hx.
  - destruct j; discriminate.
  - destruct j as [| j]; cbn [nth_error skipn] in *.
    + injection Hc as <-. rewrite Forall_forall in Hy. apply Hy. exact Hx.
    + eapply IH; eassumption.
Qed.

(** No peak that an item stands for lies before the peak of the
    item. *)
Lemma item_rest_ge (a : item Qc) (x : peak Qc) :
  item_ok spectra weights a -> In x (item_rest spectra weights a) ->
  item_position a <= fst x.
Proof.
  destruct a as [[c i] j]. unfold item_ok, item_rest, item_position.
  cbn [fst snd]. intros (s & w & Hs & Hw & Hc) Hx.
  rewrite Hs, Hw in Hx. rewrite (skipn_nth_error _ _ Hc) in Hx.
  cbn [scaled map] in Hx. destruct Hx as [<- | Hx]; [apply Qcle_refl |].
  fold (scaled w (skipn (S j) (confs s))) in Hx.
  apply in_map_iff in Hx. destruct Hx as (y & <- & Hy). cbn [fst].
  apply Qclt_le_weak.
  pose proof spectra_sorted as Hss. rewrite Forall_forall in Hss.
  eapply strictly_sorted_skipn; [| exact Hc | exact Hy].
  apply Hss. eapply nth_error_In. exact Hs.
Qed.

Lemma item_rest_eq (c : peak Qc) (i j : nat) (s : Spectrum Qc) (w : Qc) :
  nth_error spectra i = Some s -> nth_error weights i = Some w ->
  item_rest spectra weights (c, i, j) = scaled w (skipn j (confs s)).
Proof. unfold item_rest. cbn [fst snd]. intros -> ->. reflexivity. Qed.

Lemma remaining_ge (Q : list (item Qc)) (m : Qc) :
  Forall (item_ok spectra weights) Q ->
  Forall (fun b => m <= item_position b) Q ->
  Forall (fun y => m <= fst y) (remaining spectra weights Q).
Proof.
  intros Hok Hm. rewrite Forall_forall in Hok, Hm |- *. intros y Hy.
  apply in_flat_map in Hy. destruct Hy as (b & Hb & Hy).
  eapply Qcle_trans; [apply (Hm b Hb) | apply item_rest_ge; auto].
Qed.

Lemma scaled_cons_comm (w : Qc) (c : peak Qc) (l : list (peak Qc)) :
  scaled w (c :: l) = (fst c, mul (snd c) w) :: scaled w l.
Proof.
  cbn [scaled map]. do 2 f_equal. cbn [mul exact]. ring.
Qed.

(** The loop appends to [ret_confs] the scaled peaks that the queue
    stands for, in the order of their positions. *)
Lemma product_while_spec (Q : list (item Qc)) (ret_confs : list (peak Qc)) :
  Forall (item_ok spectra weights) Q -> queue_sorted Q ->
  exists out,
    product_while spectra weights Q ret_confs = OK (ret_confs ++ out)
    /\ Permutation out (remaining spectra weights Q)
    /\ sorted_by_position out.
Proof.
  funelim (product_while spectra weights Q ret_confs);
    intros Hok Hsorted; try clear Heqcall; forget_inspect.
  - exists []. rewrite app_nil_r. repeat split; constructor.
  - exfalso. inversion Hok as [| ? ? (s & w & _ & Hw & _) _]; subst.
    cbn [fst snd] in Hw. apply getitem_Raise_None in Heq. congruence.
  - exfalso. inversion Hok as [| ? ? (s & w' & Hs & _ & _) _]; subst.
    cbn [fst snd] in Hs. apply getitem_Raise_None in e1. congruence.
  - inversion Hok as [| ? ? (s' & w' & Hs & Hw & Hc) Hok']; subst.
    inversion Hsorted as [| ? ? Hsorted' Hhead]; subst.
    cbn [fst snd] in Hs, Hw, Hc.
    apply getitem_OK in Heq, e, e0.
    assert (s' = s) as -> by congruence. assert (w' = w) as -> by congruence.
    rewrite Nat.add_1_r in *.
    set (a' := (c, spectre_no, S conf_idx)) in *.
    assert (item_ok spectra weights a') as Hok_a' by (exists s, w; auto).
    pose proof (heappush_perm Q' a') as Hperm.
    destruct H as (out' & Hrun & Hout & Hs_out).
    + eapply Permutation_Forall; [exact Hperm |]. constructor; assumption.
    + apply heappush_sorted. exact Hsorted'.
    + exists ((fst conf, mul (snd conf) w) :: out'). split; [| split].
      * rewrite Hrun, <- app_assoc. reflexivity.
      * rewrite Hout, <- (remaining_perm Hperm).
        unfold remaining, a'. cbn [flat_map].
        rewrite (@item_rest_eq c spectre_no (S conf_idx) s w Hs Hw),
          (@item_rest_eq conf spectre_no conf_idx s w Hs Hw),
          (skipn_nth_error _ _ Hc), scaled_cons_comm.
        reflexivity.
      * constructor; [exact Hs_out |]. cbn [fst].
        eapply Permutation_Forall; [symmetry; exact Hout |].
        apply remaining_ge.
        -- eapply Permutation_Forall; [exact Hperm |]. constructor; assumption.
        -- eapply Permutation_Forall; [exact Hperm |]. constructor.
           ++ unfold item_position. cbn [fst]. apply Qclt_le_weak.
              pose proof spectra_sorted as Hss. rewrite Forall_forall in Hss.
              eapply strictly_sorted_skipn;
                [apply Hss; eapply nth_error_In; exact Hs
                | exact Hc |].
              rewrite (skipn_nth_error _ _ e0). left. reflexivity.
           ++ exact Hhead.
  - inversion Hok as [| ? ? (s' & w' & Hs & Hw & Hc) Hok']; subst.
    inversion Hsorted as [| ? ? Hsorted' Hhead]; subst.
    cbn [fst snd] in Hs, Hw, Hc.
    apply getitem_OK in Heq, e. apply getitem_Raise_None in e0.
    assert (s' = s) as -> by congruence. assert (w' = w) as -> by congruence.
    rewrite Nat.add_1_r in *.
    destruct (H Hok' Hsorted') as (out' & Hrun & Hout & Hs_out).
    exists ((fst conf, mul (snd conf) w) :: out'). split; [| split].
    + rewrite Hrun, <- app_assoc. reflexivity.
    + rewrite Hout. unfold remaining. cbn [flat_map].
      rewrite (@item_rest_eq conf spectre_no conf_idx s w Hs Hw),
        (skipn_nth_error _ _ Hc), (skipn_nth_error_None _ _ e0),
        scaled_cons_comm.
      reflexivity.
    + constructor; [exact Hs_out |]. cbn [fst].
      eapply Permutation_Forall; [symmetry; exact Hout |].
      apply remaining_ge; assumption.
Qed.

Lemma skipn_cons_inv {A : Type} (l : list A) :
  forall n a l', skipn n l = a :: l' ->
                 nth_error l n = Some a /\ skipn (S n) l = l'.
Proof.
  induction l as [| b l IH]; intros [| n] a l' E; cbn [skipn nth_error] in *;
    try discriminate.
  - injection E as -> ->. split; reflexivity.
  - apply IH. exact E.
Qed.

Lemma initial_queue_spec (rest : list (Spectrum Qc)) :
  forall pre ws,
    spectra = pre ++ rest ->
    skipn (List.length pre) weights = ws ->
    List.length ws = List.length rest ->
    Forall (fun s => confs s <> []) rest ->
    exists Q,
      initial_queue rest (List.length pre) = OK Q
      /\ Forall (item_ok spectra weights) Q
      /\ remaining spectra weights Q = scaled_all (combine rest ws).
Proof.
  induction rest as [| s rest IH]; intros pre ws Hsp Hws Hlen Hne.
  - exists []. repeat split. constructor.
  - destruct ws as [| w ws]; [discriminate |].
    apply Forall_cons_iff in Hne. destruct Hne as [Hs Hne'].
    destruct (confs s) as [| c cs] eqn:Ec; [congruence |].
    apply skipn_cons_inv in Hws. destruct Hws as [Hw Hws].
    destruct (IH (pre ++ [s]) ws) as (Q & HQ & Hok & Hrem).
    + rewrite <- app_assoc. exact Hsp.
    + rewrite length_app, Nat.add_1_r. exact Hws.
    + cbn in Hlen. lia.
    + exact Hne'.
    + rewrite length_app, Nat.add_1_r in HQ.
      assert (nth_error spectra (List.length pre) = Some s) as Hnth.
      { rewrite Hsp, nth_error_app2, Nat.sub_diag by lia. reflexivity. }
      exists ((c, List.length pre, 0%nat) :: Q). split; [| split].
      * cbn [initial_queue]. rewrite Ec. cbn [getitem nth_error bind].
        rewrite HQ. reflexivity.
      * constructor; [| exact Hok].
        exists s, w. cbn [fst snd]. rewrite Ec. auto.
      * unfold remaining in *. cbn [flat_map combine scaled_all].
        rewrite Hrem, (@item_rest_eq c (List.length pre) 0%nat s w Hnth Hw).
        reflexivity.
Qed.

Lemma off_sentinel_positions (l : list (peak Qc)) :
  off_sentinel l <-> ~ In (lit (-1 # 1)) (map fst l).
Proof.
  unfold off_sentinel. rewrite Forall_forall, in_map_iff. split.
  - intros Hall (x & Hx & Hin). exact (Hall x Hin Hx).
  - intros Hn x Hin Hx. apply Hn. exists x. auto.
Qed.

Lemma scaled_positions (w : Qc) (l : list (peak Qc)) :
  map fst (scaled w l) = map fst l.
Proof. unfold scaled. rewrite map_map. reflexivity. Qed.

(** The sorted and merged form of a list of peaks that all pass the
    pruning rule. *)
Lemma groups_represents (l : list (peak Qc)) :
  Forall (fun x => kept x = true) l ->
  represents (groups (sort_confs l)) l.
Proof.
  intros Hk.
  pose proof (list_sort_perm fst false l) as Hperm. fold (sort_confs l) in Hperm.
  split; [split |]; [| | split].
  - apply groups_sorted. apply (list_sort_sorted fst false l).
  - apply groups_kept. eapply Permutation_Forall; eassumption.
  - intros x. rewrite groups_positions.
    split; apply Permutation_in, Permutation_map; [symmetry |]; exact Hperm.
  - intros x. rewrite groups_weight_at. symmetry.
    apply weight_at_perm. exact Hperm.
Qed.

Lemma scaled_all_positions (pairs : list (Spectrum Qc * Qc)) (x : Qc) :
  In x (map fst (scaled_all pairs))
  <-> exists sw, In sw pairs /\ In x (map fst (confs (fst sw))).
Proof.
  unfold scaled_all. rewrite in_map_iff. split.
  - intros (p & <- & Hp). apply in_flat_map in Hp.
    destruct Hp as (sw & Hsw & Hp). exists sw. split; [exact Hsw |].
    rewrite <- (scaled_positions (snd sw)). apply in_map. exact Hp.
  - intros (sw & Hsw & Hx). rewrite <- (scaled_positions (snd sw)) in Hx.
    apply in_map_iff in Hx. destruct Hx as (p & <- & Hp).
    exists p. split; [reflexivity |]. apply in_flat_map. eauto.
Qed.

(** [ScalarProduct] merges and prunes the scaled peaks of all the
    spectra, taken in the order of their positions. *)
Lemma ScalarProduct_groups :
  spectra <> [] ->
  List.length weights = List.length spectra ->
  Forall (fun s => confs s <> []) spectra ->
  off_sentinel (scaled_all (combine spectra weights)) ->
  exists out,
    ScalarProduct spectra weights
    = OK (with_confs empty_Spectrum (filter kept (groups out)))
    /\ Permutation out (scaled_all (combine spectra weights))
    /\ sorted_by_position out.
Proof.
  intros Hsp Hlen Hne Hoff.
  set (L := scaled_all (combine spectra weights)) in *.
  destruct (@initial_queue_spec spectra [] weights eq_refl eq_refl Hlen Hne)
    as (Q0 & HQ0 & Hok & Hrem).
  cbn [List.length] in HQ0. fold L in Hrem.
  destruct (heapify_perm_sorted Q0) as [Hperm Hsorted].
  destruct (@product_while_spec (heapify Q0) [])
    as (out & Hrun & Hout & Hs_out).
  { eapply Permutation_Forall; eassumption. }
  { exact Hsorted. }
  cbn [app] in Hrun.
  assert (Permutation out L) as HoutL.
  { rewrite Hout, <- (remaining_perm Hperm). rewrite Hrem. reflexivity. }
  assert (out <> []) as Hout_ne.
  { intros ->. apply Permutation_nil in HoutL.
    destruct spectra as [| s ss]; [congruence |].
    destruct weights as [| w ws]; [discriminate |].
    inversion Hne as [| ? ? Hs _]; subst.
    unfold L, scaled_all in HoutL. cbn [combine flat_map fst snd] in HoutL.
    destruct (confs s); [congruence | discriminate]. }
  exists out. split; [| split; assumption].
  unfold ScalarProduct. rewrite HQ0. cbn [bind confs empty_Spectrum].
  rewrite Hrun. cbn [bind].
  rewrite merge_confs_groups;
    [| exact Hout_ne | eapply Permutation_Forall; [symmetry |]; eassumption].
  reflexivity.
Qed.

End KWayMerge.

Section PairwiseSum.

Open Scope Qc_scope.

Lemma map_fst_combine {A B : Type} (l : list A) :
  forall l' : list B,
    List.length l' = List.length l -> map fst (combine l l') = l.
Proof.
  induction l as [| a l IH]; intros [| b l'] Hlen; cbn in *;
    try reflexivity; try discriminate.
  f_equal. apply IH. lia.
Qed.

Lemma Forall_scaled_all (P : peak Qc -> Prop) (pairs : list (Spectrum Qc * Qc)) :
  Forall (fun sw => Forall P (scaled (snd sw) (confs (fst sw)))) pairs ->
  Forall P (scaled_all pairs).
Proof.
  induction 1 as [| sw pairs Hsw _ IH]; cbn [scaled_all flat_map].
  - constructor.
  - apply Forall_app. split; assumption.
Qed.

(** With the weights 6e-13, [__mul__] prunes the scaled peaks at
    position 1 one by one, where [ScalarProduct] keeps their sum. *)
Lemma ScalarProduct_pairwise_sum_counterexample :
  let s1 : Spectrum Qc :=
    {| formula := ""; empty := false; label := "a"; charge := 1%Z;
       confs := [(lit (1 # 1), lit (1 # 1)); (lit (2 # 1), lit (2 # 1))] |} in
  let s2 : Spectrum Qc :=
    {| formula := ""; empty := false; label := "b"; charge := 1%Z;
       confs := [(lit (1 # 1), lit (1 # 1))] |} in
  let w : Qc := lit (6 # 10000000000000) in
  canonical (confs s1) /\ canonical (confs s2) /\ 0 <= w
  /\ exists res1 res2,
       ScalarProduct [s1; s2] [w; w] = OK res1
       /\ pairwise_sum [s1; s2] [w; w] = OK res2
       /\ confs res1 <> confs res2.
Proof.
  intros s1 s2 w.
  split; [split; repeat constructor |].
  split; [split; repeat constructor |].
  split; [discriminate |].
  eexists. eexists.
  split; [vm_compute; reflexivity |].
  split; [vm_compute; reflexivity |].
  cbn [confs]. discriminate.
Qed.

(** The same in double precision. *)
Example ScalarProduct_pairwise_sum_binary64 :
  let s1 : Spectrum float :=
    {| formula := ""; empty := false; label := "a"; charge := 1%Z;
       confs := [(lit (1 # 1), lit (1 # 1)); (lit (2 # 1), lit (2 # 1))] |} in
  let s2 : Spectrum float :=
    {| formula := ""; empty := false; label := "b"; charge := 1%Z;
       confs := [(lit (1 # 1), lit (1 # 1))] |} in
  let w : float := lit (6 # 10000000000000) in
  exists res1 res2,
    ScalarProduct [s1; s2] [w; w] = OK res1
    /\ pairwise_sum [s1; s2] [w; w] = OK res2
    /\ List.length (confs res1) = 2%nat
    /\ List.length (confs res2) = 1%nat.
Proof.
  intros s1 s2 w. eexists. eexists.
  split; [vm_compute; reflexivity |].
  split; [vm_compute; reflexivity |].
  split; reflexivity.
Qed.

End PairwiseSum.

(** * Further properties *)

(** ** Canonical form *)

Section CanonicalForm.

Open Scope Qc_scope.

Lemma strictly_sorted_weight_at (g : list (peak Qc)) :
  strictly_sorted g ->
  forall x w, In (x, w) g -> weight_at g x = w.
Proof.
  induction 1 as [| [m p] g Hs IH Hm]; intros x w Hin; [contradiction |].
  rewrite weight_at_cons. rewrite Forall_forall in Hm.
  destruct Hin as [[= -> ->] | Hin].
  - assert (eqb x x = true) as -> by (apply eqb_eq; reflexivity).
    rewrite weight_at_not_in; [ring |].
    intros Hx. apply in_map_iff in Hx. destruct Hx as (z & Hz & Hin).
    specialize (Hm z Hin). cbn [fst] in Hm. rewrite Hz in Hm.
    exact (Qclt_not_eq _ _ Hm eq_refl).
  - specialize (Hm (x, w) Hin). cbn [fst] in Hm.
    assert (eqb m x = false) as ->
      by (apply eqb_neq; intros ->; exact (Qclt_not_eq _ _ Hm eq_refl)).
    rewrite (IH x w Hin). ring.
Qed.

Lemma strictly_sorted_filter (f : peak Qc -> bool) (g : list (peak Qc)) :
  strictly_sorted g -> strictly_sorted (filter f g).
Proof.
  induction 1 as [| y g Hs IH Hy]; cbn [filter]; [constructor |].
  destruct (f y); [| exact IH].
  constructor; [exact IH |].
  rewrite Forall_forall in *. intros z Hz. apply filter_In in Hz. apply Hy, Hz.
Qed.

(** What [set_confs] returns, for any list of peaks away from the
    sentinel position. *)
Lemma set_confs_groups (l : list (peak Qc)) :
  l <> [] -> off_sentinel l ->
  set_confs l = OK (filter kept (groups (sort_confs l))).
Proof.
  intros Hne Hoff.
  pose proof (list_sort_perm fst false l) as Hperm. fold (sort_confs l) in Hperm.
  unfold set_confs. apply merge_confs_groups.
  - intros E. rewrite E in Hperm. apply Permutation_sym, Permutation_nil in Hperm.
    contradiction.
  - eapply Permutation_Forall; eassumption.
Qed.

Lemma groups_sort_In (l : list (peak Qc)) (x w : Qc) :
  In (x, w) (groups (sort_confs l))
  <-> In x (map fst l) /\ w = weight_at l x.
Proof.
  pose proof (list_sort_perm fst false l) as Hperm. fold (sort_confs l) in Hperm.
  pose proof (groups_sorted (list_sort_sorted fst false l)) as Hs.
  fold (sort_confs l) in Hs.
  assert (forall y, weight_at (groups (sort_confs l)) y = weight_at l y) as Hw.
  { intros y. rewrite groups_weight_at. symmetry. apply weight_at_perm, Hperm. }
  assert (forall y, In y (map fst (groups (sort_confs l))) <-> In y (map fst l))
    as Hp.
  { intros y. rewrite groups_positions.
    split; apply Permutation_in, Permutation_map; [symmetry |]; exact Hperm. }
  split.
  - intros Hin. split.
    + apply Hp. apply (in_map fst) in Hin. exact Hin.
    + rewrite <- Hw. symmetry. apply strictly_sorted_weight_at; assumption.
  - intros [Hx ->]. apply Hp in Hx. apply in_map_iff in Hx.
    destruct Hx as ([x' w'] & Hx' & Hin). cbn [fst] in Hx'. subst x'.
    rewrite <- Hw, (strictly_sorted_weight_at Hs _ _ Hin). exact Hin.
Qed.

(** X1: [set_confs] canonicalizes: for a list of peaks with at least one
    peak and none at the sentinel position -1, it returns a canonical
    list that holds the peak [(x, w)] exactly when [x] is a position of
    the list, [w] is the sum of the weights there and [w] is above
    1e-12. *)
Theorem set_confs_canonicalizes (l : list (peak Qc)) :
  l <> [] -> off_sentinel l ->
  exists c,
    set_confs l = OK c
    /\ canonical c
    /\ forall x w,
         In (x, w) c
         <-> In x (map fst l) /\ w = weight_at l x /\ prune_threshold < w.
Proof.
  intros Hne Hoff. rewrite (set_confs_groups Hne Hoff).
  eexists. split; [reflexivity |]. split.
  - split.
    + apply strictly_sorted_filter, groups_sorted.
      apply (list_sort_sorted fst false l).
    + apply Forall_forall. intros y Hy. apply filter_In in Hy. apply Hy.
  - intros x w. rewrite filter_In, groups_sort_In.
    unfold kept. cbn [snd]. rewrite ltb_lt. tauto.
Qed.

Lemma set_confs_canonicalizes_witness :
  exists c,
    set_confs [(lit (2 # 1), lit (1 # 2)); (lit (1 # 1), lit (1 # 4));
               (lit (2 # 1), lit (1 # 4)) : peak Qc] = OK c
    /\ canonical c.
Proof.
  destruct (@set_confs_canonicalizes
              [(lit (2 # 1), lit (1 # 2)); (lit (1 # 1), lit (1 # 4));
               (lit (2 # 1), lit (1 # 4))])
    as (c & Hc & Hcan & _).
  - discriminate.
  - repeat constructor; qc_neq.
  - exists c. split; assumption.
Defined.

(** X2: on a canonical list with at least one peak and none at the
    sentinel position, [set_confs] changes nothing. *)
Theorem set_confs_canonical_fixed (l : list (peak Qc)) :
  canonical l -> l <> [] -> off_sentinel l -> set_confs l = OK l.
Proof.
  intros [Hs Hk] Hne Hoff.
  rewrite (set_confs_strictly_sorted Hs Hne Hoff).
  rewrite (filter_kept_id Hk). reflexivity.
Qed.

Lemma set_confs_canonical_fixed_witness :
  set_confs [(lit (1 # 1), lit (1 # 4)); (lit (2 # 1), lit (3 # 4)) : peak Qc]
  = OK [(lit (1 # 1), lit (1 # 4)); (lit (2 # 1), lit (3 # 4))].
Proof.
  apply set_confs_canonical_fixed.
  - split; repeat constructor.
  - discriminate.
  - repeat constructor; qc_neq.
Defined.

End CanonicalForm.

(** ** The sentinel of [merge_confs], and sums *)

Section SentinelAndSum.

Open Scope Qc_scope.

Lemma strictly_sorted_app_last (out : list (peak Qc)) (y : peak Qc) :
  strictly_sorted (out ++ [y]) -> forall z, In z out -> fst z < fst y.
Proof.
  intros Hs z Hz.
  apply (@StronglySorted_app_inv _ _ out [y] Hs z y Hz). left. reflexivity.
Qed.

(** X3: the sentinel [(-1, 0)] that ends the loop of [merge_confs] does
    not flush a last group that is itself at -1: for a list sorted by
    position whose last peak is at -1, the result is the canonical form
    of the other positions, and has no peak at -1 whatever the weight
    there. *)
Theorem merge_confs_trailing_sentinel (l : list (peak Qc)) :
  l <> [] -> sorted_by_position l ->
  last (map fst l) 0 = lit (-1 # 1) ->
  exists c,
    merge_confs l = OK c
    /\ ~ In (lit (-1 # 1)) (map fst c)
    /\ forall x w,
         In (x, w) c
         <-> x <> lit (-1 # 1) /\ In x (map fst l)
             /\ w = weight_at l x /\ prune_threshold < w.
Proof.
  intros Hne Hs Hlast.
  assert (forall x w, In (x, w) (groups l)
                      <-> In x (map fst l) /\ w = weight_at l x) as Hgroups.
  { intros x w. rewrite <- (sort_confs_sorted Hs) at 1. apply groups_sort_In. }
  pose proof (groups_sorted Hs) as Hsg.
  destruct l as [| [mass prob] l]; [congruence |].
  destruct (merge_step_fold ((mass, prob) :: l) mass zero [])
    as (out & cm & cp & Hf & Hg & Hl).
  assert (cm = lit (-1 # 1)) as ->.
  { rewrite Hl, <- Hlast. cbn [map fst]. rewrite !last_cons. reflexivity. }
  assert (groups ((mass, prob) :: l) = out ++ [(lit (-1 # 1), cp)]) as Hgr.
  { rewrite <- Hg. cbn [groups group_from].
    assert (eqb mass mass = true) as -> by (apply eqb_eq; reflexivity).
    reflexivity. }
  rewrite Hgr in Hsg, Hgroups.
  assert (forall x w, In (x, w) out <-> x <> lit (-1 # 1)
                                        /\ In (x, w) (out ++ [(lit (-1 # 1), cp)]))
    as Hout.
  { intros x w. rewrite in_app_iff. split.
    - intros Hin. split; [| left; exact Hin].
      pose proof (strictly_sorted_app_last _ _ Hsg _ Hin) as Hlt.
      cbn [fst] in Hlt. intros ->. exact (Qclt_not_eq _ _ Hlt eq_refl).
    - intros [Hx [Hin | [E | []]]]; [exact Hin |].
      exfalso. apply Hx. inversion E. reflexivity. }
  exists (filter kept out). split; [| split].
  - unfold merge_confs. cbn [getitem nth_error bind fst].
    rewrite fold_left_app, Hf. cbn [fold_left merge_step app].
    assert (eqb (lit (-1 # 1)) (lit (-1 # 1) : Qc) = true) as ->
      by (apply eqb_eq; reflexivity).
    reflexivity.
  - intros Hin. apply in_map_iff in Hin. destruct Hin as ([x w] & Hx & Hin).
    cbn [fst] in Hx. subst x. apply filter_In in Hin. destruct Hin as [Hin _].
    apply Hout in Hin. destruct Hin as [Hx _]. exact (Hx eq_refl).
  - intros x w. rewrite filter_In, Hout, Hgroups.
    unfold kept. cbn [snd]. rewrite ltb_lt. tauto.
Qed.

Lemma merge_confs_trailing_sentinel_witness :
  exists c,
    merge_confs [(lit (-2 # 1), lit (1 # 2)); (lit (-1 # 1), lit (1 # 2)) : peak Qc]
    = OK c
    /\ ~ In (lit (-1 # 1)) (map fst c).
Proof.
  destruct (@merge_confs_trailing_sentinel
              [(lit (-2 # 1), lit (1 # 2)); (lit (-1 # 1), lit (1 # 2))])
    as (c & Hc & Hn & _).
  - discriminate.
  - repeat constructor; discriminate.
  - apply Qc_is_canon. reflexivity.
  - exists c. split; assumption.
Defined.

Lemma group_from_total (l : list (peak Qc)) :
  forall cmass cprob,
    fsum (map snd (group_from cmass cprob l)) = cprob + fsum (map snd l).
Proof.
  induction l as [| [m p] l IH]; intros cmass cprob; cbn [group_from].
  - cbn. ring.
  - destruct (eqb m cmass); cbn [map snd]; rewrite ?fsum_cons, IH;
      cbn [map snd]; rewrite ?fsum_cons; ring.
Qed.

Lemma groups_total (l : list (peak Qc)) :
  fsum (map snd (groups l)) = fsum (map snd l).
Proof.
  destruct l as [| [m p] l]; [reflexivity |]. cbn [groups].
  rewrite group_from_total. cbn [map snd]. rewrite fsum_cons. ring.
Qed.

Lemma groups_sort_perm (l1 l2 : list (peak Qc)) :
  Permutation l1 l2 -> groups (sort_confs l1) = groups (sort_confs l2).
Proof.
  intros Hperm.
  apply strictly_sorted_unique.
  - apply groups_sorted, (list_sort_sorted fst false l1).
  - apply groups_sorted, (list_sort_sorted fst false l2).
  - intros x. rewrite !groups_positions.
    pose proof (list_sort_perm fst false l1) as H1.
    pose proof (list_sort_perm fst false l2) as H2.
    fold (sort_confs l1) in H1. fold (sort_confs l2) in H2.
    split; apply Permutation_in, Permutation_map.
    + rewrite <- H1, <- H2. exact Hperm.
    + rewrite <- H1, <- H2. symmetry. exact Hperm.
  - intros x. rewrite !groups_weight_at.
    apply weight_at_perm.
    pose proof (list_sort_perm fst false l1) as H1.
    pose proof (list_sort_perm fst false l2) as H2.
    fold (sort_confs l1) in H1. fold (sort_confs l2) in H2.
    rewrite <- H1, <- H2. exact Hperm.
Qed.

Lemma add_confs (a b : Spectrum Qc) :
  confs a ++ confs b <> [] ->
  off_sentinel (confs a) -> off_sentinel (confs b) ->
  __add__ a b
  = OK (with_label
          (with_confs empty_Spectrum
             (filter kept (groups (sort_confs (confs a ++ confs b)))))
          (label a ++ " + " ++ label b)%string).
Proof.
  intros Hne Ha Hb. unfold __add__. cbn [confs with_confs empty_Spectrum].
  pose proof (@set_confs_groups (confs a ++ confs b) Hne) as Hset.
  unfold set_confs in Hset. rewrite Hset; [reflexivity |].
  apply Forall_app. split; assumption.
Qed.

(** X4: the sum of two canonical spectra, not both without peaks, is
    canonical; its positions are those of the two spectra, its weight
    at each position is the sum of their weights there, and its total
    weight is the sum of their total weights. *)
Theorem add_sums_weights (a b : Spectrum Qc) :
  canonical (confs a) -> canonical (confs b) ->
  off_sentinel (confs a) -> off_sentinel (confs b) ->
  confs a ++ confs b <> [] ->
  exists res,
    __add__ a b = OK res
    /\ label res = (label a ++ " + " ++ label b)%string
    /\ canonical (confs res)
    /\ (forall x, In x (map fst (confs res))
                  <-> In x (map fst (confs a)) \/ In x (map fst (confs b)))
    /\ (forall x, weight_at (confs res) x
                  = weight_at (confs a) x + weight_at (confs b) x)
    /\ total_weight res = total_weight a + total_weight b.
Proof.
  intros [_ Hka] [_ Hkb] Hoa Hob Hne.
  rewrite (add_confs _ _ Hne Hoa Hob).
  assert (Forall (fun x => kept x = true) (confs a ++ confs b)) as Hk
    by (apply Forall_app; split; assumption).
  destruct (groups_represents Hk) as (Hc & Hp & Hw).
  pose proof (list_sort_perm fst false (confs a ++ confs b)) as Hperm.
  fold (sort_confs (confs a ++ confs b)) in Hperm.
  eexists. split; [reflexivity |].
  unfold total_weight. cbn [label confs with_label with_confs].
  rewrite (filter_kept_id (proj2 Hc)).
  split; [reflexivity |]. split; [exact Hc |]. split; [| split].
  - intros x. rewrite Hp, map_app, in_app_iff. reflexivity.
  - intros x. rewrite Hw, weight_at_app. reflexivity.
  - rewrite !sum_fsum, groups_total.
    rewrite <- (fsum_perm (Permutation_map snd Hperm)), map_app, fsum_app.
    reflexivity.
Qed.

Lemma add_sums_weights_witness :
  let a : Spectrum Qc :=
    {| formula := ""; empty := false; label := "a"; charge := 1%Z;
       confs := [(lit (100 # 1), lit (1 # 2)); (lit (101 # 1), lit (1 # 2))] |} in
  let b : Spectrum Qc :=
    {| formula := ""; empty := false; label := "b"; charge := 1%Z;
       confs := [(lit (100 # 1), lit (3 # 10)); (lit (102 # 1), lit (7 # 10))] |} in
  exists res,
    __add__ a b = OK res
    /\ total_weight res = total_weight a + total_weight b.
Proof.
  intros a b.
  destruct (@add_sums_weights a b) as (res & Hres & _ & _ & _ & _ & Ht).
  - split; repeat constructor.
  - split; repeat constructor.
  - repeat constructor; qc_neq.
  - repeat constructor; qc_neq.
  - discriminate.
  - exists res. split; assumption.
Defined.

(** X5: the peaks of the sum of two canonical spectra do not depend on
    the order of the two terms (the labels do).  At a position that
    both have, the one weight is added to the other in either order. *)
Theorem add_commutative (a b : Spectrum Qc) :
  canonical (confs a) -> canonical (confs b) ->
  confs a ++ confs b <> [] ->
  off_sentinel (confs a) -> off_sentinel (confs b) ->
  exists res1 res2,
    __add__ a b = OK res1
    /\ __add__ b a = OK res2
    /\ confs res1 = confs res2.
Proof.
  intros _ _ Hne Ha Hb.
  assert (confs b ++ confs a <> []) as Hne'.
  { destruct (confs a), (confs b); try discriminate. congruence. }
  rewrite (add_confs _ _ Hne Ha Hb), (add_confs _ _ Hne' Hb Ha).
  eexists. eexists. split; [reflexivity |]. split; [reflexivity |].
  cbn [confs with_label with_confs].
  rewrite (groups_sort_perm (Permutation_app_comm (confs a) (confs b))).
  reflexivity.
Qed.

Lemma add_commutative_witness :
  let a : Spectrum Qc :=
    {| formula := ""; empty := false; label := "a"; charge := 1%Z;
       confs := [(lit (100 # 1), lit (1 # 2)); (lit (101 # 1), lit (1 # 2))] |} in
  let b : Spectrum Qc :=
    {| formula := ""; empty := false; label := "b"; charge := 1%Z;
       confs := [(lit (100 # 1), lit (3 # 10))] |} in
  exists res1 res2,
    __add__ a b = OK res1 /\ __add__ b a = OK res2 /\ confs res1 = confs res2.
Proof.
  intros a b. apply (@add_commutative a b).
  - split; repeat constructor.
  - split; repeat constructor.
  - discriminate.
  - repeat constructor; qc_neq.
  - repeat constructor; qc_neq.
Defined.

(** On doubles the order of the terms shows as soon as one of them is
    not canonical: with two peaks at one position in the first, the
    three weights are added in another order. *)
Example add_commutative_binary64 :
  let d : Spectrum float :=
    {| formula := ""; empty := false; label := "d"; charge := 1%Z;
       confs := [(lit (1 # 1), lit (3 # 10)); (lit (1 # 1), lit (2 # 10))] |} in
  let e : Spectrum float :=
    {| formula := ""; empty := false; label := "e"; charge := 1%Z;
       confs := [(lit (1 # 1), lit (1 # 10))] |} in
  exists res1 res2 w1 w2,
    __add__ d e = OK res1 /\ __add__ e d = OK res2
    /\ confs res1 = [(lit (1 # 1), w1)]
    /\ confs res2 = [(lit (1 # 1), w2)]
    /\ ltb w1 w2 = true.
Proof.
  intros d e. eexists. eexists. eexists. eexists.
  split; [vm_compute; reflexivity |].
  split; [vm_compute; reflexivity |].
  split; [vm_compute; reflexivity |].
  split; [vm_compute; reflexivity |].
  vm_compute. reflexivity.
Qed.

End SentinelAndSum.

(** ** Associativity of the sum *)

Section SumAssociative.

Open Scope Qc_scope.

Lemma string_append_assoc (s1 s2 s3 : string) :
  ((s1 ++ s2) ++ s3 = s1 ++ (s2 ++ s3))%string.
Proof.
  induction s1 as [| c s1 IH]; cbn [String.append]; [reflexivity |].
  rewrite IH. reflexivity.
Qed.

(** The peaks of the sum of two canonical spectra. *)
Lemma add_canonical (a b : Spectrum Qc) :
  canonical (confs a) -> canonical (confs b) ->
  off_sentinel (confs a) -> off_sentinel (confs b) ->
  confs a ++ confs b <> [] ->
  exists c,
    __add__ a b
    = OK (with_label (with_confs empty_Spectrum c)
            (label a ++ " + " ++ label b)%string)
    /\ represents c (confs a ++ confs b)
    /\ off_sentinel c
    /\ (c = [] -> False).
Proof.
  intros [_ Hka] [_ Hkb] Hoa Hob Hne.
  rewrite (add_confs _ _ Hne Hoa Hob).
  assert (Forall (fun x => kept x = true) (confs a ++ confs b)) as Hk
    by (apply Forall_app; split; assumption).
  pose proof (groups_represents Hk) as Hrep.
  rewrite (filter_kept_id (proj2 (proj1 Hrep))).
  eexists. split; [reflexivity |]. split; [exact Hrep |]. split.
  - apply off_sentinel_positions. intros Hx.
    apply (proj1 (proj2 Hrep)) in Hx. revert Hx.
    apply off_sentinel_positions. apply Forall_app. split; assumption.
  - intros E. rewrite E in Hrep. destruct Hrep as (_ & Hp & _).
    destruct (confs a ++ confs b) as [| p l]; [congruence |].
    apply (Hp (fst p)). left. reflexivity.
Qed.

(** X6: the sum is associative on canonical spectra, up to the order
    of the additions: when neither [a + b] nor [b + c] is a sum of two
    spectra without peaks, [(a + b) + c] and [a + (b + c)] are spectra
    with the same label and the same positions, and the weight at a
    position is [(wa + wb) + wc] in the first and [wa + (wb + wc)] in
    the second, for the weights [wa], [wb] and [wc] that [a], [b] and
    [c] have there: the same number only where the addition is
    associative. *)
Theorem add_associative (a b c : Spectrum Qc) :
  canonical (confs a) -> canonical (confs b) -> canonical (confs c) ->
  off_sentinel (confs a) -> off_sentinel (confs b) -> off_sentinel (confs c) ->
  confs a ++ confs b <> [] -> confs b ++ confs c <> [] ->
  exists res1 res2,
    (ab <- __add__ a b ;; __add__ ab c) = OK res1
    /\ (bc <- __add__ b c ;; __add__ a bc) = OK res2
    /\ label res1 = label res2
    /\ map fst (confs res1) = map fst (confs res2)
    /\ forall x,
         weight_at (confs res1) x
         = (weight_at (confs a) x + weight_at (confs b) x)
           + weight_at (confs c) x
         /\ weight_at (confs res2) x
            = weight_at (confs a) x
              + (weight_at (confs b) x + weight_at (confs c) x).
Proof.
  intros Ha Hb Hc Hoa Hob Hoc Hab Hbc.
  destruct (@add_canonical a b Ha Hb Hoa Hob Hab) as (ab & -> & Rab & Oab & Nab).
  destruct (@add_canonical b c Hb Hc Hob Hoc Hbc) as (bc & -> & Rbc & Obc & Nbc).
  cbn [bind].
  set (sab := with_label (with_confs empty_Spectrum ab) _).
  set (sbc := with_label (with_confs empty_Spectrum bc) _).
  destruct (@add_canonical sab c) as (l & -> & Rl & _ & _);
    [exact (proj1 Rab) | exact Hc | exact Oab | exact Hoc | |].
  { cbn [sab confs with_label with_confs]. destruct ab; [tauto | discriminate]. }
  destruct (@add_canonical a sbc) as (r & -> & Rr & _ & _);
    [exact Ha | exact (proj1 Rbc) | exact Hoa | exact Obc | |].
  { cbn [sbc confs with_label with_confs].
    destruct bc; [tauto |]. destruct (confs a); discriminate. }
  cbn [sab sbc confs label with_label with_confs] in *.
  destruct Rl as ((Hsl & _) & Hpl & Hwl), Rr as ((Hsr & _) & Hpr & Hwr).
  destruct Rab as (_ & Hpab & Hwab), Rbc as (_ & Hpbc & Hwbc).
  assert (forall x, weight_at l x
                    = (weight_at (confs a) x + weight_at (confs b) x)
                      + weight_at (confs c) x) as Hl.
  { intros x. rewrite Hwl, !weight_at_app, Hwab, !weight_at_app. reflexivity. }
  assert (forall x, weight_at r x
                    = weight_at (confs a) x
                      + (weight_at (confs b) x + weight_at (confs c) x)) as Hr.
  { intros x. rewrite Hwr, !weight_at_app, Hwbc, !weight_at_app. reflexivity. }
  assert (l = r) as E.
  { apply strictly_sorted_unique; [exact Hsl | exact Hsr | |].
    - intros x. rewrite Hpl, Hpr, !map_app, !in_app_iff, Hpab, Hpbc,
        !map_app, !in_app_iff. tauto.
    - intros x. rewrite Hl, Hr. ring. }
  eexists. eexists. split; [reflexivity |]. split; [reflexivity |].
  cbn [label confs with_label with_confs].
  split; [rewrite !string_append_assoc; reflexivity |].
  split; [rewrite E; reflexivity |].
  intros x. split; [apply Hl | apply Hr].
Qed.

Lemma add_associative_witness :
  let s (n : string) (x : Q) : Spectrum Qc :=
    {| formula := ""; empty := false; label := n; charge := 1%Z;
       confs := [(lit x, lit (1 # 2)); (lit (101 # 1), lit (1 # 2))] |} in
  let a := s "a" (99 # 1)%Q in
  let b := s "b" (100 # 1)%Q in
  let c := s "c" (99 # 1)%Q in
  exists res1 res2,
    (ab <- __add__ a b ;; __add__ ab c) = OK res1
    /\ (bc <- __add__ b c ;; __add__ a bc) = OK res2
    /\ map fst (confs res1) = map fst (confs res2).
Proof.
  intros s a b c.
  destruct (@add_associative a b c)
    as (res1 & res2 & H1 & H2 & _ & Hp & _);
    try discriminate;
    try (split; repeat constructor);
    try (repeat constructor; qc_neq).
  exists res1, res2. repeat split; assumption.
Defined.

(** On doubles the two weights differ in the last bit for the weights
    0.1, 0.2 and 0.3 at one position. *)
Example add_associative_binary64 :
  let s (w : Q) : Spectrum float :=
    {| formula := ""; empty := false; label := ""; charge := 1%Z;
       confs := [(lit (1 # 1), lit w)] |} in
  let a := s (1 # 10)%Q in
  let b := s (2 # 10)%Q in
  let c := s (3 # 10)%Q in
  exists res1 res2 w1 w2,
    (ab <- __add__ a b ;; __add__ ab c) = OK res1
    /\ (bc <- __add__ b c ;; __add__ a bc) = OK res2
    /\ confs res1 = [(lit (1 # 1), w1)]
    /\ confs res2 = [(lit (1 # 1), w2)]
    /\ ltb w2 w1 = true.
Proof.
  intros s a b c. eexists. eexists. eexists. eexists.
  split; [vm_compute; reflexivity |].
  split; [vm_compute; reflexivity |].
  split; [vm_compute; reflexivity |].
  split; [vm_compute; reflexivity |].
  vm_compute. reflexivity.
Qed.

End SumAssociative.

(** ** The k-way merge and the repeated sum *)

Section KWayEquivalence.

Open Scope Qc_scope.

Lemma mul_filter_kept (self : Spectrum Qc) (number : Qc) :
  spectrum_ok self ->
  exists t,
    __mul__ self number = OK t
    /\ confs t = filter kept (scaled number (confs self)).
Proof.
  intros ([Hs Hk] & Hne & Hoff). unfold __mul__.
  fold (scaled number (confs self)).
  rewrite set_confs_strictly_sorted;
    [| apply scaled_strictly_sorted; exact Hs
     | intros E; apply map_eq_nil in E; contradiction
     | apply scaled_off_sentinel; exact Hoff].
  cbn [bind]. eexists. split; reflexivity.
Qed.

Lemma filter_kept_canonical (l : list (peak Qc)) :
  strictly_sorted l -> canonical (filter kept l).
Proof.
  intros Hs. split; [apply strictly_sorted_filter, Hs |].
  apply Forall_forall. intros p Hp. apply filter_In in Hp. apply Hp.
Qed.

Lemma filter_off_sentinel (f : peak Qc -> bool) (l : list (peak Qc)) :
  off_sentinel l -> off_sentinel (filter f l).
Proof.
  unfold off_sentinel. rewrite !Forall_forall. intros Hl p Hp.
  apply filter_In in Hp. apply Hl, Hp.
Qed.

Lemma above_weight_at (T : Qc) (K : list (peak Qc)) (x : Qc) :
  0 < T -> Forall (fun p => T < snd p) K ->
  0 <= weight_at K x /\ (In x (map fst K) -> T < weight_at K x).
Proof.
  intros HT. induction 1 as [| [m p] K Hp _ [IH1 IH2]].
  - split; [apply Qcle_refl | intros []].
  - rewrite weight_at_cons. cbn [snd] in Hp. cbn [map fst In].
    destruct (eqb m x) eqn:E.
    + split; [| intros _]; clear - HT Hp IH1; qc_lra.
    + apply eqb_neq in E. split; [clear - IH1; qc_lra |].
      intros [Hm | Hin]; [contradiction |].
      specialize (IH2 Hin). clear - IH2. qc_lra.
Qed.

(** The peaks of a list that pass the pruning rule weigh more than the
    threshold at each of their positions. *)
Lemma kept_weight_at (K : list (peak Qc)) (x : Qc) :
  Forall (fun p => kept p = true) K ->
  0 <= weight_at K x
  /\ (In x (map fst K) -> prune_threshold < weight_at K x).
Proof.
  intros HK. apply above_weight_at; [exact prune_threshold_pos |].
  eapply Forall_impl; [| exact HK].
  intros p Hp. unfold kept in Hp. apply ltb_lt in Hp. exact Hp.
Qed.

Lemma Forall_combine_fst {A B : Type} (P : A -> Prop) (l : list A) (l' : list B) :
  Forall P l -> Forall (fun ab => P (fst ab)) (combine l l').
Proof.
  intros Hl. apply Forall_forall. intros [a b] Hin.
  apply in_combine_l in Hin. rewrite Forall_forall in Hl. apply Hl, Hin.
Qed.

(** The repeated sum, from a spectrum with at least one peak: it stands
    for what it stood for and the scaled peaks that pass the pruning
    rule on their own. *)
Lemma pairwise_fold_kept (pairs : list (Spectrum Qc * Qc)) :
  forall (fitted : Spectrum Qc) (K : list (peak Qc)),
    represents (confs fitted) K -> off_sentinel (confs fitted) ->
    confs fitted <> [] ->
    Forall (fun sw => spectrum_ok (fst sw)) pairs ->
    exists res,
      fold_left
        (fun fitted sw =>
           fitted <- fitted ;;
           t <- __mul__ (fst sw) (snd sw) ;;
           __add__ fitted t)
        pairs (OK fitted) = OK res
      /\ represents (confs res) (K ++ filter kept (scaled_all pairs)).
Proof.
  induction pairs as [| [s w] pairs IH]; intros fitted K Hrep Hoff Hne Hall.
  - exists fitted. cbn [fold_left scaled_all flat_map filter].
    rewrite app_nil_r. auto.
  - inversion Hall as [| ? ? Hs Hall']; subst. cbn [fst] in Hs.
    destruct (mul_filter_kept w Hs) as (t & Ht & Hct).
    destruct Hs as ([Hss _] & _ & Hoffs).
    destruct (@add_canonical fitted t) as (c & Hc & Rc & Oc & Nc).
    + exact (proj1 Hrep).
    + rewrite Hct. apply filter_kept_canonical, scaled_strictly_sorted, Hss.
    + exact Hoff.
    + rewrite Hct. apply filter_off_sentinel, scaled_off_sentinel, Hoffs.
    + destruct (confs fitted); [congruence | discriminate].
    + set (fitted' := with_label (with_confs empty_Spectrum c) _) in Hc.
      destruct (IH fitted' (K ++ confs t)) as (res & Hres & Hfinal).
      * destruct Hrep as (_ & Hp & Hw), Rc as (Hcc & Hpc & Hwc).
        split; [exact Hcc |]. split.
        -- intros x. cbn [fitted' confs with_label with_confs].
           rewrite Hpc, !map_app, !in_app_iff, Hp. reflexivity.
        -- intros x. cbn [fitted' confs with_label with_confs].
           rewrite Hwc, !weight_at_app, Hw. reflexivity.
      * exact Oc.
      * intros E. exact (Nc E).
      * exact Hall'.
      * exists res. cbn [fold_left bind fst snd]. rewrite Ht. cbn [bind].
        rewrite Hc. split; [exact Hres |].
        cbn [scaled_all flat_map fst snd]. fold (scaled_all pairs).
        rewrite filter_app, app_assoc, <- Hct. exact Hfinal.
Qed.

Lemma weight_at_filter_kept (L : list (peak Qc)) (x : Qc) :
  Forall (fun p => kept p = true \/ snd p = 0) L ->
  weight_at (filter kept L) x = weight_at L x.
Proof.
  induction 1 as [| [m p] L Hp _ IH]; [reflexivity |]. cbn [filter].
  destruct (kept (m, p)) eqn:E.
  - rewrite !weight_at_cons, IH. reflexivity.
  - rewrite weight_at_cons, IH. destruct Hp as [Hp | Hp]; [congruence |].
    cbn [snd] in Hp. subst p. destruct (eqb m x); ring.
Qed.

(** C5, as the code has it.  For canonical spectra, each with at least
    one peak and none at the sentinel position, and as many weights,
    such that the first spectrum keeps a peak when it is scaled and
    that, at every position, the scaled peaks that [__mul__] prunes on
    their own change nothing to the sum: [ScalarProduct] and the
    repeated [__add__] and [__mul__] both return a spectrum, with the
    same positions, and with, at each position, the sum of the
    products of the weights and the peak weights there.  The two add
    these products in different orders, so that the weights are the
    same numbers where the addition is associative.  The condition on
    the pruned peaks holds whenever each weight is zero or scales
    every peak of its spectrum above 1e-12. *)
Theorem ScalarProduct_pairwise_sum (spectra : list (Spectrum Qc))
    (weights : list Qc) :
  List.length weights = List.length spectra ->
  Forall spectrum_ok spectra ->
  first_kept (combine spectra weights) ->
  (Forall (fun p => agree_at (scaled_all (combine spectra weights)) (fst p))
     (scaled_all (combine spectra weights)) ->
   exists res1 res2,
     ScalarProduct spectra weights = OK res1
     /\ pairwise_sum spectra weights = OK res2
     /\ map fst (confs res1) = map fst (confs res2)
     /\ Forall (fun p => snd p
                         = weight_at (scaled_all (combine spectra weights)) (fst p))
          (confs res1)
     /\ Forall (fun p => snd p
                         = weight_at (scaled_all (combine spectra weights)) (fst p))
          (confs res2))
  /\ (Forall zero_or_kept (combine spectra weights) ->
      Forall (fun p => agree_at (scaled_all (combine spectra weights)) (fst p))
        (scaled_all (combine spectra weights))).
Proof.
  intros Hlen Hok Hfirst.
  set (L := scaled_all (combine spectra weights)).
  split.
  - intros Hagree.
    assert (forall x, agree_at L x) as HA.
    { intros x. destruct (in_dec Qc_eq_dec x (map fst L)) as [Hin | Hnin].
      - apply in_map_iff in Hin. destruct Hin as (p & <- & Hp).
        rewrite Forall_forall in Hagree. apply Hagree, Hp.
      - left. rewrite !weight_at_not_in; [reflexivity | | exact Hnin].
        intros Hin. apply Hnin. apply in_map_iff in Hin.
        destruct Hin as (p & <- & Hp). apply filter_In in Hp.
        apply in_map, Hp. }
    assert (spectra <> []) as Hne.
    { intros E. rewrite E in Hfirst. exact Hfirst. }
    (* the k-way merge *)
    destruct (@ScalarProduct_groups spectra weights) as (out & Hres1 & Hperm & Hsorted).
    { eapply Forall_impl; [| exact Hok]. intros s ([Hs _] & _). exact Hs. }
    { exact Hne. }
    { exact Hlen. }
    { eapply Forall_impl; [| exact Hok]. intros s (_ & Hn & _). exact Hn. }
    { apply Forall_scaled_all.
      eapply Forall_impl; [| exact (Forall_combine_fst weights Hok)].
      intros sw (_ & _ & Hoff). apply scaled_off_sentinel. exact Hoff. }
    fold L in Hperm.
    set (c1 := filter kept (groups out)) in *.
    assert (strictly_sorted c1) as Hs1
      by (apply strictly_sorted_filter, groups_sorted, Hsorted).
    assert (forall x w, In (x, w) c1
                        <-> In x (map fst L) /\ w = weight_at L x
                            /\ prune_threshold < w) as Hin1.
    { intros x w. unfold c1. rewrite filter_In.
      rewrite <- (sort_confs_sorted Hsorted) at 1. rewrite groups_sort_In.
      assert (kept (x, w) = true <-> prune_threshold < w) as ->
        by (unfold kept; cbn [snd]; apply ltb_lt).
      rewrite (weight_at_perm x Hperm).
      assert (In x (map fst out) <-> In x (map fst L)) as ->
        by (split; apply Permutation_in, Permutation_map;
            [| symmetry]; exact Hperm).
      tauto. }
    (* the repeated sum *)
    assert (exists res2,
              pairwise_sum spectra weights = OK res2
              /\ represents (confs res2) (filter kept L))
      as (res2 & Hres2 & (Hs2 & Hk2) & Hp2 & Hw2).
    { unfold pairwise_sum, L.
      pose proof (Forall_combine_fst weights Hok) as Hpairs.
      destruct (combine spectra weights) as [| [s w] pairs]; [contradiction |].
      inversion Hpairs as [| ? ? Hs Hpairs']; subst. cbn [fst] in Hs.
      cbn [first_kept] in Hfirst.
      destruct (mul_filter_kept w Hs) as (t & Ht & Hct).
      assert (confs t <> []) as Hnt.
      { rewrite Hct. apply Exists_exists in Hfirst.
        destruct Hfirst as (q & Hq & Hlt). intros E.
        assert (In (fst q, mul w (snd q)) (filter kept (scaled w (confs s))))
          as Hin.
        { apply filter_In. split.
          - unfold scaled. apply in_map_iff. exists q. auto.
          - unfold kept. cbn [snd]. apply ltb_lt. exact Hlt. }
        rewrite E in Hin. exact Hin. }
      destruct Hs as ([Hss _] & _ & Hoffs).
      destruct (@add_canonical empty_Spectrum t) as (c & Hc & Rc & Oc & Nc).
      - split; constructor.
      - rewrite Hct. apply filter_kept_canonical, scaled_strictly_sorted, Hss.
      - constructor.
      - rewrite Hct. apply filter_off_sentinel, scaled_off_sentinel, Hoffs.
      - cbn [confs empty_Spectrum app]. exact Hnt.
      - set (fitted := with_label (with_confs empty_Spectrum c) _) in Hc.
        destruct (@pairwise_fold_kept pairs fitted (confs t))
          as (res & Hres & Hfinal).
        + exact Rc.
        + exact Oc.
        + intros E. exact (Nc E).
        + exact Hpairs'.
        + exists res. cbn [fold_left bind fst snd]. rewrite Ht. cbn [bind].
          rewrite Hc. split; [exact Hres |].
          cbn [scaled_all flat_map fst snd]. fold (scaled_all pairs).
          rewrite filter_app, <- Hct. exact Hfinal. }
    (* the two lists are the same *)
    assert (forall x, In x (map fst c1) <-> In x (map fst (filter kept L)))
      as Hpos.
    { intros x. split.
      - intros Hx. apply in_map_iff in Hx. destruct Hx as ([y w] & <- & Hyw).
        cbn [fst]. apply Hin1 in Hyw. destruct Hyw as (_ & -> & Hlt).
        destruct (HA y) as [E | [Hle _]].
        + destruct (in_dec Qc_eq_dec y (map fst (filter kept L)))
            as [Hin | Hnin]; [exact Hin | exfalso].
          rewrite E, (@weight_at_not_in _ _ Hnin) in Hlt.
          exact (Qclt_not_le _ _ Hlt (Qclt_le_weak _ _ prune_threshold_pos)).
        + exfalso. exact (Qclt_not_le _ _ Hlt Hle).
      - intros Hx.
        assert (Forall (fun p => kept p = true) (filter kept L)) as HkL
          by (apply Forall_forall; intros p Hp; apply filter_In in Hp; apply Hp).
        destruct (kept_weight_at x HkL) as [_ Hlt]. specialize (Hlt Hx).
        destruct (HA x) as [E | [_ Hn]]; [| contradiction].
        rewrite <- E in Hlt.
        apply (in_map fst c1 (x, weight_at L x)). apply Hin1.
        split; [| split; [reflexivity | exact Hlt]].
        apply in_map_iff in Hx. destruct Hx as (q & <- & Hq).
        apply filter_In in Hq. apply in_map, Hq. }
    assert (c1 = confs res2) as E12.
    { apply strictly_sorted_unique; [exact Hs1 | exact Hs2 | |].
      - intros x. rewrite Hpos, Hp2. reflexivity.
      - intros x. rewrite Hw2.
        destruct (in_dec Qc_eq_dec x (map fst c1)) as [Hin | Hnin].
        + pose proof Hin as Hin'. apply in_map_iff in Hin'.
          destruct Hin' as ([y w] & Hy & Hyw). cbn [fst] in Hy. subst y.
          rewrite (strictly_sorted_weight_at Hs1 _ _ Hyw).
          apply Hin1 in Hyw. destruct Hyw as (_ & -> & _).
          destruct (HA x) as [E | [_ Hn]]; [exact E |].
          exfalso. apply Hn, Hpos, Hin.
        + rewrite (@weight_at_not_in _ _ Hnin), weight_at_not_in; [reflexivity |].
          intros Hin. apply Hnin, Hpos, Hin. }
    exists (with_confs empty_Spectrum c1), res2.
    split; [exact Hres1 |]. split; [exact Hres2 |].
    cbn [confs with_confs]. rewrite <- E12.
    split; [reflexivity |].
    assert (Forall (fun p => snd p = weight_at L (fst p)) c1) as Hw1.
    { apply Forall_forall. intros [x w] Hxw. cbn [fst snd].
      apply Hin1 in Hxw. apply Hxw. }
    split; exact Hw1.
  - intros Hzero. apply Forall_forall. intros p _. left. symmetry.
    apply weight_at_filter_kept. unfold L.
    apply Forall_scaled_all. eapply Forall_impl; [| exact Hzero].
    intros [s w] [Hw | Hall]; cbn [fst snd] in *.
    + subst w. unfold scaled. rewrite Forall_map. apply Forall_forall.
      intros q _. right. cbn [snd mul exact]. ring.
    + unfold scaled. rewrite Forall_map. eapply Forall_impl; [| exact Hall].
      intros q Hq. left. unfold kept. cbn [snd]. apply ltb_lt. exact Hq.
Qed.

Lemma ScalarProduct_pairwise_sum_witness :
  let s1 : Spectrum Qc :=
    {| formula := ""; empty := false; label := "a"; charge := 1%Z;
       confs := [(lit (100 # 1), lit (1 # 2)); (lit (101 # 1), lit (1 # 2))] |} in
  let s2 : Spectrum Qc :=
    {| formula := ""; empty := false; label := "b"; charge := 1%Z;
       confs := [(lit (100 # 1), lit (3 # 10)); (lit (102 # 1), lit (7 # 10))] |} in
  let s3 : Spectrum Qc :=
    {| formula := ""; empty := false; label := "c"; charge := 1%Z;
       confs := [(lit (99 # 1), lit (1 # 1))] |} in
  exists res1 res2,
    ScalarProduct [s1; s2; s3] [lit (1 # 4); lit (0 # 1); lit (3 # 4)] = OK res1
    /\ pairwise_sum [s1; s2; s3] [lit (1 # 4); lit (0 # 1); lit (3 # 4)] = OK res2
    /\ map fst (confs res1) = map fst (confs res2).
Proof.
  intros s1 s2 s3.
  assert (List.length [lit (1 # 4); lit (0 # 1); lit (3 # 4) : Qc]
          = List.length [s1; s2; s3]) as Hlen by reflexivity.
  assert (Forall spectrum_ok [s1; s2; s3]) as Hok.
  { repeat constructor; try discriminate; qc_neq. }
  assert (first_kept (combine [s1; s2; s3]
                        [lit (1 # 4); lit (0 # 1); lit (3 # 4)])) as Hfirst.
  { left. reflexivity. }
  assert (Forall zero_or_kept
            (combine [s1; s2; s3] [lit (1 # 4); lit (0 # 1); lit (3 # 4)]))
    as Hzero.
  { constructor; [right; repeat constructor |].
    constructor; [left; apply Qc_is_canon; reflexivity |].
    constructor; [right; repeat constructor | constructor]. }
  destruct (@ScalarProduct_pairwise_sum [s1; s2; s3]
              [lit (1 # 4); lit (0 # 1); lit (3 # 4)] Hlen Hok Hfirst)
    as [Hmain Hsuff].
  destruct (Hmain (Hsuff Hzero)) as (res1 & res2 & H1 & H2 & Hp & _).
  exists res1, res2. repeat split; assumption.
Defined.

(** On doubles the weights of the two results differ in the last bit
    for the weights 0.3, 0.2 and 0.1 at one position, each scaled by
    1: the one adds them as the queue gives them, the other spectrum
    by spectrum. *)
Example ScalarProduct_pairwise_sum_rounding_binary64 :
  let s (w : Q) : Spectrum float :=
    {| formula := ""; empty := false; label := ""; charge := 1%Z;
       confs := [(lit (1 # 1), lit w)] |} in
  let spectra := [s (3 # 10)%Q; s (2 # 10)%Q; s (1 # 10)%Q] in
  let weights := [lit (1 # 1); lit (1 # 1); lit (1 # 1) : float] in
  exists res1 res2 w1 w2,
    ScalarProduct spectra weights = OK res1
    /\ pairwise_sum spectra weights = OK res2
    /\ confs res1 = [(lit (1 # 1), w1)]
    /\ confs res2 = [(lit (1 # 1), w2)]
    /\ ltb w2 w1 = true.
Proof.
  intros s spectra weights. eexists. eexists. eexists. eexists.
  split; [vm_compute; reflexivity |].
  split; [vm_compute; reflexivity |].
  split; [vm_compute; reflexivity |].
  split; [vm_compute; reflexivity |].
  vm_compute. reflexivity.
Qed.

(** With a first weight of zero the repeated sum starts by adding two
    spectra without peaks and raises, where [ScalarProduct] returns;
    with the zero weight in the second place both return the same
    peaks. *)
Example pairwise_sum_zero_weight :
  let s1 : Spectrum Qc :=
    {| formula := ""; empty := false; label := "a"; charge := 1%Z;
       confs := [(lit (1 # 1), lit (1 # 1))] |} in
  let s2 : Spectrum Qc :=
    {| formula := ""; empty := false; label := "b"; charge := 1%Z;
       confs := [(lit (2 # 1), lit (1 # 1))] |} in
  pairwise_sum [s1; s2] [lit (0 # 1); lit (1 # 1)] = Raise IndexError
  /\ (exists res, ScalarProduct [s1; s2] [lit (0 # 1); lit (1 # 1)] = OK res)
  /\ exists res1 res2,
       ScalarProduct [s1; s2] [lit (1 # 1); lit (0 # 1)] = OK res1
       /\ pairwise_sum [s1; s2] [lit (1 # 1); lit (0 # 1)] = OK res2
       /\ confs res1 = confs res2.
Proof.
  intros s1 s2. split; [vm_compute; reflexivity |]. split.
  - eexists. vm_compute. reflexivity.
  - eexists. eexists. split; [vm_compute; reflexivity |].
    split; [vm_compute; reflexivity |]. reflexivity.
Qed.

End KWayEquivalence.

(** ** Normalization *)

Section Normalize.

Open Scope Qc_scope.

Lemma fsum_map_mul (l : list (peak Qc)) (k : Qc) :
  fsum (map snd (map (fun v => (fst v, mul (snd v) k)) l))
  = fsum (map snd l) * k.
Proof.
  induction l as [| [x w] l IH]; cbn [map fst snd].
  - cbn. ring.
  - rewrite !fsum_cons, IH. cbn [mul exact]. ring.
Qed.

Lemma normalize_OK (self : Spectrum Qc) (target_value : Qc) :
  fsum (map snd (confs self)) <> 0 ->
  normalize self target_value
  = OK (with_confs self
          (map (fun v => (fst v,
                          snd v * (target_value / fsum (map snd (confs self)))))
               (confs self))).
Proof.
  intros Hne. unfold normalize, truediv.
  assert (eqb (fsum (map snd (confs self))) zero = false) as ->
    by (apply eqb_neq; exact Hne).
  reflexivity.
Qed.

Lemma range_min_pos : 0 < range_min.
Proof. reflexivity. Qed.

Lemma well_within_range_nonzero (l : list (peak Qc)) :
  well_within_range l -> fsum (map snd l) <> 0.
Proof.
  intros (_ & _ & Hlo & _) E. rewrite E in Hlo.
  exact (Qclt_not_le _ _ range_min_pos Hlo).
Qed.

(** X7: on a spectrum well within the range of doubles, and for a
    target value between 1e-150 and 1e150 in absolute value,
    [normalize] keeps the positions, their order and the label,
    multiplies every weight by the same factor, and the weights of the
    result sum to the target value. *)
Theorem normalize_total (self : Spectrum Qc) (target_value : Qc) :
  well_within_range (confs self) ->
  range_min <= Qcabs target_value <= range_max ->
  exists res,
    normalize self target_value = OK res
    /\ label res = label self
    /\ map fst (confs res) = map fst (confs self)
    /\ map snd (confs res)
       = map (fun w => w * (target_value / fsum (map snd (confs self))))
           (map snd (confs self))
    /\ fsum (map snd (confs res)) = target_value.
Proof.
  intros Hrange _. pose proof (well_within_range_nonzero Hrange) as Hne.
  rewrite (normalize_OK _ _ Hne).
  eexists. split; [reflexivity |]. destruct self as [f e lb ch cs].
  cbn [label confs with_confs] in *.
  split; [reflexivity |]. split; [| split].
  - rewrite map_map. reflexivity.
  - rewrite !map_map. reflexivity.
  - rewrite (fsum_map_mul cs). field. exact Hne.
Qed.

Lemma normalize_total_witness :
  let s : Spectrum Qc :=
    {| formula := ""; empty := false; label := "s"; charge := 1%Z;
       confs := [(lit (100 # 1), lit (3 # 1)); (lit (101 # 1), lit (1 # 1))] |} in
  exists res,
    normalize s (lit (1 # 1)) = OK res
    /\ fsum (map snd (confs res)) = lit (1 # 1).
Proof.
  intros s.
  destruct (@normalize_total s (lit (1 # 1))) as (res & Hr & _ & _ & _ & Hs).
  - split; [| split; [| split]].
    + repeat constructor; discriminate.
    + repeat constructor; discriminate.
    + discriminate.
    + discriminate.
  - split; discriminate.
  - exists res. split; assumption.
Defined.

(** X8: on a spectrum well within the range of doubles, [normalize]
    with the target value 0 returns the peaks with every weight zero,
    and any later [normalize] of the result raises
    [ZeroDivisionError]. *)
Theorem normalize_to_zero_then_raises (self : Spectrum Qc) :
  well_within_range (confs self) ->
  exists s1,
    normalize self zero = OK s1
    /\ label s1 = label self
    /\ map fst (confs s1) = map fst (confs self)
    /\ Forall (fun p => snd p = 0) (confs s1)
    /\ forall target_value, normalize s1 target_value = Raise ZeroDivisionError.
Proof.
  intros Hrange. pose proof (well_within_range_nonzero Hrange) as Hne.
  rewrite (normalize_OK _ zero Hne).
  eexists. split; [reflexivity |]. destruct self as [f e lb ch cs].
  cbn [label confs with_confs] in *.
  assert (forall w : Qc, w * (zero / fsum (map snd cs)) = 0) as Hz.
  { intros w. unfold zero. cbn [lit exact]. field. exact Hne. }
  split; [reflexivity |]. split; [| split].
  - rewrite map_map. reflexivity.
  - rewrite Forall_map. apply Forall_forall. intros p _. cbn [snd]. apply Hz.
  - intros t. unfold normalize, truediv. cbn [confs with_confs].
    rewrite (fsum_map_mul cs), Hz.
    assert (eqb (0 : Qc) zero = true) as -> by (apply eqb_eq; reflexivity).
    reflexivity.
Qed.

Lemma normalize_to_zero_then_raises_witness :
  let s : Spectrum Qc :=
    {| formula := ""; empty := false; label := "s"; charge := 1%Z;
       confs := [(lit (100 # 1), lit (3 # 1)); (lit (101 # 1), lit (1 # 1))] |} in
  exists s1,
    normalize s zero = OK s1
    /\ normalize s1 one = Raise ZeroDivisionError.
Proof.
  intros s.
  destruct (@normalize_to_zero_then_raises s) as (s1 & Hs1 & _ & _ & _ & Hr).
  - split; [| split; [| split]].
    + repeat constructor; discriminate.
    + repeat constructor; discriminate.
    + discriminate.
    + discriminate.
  - exists s1. split; [exact Hs1 | apply Hr].
Defined.

End Normalize.

(** ** The transport plan *)

Section TransportPlan.

Open Scope Qc_scope.

Lemma plan_to_cons (y x w : Qc) (plan : list (move Qc)) (z : Qc) :
  plan_to ((y, x, w) :: plan) z = (if eqb x z then w else 0) + plan_to plan z.
Proof.
  unfold plan_to. cbn [filter fst snd].
  destruct (eqb x z); cbn [map snd]; rewrite ?fsum_cons; ring.
Qed.

Lemma plan_from_cons (y x w : Qc) (plan : list (move Qc)) (z : Qc) :
  plan_from ((y, x, w) :: plan) z
  = (if eqb y z then w else 0) + plan_from plan z.
Proof.
  unfold plan_from. cbn [filter fst snd].
  destruct (eqb y z); cbn [map snd]; rewrite ?fsum_cons; ring.
Qed.

Lemma fsum_nonneg (l : list (peak Qc)) :
  nonnegative l -> 0 <= fsum (map snd l).
Proof.
  induction 1 as [| [x w] l Hw _ IH]; cbn [map snd] in *.
  - apply Qcle_refl.
  - rewrite fsum_cons. qc_lra.
Qed.

Lemma weight_at_zero_total (l : list (peak Qc)) :
  nonnegative l -> fsum (map snd l) = 0 -> forall x, weight_at l x = 0.
Proof.
  induction 1 as [| [m w] l Hw Hl IH]; intros Hsum x; [reflexivity |].
  cbn [map snd] in *. rewrite fsum_cons in Hsum.
  pose proof (fsum_nonneg Hl) as Hpos.
  assert (w = 0) as -> by qc_lra.
  assert (fsum (map snd l) = 0) as Hl0 by qc_lra.
  rewrite weight_at_cons, (IH Hl0). destruct (eqb m x); ring.
Qed.

(** What the sweep leaves of the two lists: it moves the weights of
    [a] and of [b] but for two remainders, one of which is empty. *)
Lemma sweep_marginals (a b : list (peak Qc)) :
  nonnegative a -> nonnegative b ->
  exists ra rb,
    nonnegative ra /\ nonnegative rb /\ (ra = [] \/ rb = [])
    /\ fsum (map snd (sweep a b)) + fsum (map snd ra) = fsum (map snd a)
    /\ fsum (map snd (sweep a b)) + fsum (map snd rb) = fsum (map snd b)
    /\ (forall z, plan_to (sweep a b) z + weight_at ra z = weight_at a z)
    /\ (forall z, plan_from (sweep a b) z + weight_at rb z = weight_at b z).
Proof.
  funelim (sweep a b); intros Ha Hb.
  - exists [], b.
    repeat split; try assumption; try (left; reflexivity); try constructor;
      intros; cbn; ring.
  - exists (p :: l), [].
    repeat split; try assumption; try (right; reflexivity); try constructor;
      intros; cbn; ring.
  - clear Heqcall. rename Heq into E. apply leb_le in E.
    inversion Ha as [| ? ? Hp Ha']; inversion Hb as [| ? ? Hq Hb']; subst.
    cbn [snd] in Hp, Hq.
    destruct H as (ra & rb & Hra & Hrb & Hnil & Hsa & Hsb & Hto & Hfrom);
      [constructor; [apply sub_nonneg |]; assumption | assumption |].
    exists ra, rb.
    cbn [map snd] in *. rewrite !fsum_cons in *.
    repeat split; try assumption.
    + rewrite <- Qcplus_assoc, Hsa. cbn [sub exact]. ring.
    + rewrite <- Qcplus_assoc, Hsb. reflexivity.
    + intros z. rewrite plan_to_cons, weight_at_cons, <- Qcplus_assoc, Hto.
      rewrite weight_at_cons. destruct (eqb x z); cbn [sub exact]; ring.
    + intros z. rewrite plan_from_cons, weight_at_cons, <- Qcplus_assoc, Hfrom.
      reflexivity.
  - clear Heqcall. rename Heq into E. apply leb_gt in E.
    inversion Ha as [| ? ? Hp Ha']; inversion Hb as [| ? ? Hq Hb']; subst.
    cbn [snd] in Hp, Hq.
    destruct H as (ra & rb & Hra & Hrb & Hnil & Hsa & Hsb & Hto & Hfrom);
      [assumption
      | constructor; [apply sub_nonneg, Qclt_le_weak |]; assumption |].
    exists ra, rb.
    cbn [map snd] in *. rewrite !fsum_cons in *.
    repeat split; try assumption.
    + rewrite <- Qcplus_assoc, Hsa. reflexivity.
    + rewrite <- Qcplus_assoc, Hsb. cbn [sub exact]. ring.
    + intros z. rewrite plan_to_cons, weight_at_cons, <- Qcplus_assoc, Hto.
      reflexivity.
    + intros z. rewrite plan_from_cons, weight_at_cons, <- Qcplus_assoc, Hfrom.
      rewrite weight_at_cons. destruct (eqb y z); cbn [sub exact]; ring.
Qed.

(** X9: the entries that [WSDistanceMoves] yields are a transport plan
    between the two spectra: when the weights are not negative and
    have the same sum, the plan brings to every position of [self]
    the weight that [self] has there, and takes from every position of
    [other] the weight that [other] has there. *)
Theorem WSDistanceMoves_marginals (self other : Spectrum Qc) :
  nonnegative (confs self) -> nonnegative (confs other) ->
  total_weight self = total_weight other ->
  forall z,
    plan_to (fst (WSDistanceMoves self other)) z = weight_at (confs self) z
    /\ plan_from (fst (WSDistanceMoves self other)) z
       = weight_at (confs other) z.
Proof.
  intros Ha Hb Heq z. unfold total_weight in Heq. rewrite !sum_fsum in Heq.
  rewrite sweep_WSDistanceMoves.
  destruct (sweep_marginals Ha Hb)
    as (ra & rb & Hra & Hrb & Hnil & Hsa & Hsb & Hto & Hfrom).
  assert (fsum (map snd ra) = 0 /\ fsum (map snd rb) = 0) as [Za Zb].
  { destruct Hnil as [-> | ->]; cbn [map] in *;
      change (fsum (@nil Qc)) with (Q2Qc 0) in *; split; qc_lra. }
  rewrite <- Hto, <- Hfrom.
  rewrite (weight_at_zero_total Hra Za), (weight_at_zero_total Hrb Zb).
  split; ring.
Qed.

Lemma WSDistanceMoves_marginals_witness :
  let a : Spectrum Qc :=
    {| formula := ""; empty := false; label := "a"; charge := 1%Z;
       confs := [(lit (100 # 1), lit (1 # 2)); (lit (101 # 1), lit (1 # 2))] |} in
  let b : Spectrum Qc :=
    {| formula := ""; empty := false; label := "b"; charge := 1%Z;
       confs := [(lit (100 # 1), lit (3 # 10)); (lit (101 # 1), lit (7 # 10))] |} in
  plan_from (fst (WSDistanceMoves a b)) (lit (101 # 1)) = lit (7 # 10).
Proof.
  intros a b.
  rewrite (proj2 (@WSDistanceMoves_marginals a b
                    ltac:(repeat constructor; discriminate)
                    ltac:(repeat constructor; discriminate)
                    ltac:(apply Qc_is_canon; reflexivity)
                    (lit (101 # 1)))).
  apply Qc_is_canon. reflexivity.
Defined.

Lemma sweep_entries (a b : list (peak Qc)) :
  Forall (fun m => In (fst (fst m)) (map fst b) /\ In (snd (fst m)) (map fst a))
    (sweep a b).
Proof.
  funelim (sweep a b); simp sweep; try rewrite Heq; cbn [sweep_clause_3];
    try constructor.
  - cbn [fst snd map In]. auto.
  - revert H. apply Forall_impl. intros m [Hy Hx]. cbn [map fst In] in *. tauto.
  - cbn [fst snd map In]. auto.
  - revert H. apply Forall_impl. intros m [Hy Hx]. cbn [map fst In] in *. tauto.
Qed.

Lemma sweep_weights (a b : list (peak Qc)) :
  nonnegative a -> nonnegative b -> Forall (fun m => 0 <= snd m) (sweep a b).
Proof.
  funelim (sweep a b); intros Ha Hb; simp sweep; try rewrite Heq;
    cbn [sweep_clause_3]; try constructor.
  - inversion Hb; subst. assumption.
  - apply leb_le in Heq. inversion Ha; inversion Hb; subst.
    apply H; [constructor; [apply sub_nonneg |] |]; assumption.
  - inversion Ha; subst. assumption.
  - apply leb_gt in Heq. inversion Ha; inversion Hb; subst.
    apply H; [| constructor; [apply sub_nonneg, Qclt_le_weak |]]; assumption.
Qed.

Lemma sweep_length (a b : list (peak Qc)) :
  (List.length (sweep a b) <= List.length a + List.length b - 1)%nat.
Proof.
  funelim (sweep a b); simp sweep; try rewrite Heq; cbn [sweep_clause_3];
    cbn [List.length] in *; lia.
Qed.

(** X10: every entry that [WSDistanceMoves] yields goes from a
    position of [other] to a position of [self]; when no weight of
    the two spectra is negative, no entry has a negative weight. *)
Theorem WSDistanceMoves_entries (self other : Spectrum Qc) :
  Forall (fun m => In (fst (fst m)) (map fst (confs other))
                   /\ In (snd (fst m)) (map fst (confs self)))
    (fst (WSDistanceMoves self other))
  /\ (nonnegative (confs self) -> nonnegative (confs other) ->
      Forall (fun m => 0 <= snd m) (fst (WSDistanceMoves self other))).
Proof.
  rewrite sweep_WSDistanceMoves. split.
  - apply sweep_entries.
  - apply sweep_weights.
Qed.

Lemma WSDistanceMoves_entries_witness :
  let a : Spectrum Qc :=
    {| formula := ""; empty := false; label := "a"; charge := 1%Z;
       confs := [(lit (100 # 1), lit (1 # 2)); (lit (101 # 1), lit (1 # 2))] |} in
  let b : Spectrum Qc :=
    {| formula := ""; empty := false; label := "b"; charge := 1%Z;
       confs := [(lit (100 # 1), lit (3 # 10)); (lit (101 # 1), lit (7 # 10))] |} in
  Forall (fun m => 0 <= snd m) (fst (WSDistanceMoves a b)).
Proof.
  intros a b. apply (proj2 (@WSDistanceMoves_entries a b));
    repeat constructor; discriminate.
Defined.

(** X11: the generator yields fewer entries than the two spectra have
    peaks together, and none when one of them has no peak. *)
Theorem WSDistanceMoves_length (self other : Spectrum Qc) :
  (List.length (fst (WSDistanceMoves self other))
   <= List.length (confs self) + List.length (confs other) - 1)%nat
  /\ (confs self = [] \/ confs other = [] ->
      fst (WSDistanceMoves self other) = []).
Proof.
  rewrite sweep_WSDistanceMoves. split.
  - apply sweep_length.
  - intros [-> | ->]; [simp sweep; reflexivity | apply sweep_nil_r].
Qed.

Lemma WSDistanceMoves_length_witness :
  let a : Spectrum Qc :=
    {| formula := ""; empty := false; label := "a"; charge := 1%Z;
       confs := [] |} in
  let b : Spectrum Qc :=
    {| formula := ""; empty := false; label := "b"; charge := 1%Z;
       confs := [(lit (100 # 1), lit (3 # 10)); (lit (101 # 1), lit (7 # 10))] |} in
  fst (WSDistanceMoves a b) = [].
Proof.
  intros a b. apply (proj2 (@WSDistanceMoves_length a b)).
  left. reflexivity.
Defined.

Lemma sweep_monotone (a b : list (peak Qc)) :
  sorted_by_position a -> sorted_by_position b -> plan_monotone (sweep a b).
Proof.
  funelim (sweep a b); intros Ha Hb; simp sweep; try rewrite Heq;
    cbn [sweep_clause_3]; try constructor.
  - apply H; [| inversion Hb; assumption].
    inversion Ha; subst. constructor; assumption.
  - pose proof (sweep_entries ((x, sub p q) :: a') b') as He.
    apply StronglySorted_inv in Ha, Hb.
    destruct Ha as [_ Ha], Hb as [_ Hb].
    rewrite Forall_forall in *. intros m Hm. specialize (He m Hm).
    destruct He as [Hy Hx]. cbn [fst snd]. split.
    + apply in_map_iff in Hy. destruct Hy as (o & <- & Ho).
      exact (Hb o Ho).
    + cbn [map fst In] in Hx. destruct Hx as [<- | Hx]; [apply Qcle_refl |].
      apply in_map_iff in Hx. destruct Hx as (o & <- & Ho). exact (Ha o Ho).
  - apply H; [inversion Ha; assumption |].
    inversion Hb; subst. constructor; assumption.
  - pose proof (sweep_entries a' ((y, sub q p) :: b')) as He.
    apply StronglySorted_inv in Ha, Hb.
    destruct Ha as [_ Ha], Hb as [_ Hb].
    rewrite Forall_forall in *. intros m Hm. specialize (He m Hm).
    destruct He as [Hy Hx]. cbn [fst snd]. split.
    + cbn [map fst In] in Hy. destruct Hy as [<- | Hy]; [apply Qcle_refl |].
      apply in_map_iff in Hy. destruct Hy as (o & <- & Ho). exact (Hb o Ho).
    + apply in_map_iff in Hx. destruct Hx as (o & <- & Ho). exact (Ha o Ho).
Qed.

(** X12: between two spectra sorted by position, the plan never goes
    back: from one entry to the next, neither the position in [other]
    nor the position in [self] decreases. *)
Theorem WSDistanceMoves_monotone (self other : Spectrum Qc) :
  sorted_by_position (confs self) -> sorted_by_position (confs other) ->
  plan_monotone (fst (WSDistanceMoves self other)).
Proof.
  intros Ha Hb. rewrite sweep_WSDistanceMoves. apply sweep_monotone; assumption.
Qed.

Lemma WSDistanceMoves_monotone_witness :
  let a : Spectrum Qc :=
    {| formula := ""; empty := false; label := "a"; charge := 1%Z;
       confs := [(lit (100 # 1), lit (1 # 2)); (lit (101 # 1), lit (1 # 2))] |} in
  let b : Spectrum Qc :=
    {| formula := ""; empty := false; label := "b"; charge := 1%Z;
       confs := [(lit (100 # 1), lit (3 # 10)); (lit (101 # 1), lit (7 # 10))] |} in
  plan_monotone (fst (WSDistanceMoves a b)).
Proof.
  intros a b. apply (@WSDistanceMoves_monotone a b);
    repeat constructor; discriminate.
Defined.

Lemma cost_sweep_shift (t : Qc) (l : list (peak Qc)) :
  nonnegative l ->
  cost (sweep l (map (fun p => (fst p + t, snd p)) l))
  = Qcabs t * fsum (map snd l).
Proof.
  induction 1 as [| [x p] l Hp Hl IH]; cbn [map fst snd].
  - simp sweep. cbn. ring.
  - rewrite sweep_cons.
    assert (leb p p = true) as -> by (apply leb_le, Qcle_refl).
    rewrite cost_cons, sub_diag, cost_sweep_zero_l, IH, fsum_cons.
    + unfold move_cost. cbn [fst snd sub mul absv exact].
      replace (x + t - x) with t by ring. ring.
    + exact Hl.
    + clear IH. induction Hl as [| o l Ho _ IH]; constructor; assumption.
Qed.

(** X13: the distance from a spectrum to itself is zero, and the
    distance to its translation by [t] is [|t|] times its total
    weight: shifting every peak of a normalized spectrum by [t] costs
    [|t|]. *)
Theorem WSDistance_translation (self other : Spectrum Qc) (t : Qc) :
  nonnegative (confs self) ->
  Qcabs (total_weight self - 1) <= tolerance ->
  confs other = map (fun p => (fst p + t, snd p)) (confs self) ->
  WSDistance self self = OK 0
  /\ WSDistance self other = OK (Qcabs t * total_weight self).
Proof.
  intros Hn Hclose Hother.
  apply isclose_one in Hclose.
  assert (total_weight other = total_weight self) as Ht.
  { unfold total_weight. rewrite Hother, map_map. reflexivity. }
  rewrite !WSDistance_OK by (rewrite ?Ht; exact Hclose).
  split; f_equal.
  - pose proof (cost_sweep_shift 0 Hn) as Hc.
    replace (map (fun p : Qc * Qc => (fst p + 0, snd p)) (confs self))
      with (confs self) in Hc.
    + rewrite Hc. unfold Qcabs. cbn. ring.
    + rewrite <- (map_id (confs self)) at 1. apply map_ext.
      intros [x w]. cbn [fst snd]. f_equal. ring.
  - rewrite Hother, (cost_sweep_shift t Hn). unfold total_weight.
    rewrite sum_fsum. reflexivity.
Qed.

Lemma WSDistance_translation_witness :
  let a : Spectrum Qc :=
    {| formula := ""; empty := false; label := "a"; charge := 1%Z;
       confs := [(lit (100 # 1), lit (1 # 2)); (lit (101 # 1), lit (1 # 2))] |} in
  let b : Spectrum Qc :=
    {| formula := ""; empty := false; label := "b"; charge := 1%Z;
       confs := [(lit (97 # 1), lit (1 # 2)); (lit (98 # 1), lit (1 # 2))] |} in
  WSDistance a a = OK (lit (0 # 1)) /\ WSDistance a b = OK (lit (3 # 1)).
Proof.
  intros a b.
  destruct (@WSDistance_translation a b (lit (-3 # 1))) as [H0 H1].
  - repeat constructor; discriminate.
  - vm_compute. discriminate.
  - cbn [a b confs map fst snd].
    repeat f_equal; try (apply Qc_is_canon; reflexivity).
  - split; [exact H0 |]. rewrite H1.
    f_equal; try (apply Qc_is_canon; reflexivity).
Defined.

End TransportPlan.

(** ** The modal peak *)

Section ModalPeak.

Open Scope Qc_scope.

Lemma modal_fold (l' : list (peak Qc)) :
  forall (pre : list (peak Qc)) (x : peak Qc) (mid : list (peak Qc)),
    (forall q, In q pre -> snd q < snd x) ->
    (forall q, In q mid -> snd q <= snd x) ->
    exists l1 l2,
      pre ++ x :: mid ++ l'
      = l1 ++ fold_left (fun best y => if ltb (snd best) (snd y) then y else best)
                l' x :: l2
      /\ (forall q, In q l1 ->
            snd q < snd (fold_left
                           (fun best y => if ltb (snd best) (snd y) then y else best)
                           l' x))
      /\ (forall q, In q l2 ->
            snd q <= snd (fold_left
                            (fun best y => if ltb (snd best) (snd y) then y else best)
                            l' x)).
Proof.
  induction l' as [| y l' IH]; intros pre x mid Hpre Hmid; cbn [fold_left].
  - exists pre, mid. rewrite app_nil_r. auto.
  - destruct (ltb (snd x) (snd y)) eqn:E.
    + apply ltb_lt in E.
      destruct (IH (pre ++ x :: mid) y []) as (l1 & l2 & Heq & H1 & H2).
      * intros q Hq. apply in_app_iff in Hq. destruct Hq as [Hq | [<- | Hq]].
        -- apply Qclt_trans with (snd x); auto.
        -- exact E.
        -- apply Qcle_lt_trans with (snd x); auto.
      * intros q [].
      * exists l1, l2. split; [| auto].
        rewrite <- Heq, <- app_assoc. reflexivity.
    + apply ltb_ge in E.
      destruct (IH pre x (mid ++ [y])) as (l1 & l2 & Heq & H1 & H2).
      * exact Hpre.
      * intros q Hq. apply in_app_iff in Hq.
        destruct Hq as [Hq | [<- | []]]; auto.
      * exists l1, l2. split; [| auto].
        rewrite <- Heq, <- app_assoc. reflexivity.
Qed.

(** X14: [get_modal_peak] raises a [ValueError] on a spectrum without
    peaks; otherwise it returns a peak of the spectrum of the greatest
    weight, and of the peaks of that weight the first one. *)
Theorem get_modal_peak_first_heaviest (self : Spectrum Qc) :
  (confs self = [] -> exists msg, get_modal_peak self = Raise (ValueError msg))
  /\ (confs self <> [] ->
      exists b l1 l2,
        get_modal_peak self = OK b
        /\ confs self = l1 ++ b :: l2
        /\ (forall q, In q l1 -> snd q < snd b)
        /\ (forall q, In q l2 -> snd q <= snd b)).
Proof.
  unfold get_modal_peak. split.
  - intros ->. eexists. reflexivity.
  - intros Hne. destruct (confs self) as [| x l']; [congruence |].
    destruct (modal_fold l' [] x []) as (l1 & l2 & Heq & H1 & H2);
      [intros q [] | intros q [] |].
    eexists. exists l1, l2. split; [reflexivity |].
    split; [exact Heq |]. split; assumption.
Qed.

Lemma get_modal_peak_first_heaviest_witness :
  let a : Spectrum Qc :=
    {| formula := ""; empty := false; label := "a"; charge := 1%Z;
       confs := [(lit (100 # 1), lit (1 # 4)); (lit (101 # 1), lit (3 # 8));
                 (lit (102 # 1), lit (3 # 8))] |} in
  exists b l1 l2,
    get_modal_peak a = OK b /\ confs a = l1 ++ b :: l2
    /\ (forall q, In q l1 -> snd q < snd b).
Proof.
  intros a.
  destruct (proj2 (@get_modal_peak_first_heaviest a))
    as (b & l1 & l2 & Hb & Hc & H1 & _).
  - discriminate.
  - exists b, l1, l2. repeat split; assumption.
Defined.

End ModalPeak.

(** ** The average mass *)

Section AverageMass.

Open Scope Qc_scope.

Lemma fold_left_Raise {A B : Type} (f : result A -> B -> result A)
    (e : exn) (l : list B) :
  (forall x, f (Raise e) x = Raise e) -> fold_left f l (Raise e) = Raise e.
Proof.
  intros Hf. induction l as [| x l IH]; cbn [fold_left]; [reflexivity |].
  rewrite Hf. exact IH.
Qed.

Lemma truediv_OK (x y : Qc) : y <> 0 -> truediv x y = OK (x / y).
Proof.
  intros Hy. unfold truediv.
  assert (eqb y zero = false) as -> by (apply eqb_neq; exact Hy).
  reflexivity.
Qed.

Lemma truediv_zero (x y : Qc) : y = 0 -> truediv x y = Raise ZeroDivisionError.
Proof.
  intros Hy. unfold truediv.
  assert (eqb y zero = true) as -> by (apply eqb_eq; exact Hy).
  reflexivity.
Qed.

Lemma average_fold (norm : Qc) (l : list (peak Qc)) :
  norm <> 0 ->
  forall acc,
    fold_left
      (fun acc x =>
         acc <- acc ;;
         t <- truediv (mul (fst x) (snd x)) norm ;;
         OK (add acc t))
      l (OK acc)
    = OK (acc + fsum (map (fun p => fst p * snd p) l) / norm).
Proof.
  intros Hn. induction l as [| [x w] l IH]; intros acc; cbn [fold_left map].
  - f_equal. cbn. field. exact Hn.
  - cbn [bind]. rewrite (truediv_OK _ Hn). cbn [bind].
    rewrite IH, fsum_cons. f_equal. cbn [fst snd add mul div exact].
    field. exact Hn.
Qed.

Lemma weighted_bounds (lo hi : Qc) (l : list (peak Qc)) :
  nonnegative l ->
  (forall p, In p l -> lo <= fst p <= hi) ->
  lo * fsum (map snd l) <= fsum (map (fun p => fst p * snd p) l)
  /\ fsum (map (fun p => fst p * snd p) l) <= hi * fsum (map snd l).
Proof.
  induction 1 as [| [x w] l Hw Hl IH]; intros Hb; cbn [map fst snd].
  - cbn. split; qc_lra.
  - rewrite !fsum_cons.
    destruct IH as [IH1 IH2]; [intros p Hp; apply Hb; right; exact Hp |].
    destruct (Hb (x, w) (or_introl eq_refl)) as [Hlo Hhi].
    cbn [fst snd] in *.
    assert (lo * w <= x * w /\ x * w <= hi * w) as [H1 H2].
    { split; qc_to_q; apply Qmult_le_compat_r; assumption. }
    split; qc_lra.
Qed.

(** X15: [average_mass] returns 0 on a spectrum without peaks, raises
    [ZeroDivisionError] when there are peaks and their weights sum to
    zero, and otherwise returns the weighted mean of the positions,
    which lies between the smallest and the greatest position when no
    weight is negative. *)
Theorem average_mass_weighted_mean (self : Spectrum Qc) :
  (confs self = [] -> average_mass self = OK 0)
  /\ (confs self <> [] -> total_weight self = 0 ->
      average_mass self = Raise ZeroDivisionError)
  /\ (total_weight self <> 0 ->
      exists m,
        average_mass self = OK m
        /\ m * total_weight self
           = fsum (map (fun p => fst p * snd p) (confs self))
        /\ (nonnegative (confs self) ->
            forall lo hi,
              (forall p, In p (confs self) -> lo <= fst p <= hi) ->
              lo <= m <= hi)).
Proof.
  unfold average_mass. fold (total_weight self).
  split; [| split].
  - intros ->. reflexivity.
  - intros Hne Hz. destruct (confs self) as [| x l]; [congruence |].
    cbn [fold_left bind]. rewrite (truediv_zero _ Hz).
    cbn [bind]. apply fold_left_Raise. reflexivity.
  - intros Hn. rewrite (average_fold _ Hn).
    unfold zero. cbn [lit exact].
    eexists. split; [reflexivity |]. split; [field; exact Hn |].
    intros Hnn lo hi Hb.
    destruct (weighted_bounds Hnn Hb) as [H1 H2].
    pose proof (fsum_nonneg Hnn) as Hpos.
    unfold total_weight in *. rewrite sum_fsum in *.
    set (W := fsum (map snd (confs self))) in *.
    set (S := fsum (map (fun p => fst p * snd p) (confs self))) in *.
    assert (0 < W) as HW.
    { apply Qcle_lt_or_eq in Hpos. destruct Hpos as [Hpos | Hpos];
        [exact Hpos | congruence]. }
    replace (0 + S / W) with (S / W) by ring.
    assert (S / W * W = S) as HS by (field; exact Hn).
    rewrite <- HS in H1, H2.
    split.
    + apply Qcmult_lt_0_le_reg_r with W; [exact HW | exact H1].
    + apply Qcmult_lt_0_le_reg_r with W; [exact HW | exact H2].
Qed.

Lemma average_mass_weighted_mean_witness :
  let a : Spectrum Qc :=
    {| formula := ""; empty := false; label := "a"; charge := 1%Z;
       confs := [(lit (100 # 1), lit (1 # 4)); (lit (102 # 1), lit (3 # 4))] |} in
  exists m, average_mass a = OK m /\ lit (100 # 1) <= m <= lit (102 # 1).
Proof.
  intros a.
  destruct (proj2 (proj2 (@average_mass_weighted_mean a)))
    as (m & Hm & _ & Hb).
  - qc_neq.
  - exists m. split; [exact Hm |]. apply Hb.
    + repeat constructor; discriminate.
    + intros p [<- | [<- | []]]; split; discriminate.
Defined.

End AverageMass.

(** ** Explained intensity *)

Section ExplainedIntensity.

Open Scope Qc_scope.

Lemma getitem_app_at {A : Type} (pre l : list A) (n : nat) :
  n = List.length pre -> getitem (pre ++ l) n = getitem l 0.
Proof.
  intros ->. unfold getitem.
  rewrite nth_error_app2, Nat.sub_diag by lia. reflexivity.
Qed.

Lemma explained_fold (s : list (peak Qc)) :
  forall (o pre_s pre_o : list (peak Qc)) (acc : Qc),
    List.length pre_s = List.length pre_o ->
    fold_left
      (fun e i =>
         e <- e ;;
         s <- getitem (pre_s ++ s) i ;;
         o <- getitem (pre_o ++ o) i ;;
         OK (add e (py_min (snd s) (snd o))))
      (seq (List.length pre_s) (List.length s)) (OK acc)
    = if (List.length s <=? List.length o)%nat
      then OK (acc + fsum (map (fun so => py_min (snd (fst so)) (snd (snd so)))
                             (combine s o)))
      else Raise IndexError.
Proof.
  induction s as [| x s IH]; intros o pre_s pre_o acc Hlen;
    cbn [List.length seq fold_left].
  - cbn. f_equal. ring.
  - cbn [bind].
    rewrite (getitem_app_at pre_s (x :: s) eq_refl).
    rewrite (getitem_app_at pre_o o Hlen).
    cbn [getitem nth_error bind].
    destruct o as [| y o]; cbn [getitem nth_error bind].
    + apply fold_left_Raise. reflexivity.
    + pose proof (IH o (pre_s ++ [x]) (pre_o ++ [y])
                    (add acc (py_min (snd x) (snd y)))) as IH'.
      rewrite !length_app, <- !app_assoc in IH'. cbn [List.length app] in IH'.
      rewrite Nat.add_1_r in IH'. rewrite IH' by lia.
      cbn [List.length combine map fst snd]. rewrite fsum_cons.
      change (S (List.length s) <=? S (List.length o))%nat
        with (List.length s <=? List.length o)%nat.
      destruct (List.length s <=? List.length o)%nat; [| reflexivity].
      f_equal. cbn [add exact]. ring.
Qed.

Lemma py_min_le_l (a b : Qc) : py_min a b <= a.
Proof.
  unfold py_min. destruct (ltb b a) eqn:E.
  - apply ltb_lt in E. apply Qclt_le_weak. exact E.
  - apply Qcle_refl.
Qed.

Lemma py_min_nonneg (a b : Qc) : 0 <= a -> 0 <= b -> 0 <= py_min a b.
Proof. intros Ha Hb. unfold py_min. destruct (ltb b a); assumption. Qed.

Lemma py_min_diag (a : Qc) : py_min a a = a.
Proof. unfold py_min. destruct (ltb a a); reflexivity. Qed.

Lemma explained_le (s : list (peak Qc)) :
  forall o : list (peak Qc),
    (List.length s <= List.length o)%nat ->
    fsum (map (fun so => py_min (snd (fst so)) (snd (snd so))) (combine s o))
    <= fsum (map snd s).
Proof.
  induction s as [| x s IH]; intros [| y o] Hlen; cbn [List.length] in Hlen;
    try lia; cbn [combine map fst snd].
  - apply Qcle_refl.
  - apply Qcle_refl.
  - rewrite !fsum_cons.
    pose proof (py_min_le_l (snd x) (snd y)).
    pose proof (IH o ltac:(lia)).
    qc_lra.
Qed.

Lemma explained_nonneg (s : list (peak Qc)) :
  forall o : list (peak Qc),
    nonnegative s -> nonnegative o ->
    0 <= fsum (map (fun so => py_min (snd (fst so)) (snd (snd so))) (combine s o)).
Proof.
  induction s as [| x s IH]; intros [| y o] Hs Ho; cbn [combine map fst snd];
    try apply Qcle_refl.
  rewrite fsum_cons. inversion Hs; inversion Ho; subst.
  pose proof (@py_min_nonneg (snd x) (snd y)).
  pose proof (IH o).
  assert (0 <= py_min (snd x) (snd y)) by auto.
  assert (0 <= fsum (map (fun so => py_min (snd (fst so)) (snd (snd so)))
                       (combine s o))) by auto.
  qc_lra.
Qed.

(** X16: [explained_intensity] pairs the peaks of the two spectra by
    rank, whatever their positions: it raises [IndexError] when
    [other] has fewer peaks than [self], and otherwise returns the sum
    over the peaks of [self] of the smaller of the two weights of the
    same rank, which is at most the total weight of [self], not
    negative when no weight is, and the total weight of [self] when
    [other] is [self]. *)
Theorem explained_intensity_by_rank (self other : Spectrum Qc) :
  ((List.length (confs other) < List.length (confs self))%nat ->
   explained_intensity self other = Raise IndexError)
  /\ ((List.length (confs self) <= List.length (confs other))%nat ->
      exists e,
        explained_intensity self other = OK e
        /\ e = fsum (map (fun so => py_min (snd (fst so)) (snd (snd so)))
                       (combine (confs self) (confs other)))
        /\ e <= total_weight self
        /\ (nonnegative (confs self) -> nonnegative (confs other) -> 0 <= e))
  /\ explained_intensity self self = OK (total_weight self).
Proof.
  assert (forall o : Spectrum Qc,
            explained_intensity self o
            = if (List.length (confs self) <=? List.length (confs o))%nat
              then OK (fsum (map (fun so => py_min (snd (fst so)) (snd (snd so)))
                               (combine (confs self) (confs o))))
              else Raise IndexError) as Hexp.
  { intros o. unfold explained_intensity.
    pose proof (explained_fold (confs self) (confs o) [] [] zero eq_refl) as Hf.
    cbn [app List.length] in Hf. rewrite Hf.
    destruct (_ <=? _)%nat; [| reflexivity].
    f_equal. unfold zero. cbn [lit exact]. ring. }
  split; [| split].
  - intros Hlt. rewrite Hexp.
    assert ((List.length (confs self) <=? List.length (confs other))%nat = false)
      as -> by (apply Nat.leb_gt; exact Hlt).
    reflexivity.
  - intros Hle. rewrite Hexp.
    assert ((List.length (confs self) <=? List.length (confs other))%nat = true)
      as -> by (apply Nat.leb_le; exact Hle).
    eexists. split; [reflexivity |]. split; [reflexivity |]. split.
    + unfold total_weight. rewrite sum_fsum. apply explained_le. exact Hle.
    + apply explained_nonneg.
  - rewrite Hexp, Nat.leb_refl. f_equal.
    unfold total_weight. rewrite sum_fsum. f_equal. clear Hexp.
    induction (confs self) as [| x l IH]; cbn [combine map fst snd];
      [reflexivity |].
    rewrite py_min_diag, IH. reflexivity.
Qed.

Lemma explained_intensity_by_rank_witness :
  let a : Spectrum Qc :=
    {| formula := ""; empty := false; label := "a"; charge := 1%Z;
       confs := [(lit (100 # 1), lit (1 # 4)); (lit (102 # 1), lit (3 # 4))] |} in
  let b : Spectrum Qc :=
    {| formula := ""; empty := false; label := "b"; charge := 1%Z;
       confs := [(lit (100 # 1), lit (1 # 1))] |} in
  explained_intensity a b = Raise IndexError
  /\ exists e, explained_intensity b a = OK e /\ e <= total_weight b.
Proof.
  intros a b. split.
  - apply (proj1 (@explained_intensity_by_rank a b)). cbn. lia.
  - destruct (proj1 (proj2 (@explained_intensity_by_rank b a)))
      as (e & He & _ & Hle & _).
    + cbn. lia.
    + exists e. split; assumption.
Defined.

End ExplainedIntensity.

(** ** Local maxima *)

Section FindPeaks.

Open Scope Qc_scope.

(** One step of [find_peaks] along the list of peaks. *)
Lemma find_peaks_cons (s s' : Spectrum Qc) (a p b : peak Qc)
    (rest : list (peak Qc)) :
  confs s = a :: p :: b :: rest ->
  confs s' = p :: b :: rest ->
  find_peaks s
  = (if ltb (sub (snd b) (snd p)) zero && ltb zero (sub (snd p) (snd a))
     then [p] else [])
    ++ find_peaks s'.
Proof.
  intros Hs Hs'. unfold find_peaks. rewrite Hs, Hs'.
  cbn [tl].
  change (removelast (a :: p :: b :: rest))
    with (a :: p :: removelast (b :: rest)).
  change (removelast (p :: b :: rest)) with (p :: removelast (b :: rest)).
  cbn [combine map fst snd tl].
  match goal with
  | |- context [removelast (?d1 :: ?d2 :: ?ds)] =>
      change (removelast (d1 :: d2 :: ds)) with (d1 :: removelast (d2 :: ds))
  end.
  cbn [combine map fst snd filter].
  destruct (ltb (sub (snd b) (snd p)) zero && ltb zero (sub (snd p) (snd a)));
    reflexivity.
Qed.

Lemma find_peaks_short (s : Spectrum Qc) :
  (List.length (confs s) < 3)%nat -> find_peaks s = [].
Proof.
  unfold find_peaks. destruct (confs s) as [| a [| p [| b rest]]];
    cbn [List.length]; intros Hlen; try lia; reflexivity.
Qed.

Lemma find_peaks_In (l : list (peak Qc)) :
  forall (s : Spectrum Qc) (p : peak Qc),
    confs s = l ->
    In p (find_peaks s)
    <-> exists l1 a b l2,
          l = l1 ++ a :: p :: b :: l2 /\ snd a < snd p /\ snd b < snd p.
Proof.
  induction l as [| a l IH]; intros s p0 Hs.
  - rewrite find_peaks_short by (rewrite Hs; cbn; lia). split; [intros [] |].
    intros (l1 & a & b & l2 & E & _). destruct l1; discriminate.
  - destruct l as [| p [| b rest]].
    + rewrite find_peaks_short by (rewrite Hs; cbn; lia). split; [intros [] |].
      intros (l1 & a' & b & l2 & E & _).
      destruct l1 as [| ? [| ? ?]]; discriminate.
    + rewrite find_peaks_short by (rewrite Hs; cbn; lia). split; [intros [] |].
      intros (l1 & a' & b & l2 & E & _).
      destruct l1 as [| ? [| ? [| ? ?]]]; discriminate.
    + rewrite (@find_peaks_cons s (with_confs s (p :: b :: rest)) a p b rest Hs
                 eq_refl).
      rewrite in_app_iff, (IH (with_confs s (p :: b :: rest)) p0 eq_refl).
      split.
      * intros [Hin | (l1 & a' & b' & l2 & E & Ha & Hb)].
        -- destruct (ltb (sub (snd b) (snd p)) zero
                     && ltb zero (sub (snd p) (snd a))) eqn:C;
             [| destruct Hin].
           destruct Hin as [<- | []].
           apply andb_prop in C. destruct C as [C1 C2].
           apply ltb_lt in C1, C2.
           exists [], a, b, rest. split; [reflexivity |]. split; qc_lra.
        -- exists (a :: l1), a', b', l2. rewrite E. auto.
      * intros (l1 & a' & b' & l2 & E & Ha & Hb).
        destruct l1 as [| a'' l1]; cbn [app] in E.
        -- injection E as <- <- <- <-. left.
           assert (ltb (sub (snd b) (snd p)) zero = true) as ->
             by (apply ltb_lt; qc_lra).
           assert (ltb zero (sub (snd p) (snd a)) = true) as ->
             by (apply ltb_lt; qc_lra).
           left. reflexivity.
        -- injection E as <- E. right. exists l1, a', b', l2. auto.
Qed.

(** X17: [find_peaks] reports exactly the strict interior local maxima:
    a peak is returned when, and only when, it stands in the list of
    peaks between two neighbours that are both lighter; so never the
    first or the last peak, never a peak of a plateau, and nothing for
    fewer than three peaks. *)
Theorem find_peaks_local_maxima (self : Spectrum Qc) :
  (forall p,
     In p (find_peaks self)
     <-> exists l1 a b l2,
           confs self = l1 ++ a :: p :: b :: l2
           /\ snd a < snd p /\ snd b < snd p)
  /\ ((List.length (confs self) < 3)%nat -> find_peaks self = []).
Proof.
  split.
  - intros p. apply find_peaks_In. reflexivity.
  - apply find_peaks_short.
Qed.

Lemma find_peaks_local_maxima_witness :
  let a : Spectrum Qc :=
    {| formula := ""; empty := false; label := "a"; charge := 1%Z;
       confs := [(lit (100 # 1), lit (1 # 4)); (lit (102 # 1), lit (3 # 4))] |} in
  find_peaks a = [].
Proof.
  intros a. apply (proj2 (@find_peaks_local_maxima a)). cbn. lia.
Defined.

End FindPeaks.

(** ** Gaussian noise *)

Section GaussianNoise.

Open Scope Qc_scope.

(** X18: whatever numbers the noise gives, [add_gaussian_noise] leaves
    only peaks of positive weight, each at the position of a peak of
    the spectrum, and no more peaks than there were; with the weights
    themselves as the noised values it keeps the peaks of positive
    weight as they are. *)
Theorem add_gaussian_noise_positive (noised : list Qc) (self : Spectrum Qc) :
  label (add_gaussian_noise noised self) = label self
  /\ Forall (fun p => 0 < snd p
                      /\ In (fst p) (map fst (confs self))
                      /\ In (snd p) noised)
       (confs (add_gaussian_noise noised self))
  /\ (List.length (confs (add_gaussian_noise noised self))
      <= List.length (confs self))%nat
  /\ confs (add_gaussian_noise (map snd (confs self)) self)
     = filter (fun p => ltb zero (snd p)) (confs self).
Proof.
  unfold add_gaussian_noise. destruct self as [f e lb ch cs].
  cbn [label confs with_confs]. split; [reflexivity |]. split; [| split].
  - apply Forall_forall. intros p Hp. apply in_map_iff in Hp.
    destruct Hp as ([[x w] y] & <- & Hin). apply filter_In in Hin.
    destruct Hin as [Hin Hy]. cbn [fst snd] in *. apply ltb_lt in Hy.
    split; [exact Hy |]. split.
    + apply in_combine_l in Hin. apply (in_map fst) in Hin. exact Hin.
    + apply in_combine_r in Hin. exact Hin.
  - rewrite length_map.
    etransitivity; [apply filter_length_le |].
    rewrite length_combine. lia.
  - induction cs as [| [x w] cs IH]; cbn [map combine filter fst snd];
      [reflexivity |].
    destruct (ltb zero w); cbn [map fst snd]; rewrite IH; reflexivity.
Qed.

End GaussianNoise.

(** ** Number of peaks *)

Section Length.

Open Scope Qc_scope.

Lemma strictly_sorted_NoDup (l : list (peak Qc)) :
  strictly_sorted l -> NoDup (map fst l).
Proof.
  induction 1 as [| x l _ IH Hx]; cbn [map]; constructor; [| exact IH].
  intros Hin. apply in_map_iff in Hin. destruct Hin as (y & Hy & Hin).
  rewrite Forall_forall in Hx. specialize (Hx y Hin). rewrite Hy in Hx.
  exact (Qclt_not_eq _ _ Hx eq_refl).
Qed.

(** X19: the sum of two canonical spectra has at least as many peaks as
    either of them and at most as many as both together. *)
Theorem add_len (a b : Spectrum Qc) :
  canonical (confs a) -> canonical (confs b) ->
  off_sentinel (confs a) -> off_sentinel (confs b) ->
  confs a ++ confs b <> [] ->
  exists res,
    __add__ a b = OK res
    /\ (__len__ a <= __len__ res)%nat
    /\ (__len__ b <= __len__ res)%nat
    /\ (__len__ res <= __len__ a + __len__ b)%nat.
Proof.
  intros Ha Hb Hoa Hob Hne.
  destruct (@add_canonical a b Ha Hb Hoa Hob Hne)
    as (c & -> & ((Hs & _) & Hp & _) & _ & _).
  eexists. split; [reflexivity |].
  unfold __len__. cbn [confs with_label with_confs].
  rewrite <- (length_map fst c), <- (length_map fst (confs a)),
    <- (length_map fst (confs b)).
  split; [| split].
  - apply NoDup_incl_length; [apply strictly_sorted_NoDup, Ha |].
    intros x Hx. apply Hp. rewrite map_app, in_app_iff. left. exact Hx.
  - apply NoDup_incl_length; [apply strictly_sorted_NoDup, Hb |].
    intros x Hx. apply Hp. rewrite map_app, in_app_iff. right. exact Hx.
  - rewrite <- length_app, <- map_app.
    apply NoDup_incl_length; [apply strictly_sorted_NoDup, Hs |].
    intros x Hx. apply Hp. exact Hx.
Qed.

Lemma add_len_witness :
  let a : Spectrum Qc :=
    {| formula := ""; empty := false; label := "a"; charge := 1%Z;
       confs := [(lit (100 # 1), lit (1 # 2)); (lit (101 # 1), lit (1 # 2))] |} in
  let b : Spectrum Qc :=
    {| formula := ""; empty := false; label := "b"; charge := 1%Z;
       confs := [(lit (100 # 1), lit (3 # 10)); (lit (102 # 1), lit (7 # 10))] |} in
  exists res,
    __add__ a b = OK res /\ (__len__ res <= __len__ a + __len__ b)%nat.
Proof.
  intros a b.
  destruct (@add_len a b) as (res & Hres & _ & _ & Hlen).
  - split; repeat constructor.
  - split; repeat constructor.
  - repeat constructor; qc_neq.
  - repeat constructor; qc_neq.
  - discriminate.
  - exists res. split; assumption.
Defined.

End Length.

(** ** Extremes of the smallest-peak pruning *)

Section PruningExtremes.

Open Scope Qc_scope.

Lemma fsum_pos (l : list (peak Qc)) :
  l <> [] -> Forall (fun x => 0 < snd x) l -> 0 < fsum (map snd l).
Proof.
  intros Hne Hl. destruct Hl as [| [x w] l Hw Hl]; [congruence |].
  cbn [map snd] in *. rewrite fsum_cons.
  assert (nonnegative l) as Hnn.
  { eapply Forall_impl; [| exact Hl]. intros a Ha. apply Qclt_le_weak, Ha. }
  pose proof (fsum_nonneg Hnn). qc_lra.
Qed.

(** What [cut_smallest_peaks] keeps and removes, from the list sorted
    by decreasing weight. *)
Lemma cut_smallest_peaks_split (self : Spectrum Qc) (removed_proportion : Qc) :
  exists kept popped,
    list_sort snd true (confs self) = kept ++ popped
    /\ confs (cut_smallest_peaks self removed_proportion) = sort_confs kept
    /\ (popped = []
        \/ fsum (map snd popped) <= removed_proportion * total_weight self)
    /\ (forall l x, kept = l ++ [x] ->
          removed_proportion * total_weight self < fsum (map snd popped) + snd x).
Proof.
  unfold cut_smallest_peaks. rewrite total_weight_list_sort.
  destruct (cut_while_spec (list_sort snd true (confs self))
              (mul removed_proportion (total_weight self)) zero)
    as (popped & Hc & Hr & Hle & Hstop).
  destruct (cut_while (list_sort snd true (confs self))
              (mul removed_proportion (total_weight self)) zero)
    as [kept removed].
  cbn [fst snd confs with_confs] in *.
  assert (removed = fsum (map snd popped)) as ->.
  { rewrite Hr. unfold zero. cbn [lit exact]. ring. }
  exists kept, popped. split; [exact Hc |]. split.
  - destruct self. reflexivity.
  - split; [exact Hle | exact Hstop].
Qed.

(** X20: what [cut_smallest_peaks] does at the extremes.  The result is
    always sorted by position and made of peaks of the spectrum, the
    others being removed.  With a proportion of zero or less and
    weights all positive nothing is removed: the peaks are only sorted
    again.  A proportion of 1 does not remove every peak on doubles:
    of the weights 0.3, 0.2 and 0.1 the peak of weight 0.3 stays, the
    threshold being 0.3 + 0.2 + 0.1 = 0.6 and the running sum
    0.1 + 0.2 + 0.3 = 0.6000000000000001. *)
Theorem cut_smallest_peaks_extremes (self : Spectrum Qc)
    (removed_proportion : Qc) :
  sorted_by_position (confs (cut_smallest_peaks self removed_proportion))
  /\ (exists removed,
        Permutation (confs self)
          (confs (cut_smallest_peaks self removed_proportion) ++ removed))
  /\ (removed_proportion <= 0 ->
      Forall (fun x => 0 < snd x) (confs self) ->
      confs (cut_smallest_peaks self removed_proportion)
      = sort_confs (list_sort snd true (confs self)))
  /\ confs (cut_smallest_peaks
              {| formula := ""; empty := false; label := ""; charge := 1%Z;
                 confs := [(lit (1 # 1), lit (3 # 10));
                           (lit (2 # 1), lit (2 # 10));
                           (lit (3 # 1), lit (1 # 10))] |}
              (lit (1 # 1)))
     = [(lit (1 # 1) : float, lit (3 # 10) : float)].
Proof.
  destruct (cut_smallest_peaks_split self removed_proportion)
    as (kept & popped & Hsplit & Hres & Hle & Hstop).
  pose proof (list_sort_perm snd true (confs self)) as Hperm.
  rewrite Hsplit in Hperm.
  assert (total_weight self = fsum (map snd kept) + fsum (map snd popped)) as HT.
  { unfold total_weight. rewrite sum_fsum.
    rewrite (fsum_perm (Permutation_map snd Hperm)), map_app, fsum_app.
    reflexivity. }
  assert (forall P : peak Qc -> Prop,
            Forall P (confs self) -> Forall P kept /\ Forall P popped) as Hall.
  { intros P HP. apply Forall_app. eapply Permutation_Forall; eassumption. }
  split; [| split; [| split]].
  - rewrite Hres. apply (list_sort_sorted fst false kept).
  - exists popped. rewrite Hres, Hperm. apply Permutation_app_tail.
    apply (list_sort_perm fst false kept).
  - intros Hp Hpos. rewrite Hres, Hsplit.
    destruct (Hall _ Hpos) as [Hk Hpp].
    destruct popped as [| x popped]; [rewrite app_nil_r; reflexivity |].
    destruct Hle as [Hle | Hle]; [discriminate |]. exfalso.
    pose proof (@fsum_pos (x :: popped) ltac:(discriminate) Hpp) as Hx.
    assert (nonnegative kept) as Hnk.
    { eapply Forall_impl; [| exact Hk]. intros a Ha. apply Qclt_le_weak, Ha. }
    pose proof (fsum_nonneg Hnk) as Hnk'.
    set (K := fsum (map snd kept)) in *.
    set (P := fsum (map snd (x :: popped))) in *.
    rewrite HT in Hle. clearbody K P. clear - Hp Hx Hnk' Hle.
    qc_to_q. nra.
  - vm_compute. reflexivity.
Qed.

Lemma cut_smallest_peaks_extremes_witness :
  let a : Spectrum Qc :=
    {| formula := ""; empty := false; label := "a"; charge := 1%Z;
       confs := [(lit (100 # 1), lit (1 # 4)); (lit (102 # 1), lit (3 # 4))] |} in
  confs (cut_smallest_peaks a (lit (0 # 1)))
  = sort_confs (list_sort snd true (confs a)).
Proof.
  intros a.
  apply (proj1 (proj2 (proj2 (@cut_smallest_peaks_extremes a (lit (0 # 1)))))).
  - discriminate.
  - repeat constructor.
Defined.

End PruningExtremes.

(** ** [set_confs] on any list *)

Section SetConfsTotal.

Open Scope Qc_scope.

(** Without any assumption on the positions, [merge_confs] returns the
    merged and pruned groups, but for the last one when it is at the
    sentinel position. *)
Lemma merge_confs_prefix (l : list (peak Qc)) :
  l <> [] ->
  exists c rest,
    merge_confs l = OK c /\ filter kept (groups l) = c ++ rest.
Proof.
  intros Hne. destruct l as [| [mass prob] l]; [congruence |].
  destruct (merge_step_fold ((mass, prob) :: l) mass zero [])
    as (out & cm & cp & Hf & Hg & _).
  assert (groups ((mass, prob) :: l) = out ++ [(cm, cp)]) as ->.
  { rewrite <- Hg. cbn [groups group_from].
    assert (eqb mass mass = true) as -> by (apply eqb_eq; reflexivity).
    reflexivity. }
  unfold merge_confs. cbn [getitem nth_error bind fst].
  rewrite fold_left_app, Hf. cbn [fold_left merge_step app].
  destruct (eqb (lit (-1 # 1)) cm); cbn [negb].
  - exists (filter kept out), (filter kept [(cm, cp)]).
    split; [reflexivity | apply filter_app].
  - exists (filter kept (out ++ [(cm, cp)])), [].
    split; [reflexivity | rewrite app_nil_r; reflexivity].
Qed.

Lemma StronglySorted_app_l {A : Type} (P : A -> A -> Prop) (l1 l2 : list A) :
  StronglySorted P (l1 ++ l2) -> StronglySorted P l1.
Proof.
  induction l1 as [| a l1 IH]; cbn [app]; intros Hs; [constructor |].
  inversion Hs as [| ? ? Hs' Ha]; subst. constructor; [apply IH, Hs' |].
  apply Forall_app in Ha. apply Ha.
Qed.

Lemma set_confs_prefix (l : list (peak Qc)) :
  l <> [] ->
  exists c rest,
    set_confs l = OK c /\ filter kept (groups (sort_confs l)) = c ++ rest.
Proof.
  intros Hne. unfold set_confs. apply merge_confs_prefix.
  pose proof (list_sort_perm fst false l) as Hperm. fold (sort_confs l) in Hperm.
  intros E. rewrite E in Hperm. apply Permutation_sym, Permutation_nil in Hperm.
  contradiction.
Qed.

(** What [set_confs] returns on a list that is not empty: peaks of the
    merged groups that pass the pruning rule, in their order. *)
Lemma set_confs_sound (l : list (peak Qc)) :
  l <> [] ->
  exists c,
    set_confs l = OK c
    /\ strictly_sorted c
    /\ forall p, In p c -> In p (groups (sort_confs l)) /\ kept p = true.
Proof.
  intros Hne. destruct (set_confs_prefix Hne) as (c & rest & Hc & Hpre).
  exists c. split; [exact Hc |].
  pose proof (groups_sorted (list_sort_sorted fst false l)) as Hs.
  fold (sort_confs l) in Hs.
  apply (strictly_sorted_filter kept) in Hs. rewrite Hpre in Hs.
  split; [exact (StronglySorted_app_l _ _ Hs) |].
  intros p Hp. apply filter_In. rewrite Hpre. apply in_or_app. left. exact Hp.
Qed.

(** X21: [set_confs] raises, and then [IndexError], exactly on the
    empty list.  On any other list, peaks at the sentinel position
    included, it returns a canonical list, each peak of which stands
    at a position of the given list with the total weight given
    there. *)
Theorem set_confs_raises_on_empty_only (l : list (peak Qc)) :
  (l = [] -> set_confs l = Raise IndexError)
  /\ (l <> [] ->
      exists c,
        set_confs l = OK c
        /\ canonical c
        /\ forall x w, In (x, w) c ->
             In x (map fst l) /\ w = weight_at l x /\ prune_threshold < w).
Proof.
  split; [intros ->; reflexivity |].
  intros Hne. destruct (set_confs_sound Hne) as (c & Hc & Hs & Hin).
  exists c. split; [exact Hc |].
  split; [split |].
  - exact Hs.
  - apply Forall_forall. intros p Hp. apply (Hin p Hp).
  - intros x w Hxw. destruct (Hin _ Hxw) as [Hg Hk].
    apply groups_sort_In in Hg. destruct Hg as [Hx Hw].
    split; [exact Hx |]. split; [exact Hw |].
    apply ltb_lt. exact Hk.
Qed.

Lemma set_confs_raises_on_empty_only_witness :
  exists c,
    set_confs [(lit (-1 # 1), lit (1 # 2)); (lit (-1 # 1), lit (1 # 2)) : peak Qc]
    = OK c
    /\ canonical c.
Proof.
  destruct (proj2 (@set_confs_raises_on_empty_only
                     [(lit (-1 # 1), lit (1 # 2)); (lit (-1 # 1), lit (1 # 2))]))
    as (c & Hc & Hcan & _).
  - discriminate.
  - exists c. split; assumption.
Defined.

End SetConfsTotal.

(** ** Edge cases and soundness of the reference filter *)

Section FilterEdges.

Open Scope Qc_scope.

Lemma getitem_nil {A : Type} (i : nat) : getitem (@nil A) i = Raise IndexError.
Proof. destruct i; reflexivity. Qed.

(** X22: what [filter_against_theoretical] does without reference
    peaks or without experimental peaks.  A single reference spectrum
    without peaks raises [IndexError] as soon as there is an
    experimental peak; reference spectra given as a list raise
    [IndexError] when they have no peak at all, even for an
    experimental spectrum without peaks; and an experimental spectrum
    without peaks is returned without peaks, under its label, for any
    single reference spectrum. *)
Theorem filter_against_theoretical_edges (experimental : Spectrum Qc)
    (margin : Qc) :
  (forall theoretical,
     confs theoretical = [] -> confs experimental <> [] ->
     filter_against_theoretical experimental (One theoretical) margin
     = Raise IndexError)
  /\ (forall theoreticals,
        List.concat (map confs theoreticals) = [] ->
        filter_against_theoretical experimental (Many theoreticals) margin
        = Raise IndexError)
  /\ (forall theoretical,
        confs experimental = [] ->
        exists res,
          filter_against_theoretical experimental (One theoretical) margin
          = OK res
          /\ confs res = [] /\ label res = label experimental).
Proof.
  split; [| split].
  - intros theoretical Ht He. unfold filter_against_theoretical.
    cbn [bind]. rewrite Ht.
    destruct (confs experimental) as [| [mz abund] rest]; [congruence |].
    cbn [map filter_for filter_step]. rewrite getitem_nil. reflexivity.
  - intros theoreticals Ht. unfold filter_against_theoretical.
    rewrite Ht. reflexivity.
  - intros theoretical He. unfold filter_against_theoretical.
    cbn [bind]. rewrite He. cbn [filter_for bind snd].
    eexists. split; [reflexivity |]. split; reflexivity.
Qed.

Lemma filter_against_theoretical_edges_witness :
  let e : Spectrum Qc :=
    {| formula := ""; empty := false; label := "e"; charge := 1%Z;
       confs := [(lit (100 # 1), lit (1 # 1))] |} in
  filter_against_theoretical e (One empty_Spectrum) (lit (1 # 10))
  = Raise IndexError
  /\ filter_against_theoretical e (Many [empty_Spectrum]) (lit (1 # 10))
     = Raise IndexError.
Proof.
  intros e. split.
  - apply (proj1 (@filter_against_theoretical_edges e (lit (1 # 10)))).
    + reflexivity.
    + discriminate.
  - apply (proj1 (proj2 (@filter_against_theoretical_edges e (lit (1 # 10))))).
    reflexivity.
Defined.

Lemma filter_step_sound (ths : list Qc) (margin : Qc)
    (st st' : nat * list (peak Qc)) (x : peak Qc) :
  filter_step ths margin st x = OK st' ->
  (snd st' = snd st ++ [x] /\ within ths margin x = true)
  \/ snd st' = snd st.
Proof.
  destruct st as [index rc], x as [mz abund]. unfold filter_step.
  set (i := filter_while ths mz index).
  unfold getitem. destruct (nth_error ths i) as [t |] eqn:Et; [| discriminate].
  cbn [bind].
  destruct (leb (absv (sub mz t)) margin
            || match nth_error ths (i + 1) with
               | Some t' => leb (absv (sub mz t')) margin
               | None => false
               end) eqn:C; intros [= <-]; cbn [snd]; [left | right; reflexivity].
  split; [reflexivity |].
  unfold within. apply existsb_exists. cbn [fst].
  apply orb_prop in C. destruct C as [C | C].
  - exists t. split; [eapply nth_error_In; exact Et | exact C].
  - destruct (nth_error ths (i + 1)) as [t' |] eqn:Et'; [| discriminate].
    exists t'. split; [eapply nth_error_In; exact Et' | exact C].
Qed.

Lemma filter_for_sound (ths : list Qc) (margin : Qc) (exp : list (peak Qc)) :
  forall st st',
    filter_for ths margin exp st = OK st' ->
    exists flags,
      List.length flags = List.length exp
      /\ snd st' = snd st ++ map fst (filter snd (combine exp flags))
      /\ Forall (fun p => within ths margin p = true)
           (map fst (filter snd (combine exp flags))).
Proof.
  induction exp as [| x exp IH]; intros st st' Hrun; cbn [filter_for] in Hrun.
  - injection Hrun as <-. exists []. cbn. rewrite app_nil_r. auto.
  - destruct (filter_step ths margin st x) as [st1 |] eqn:Hstep;
      [| discriminate].
    cbn [bind] in Hrun. destruct (IH _ _ Hrun) as (flags & Hlen & Hsnd & Hall).
    destruct (filter_step_sound _ _ _ _ Hstep) as [[E Hw] | E].
    + exists (true :: flags). cbn [List.length combine filter snd map fst].
      split; [lia |]. split.
      * rewrite Hsnd, E, <- app_assoc. reflexivity.
      * constructor; assumption.
    + exists (false :: flags). cbn [List.length combine filter snd map fst].
      split; [lia |]. split; [rewrite Hsnd, E; reflexivity | exact Hall].
Qed.

(** X23: whatever the order of the experimental peaks and whatever the
    reference, what [filter_against_theoretical] returns is under the
    label of the experimental spectrum and is made of experimental
    peaks, in their order, each of which lies within the margin of a
    reference peak. *)
Theorem filter_against_theoretical_sound (experimental : Spectrum Qc)
    (theoreticals : theoreticals_arg Qc) (margin : Qc) (res : Spectrum Qc) :
  filter_against_theoretical experimental theoreticals margin = OK res ->
  label res = label experimental
  /\ (exists flags,
        List.length flags = List.length (confs experimental)
        /\ confs res
           = map fst (filter snd (combine (confs experimental) flags)))
  /\ forall p, In p (confs res) ->
       exists t, In t (reference_positions theoreticals)
                 /\ Qcabs (fst p - t) <= margin.
Proof.
  unfold filter_against_theoretical. intros Hrun.
  assert (exists theoretical : Spectrum Qc,
            (forall t, In t (map fst (confs theoretical)) ->
                       In t (reference_positions theoreticals))
            /\ (st <- filter_for (map fst (confs theoretical)) margin
                        (confs experimental) (0%nat, []) ;;
                OK (with_confs (with_label empty_Spectrum (label experimental))
                      (snd st))) = OK res) as (theoretical & Hpos & Hrun').
  { destruct theoreticals as [theoretical | l].
    - exists theoretical. split; [auto | exact Hrun].
    - destruct (List.concat (map confs l)) as [| p ps] eqn:El;
        [discriminate Hrun |].
      destruct (@set_confs_sound (p :: ps) ltac:(discriminate))
        as (c & Hc & _ & Hin).
      cbn [reference_positions]. rewrite El.
      rewrite Hc in Hrun. cbn [bind] in Hrun.
      exists (with_confs empty_Spectrum c). split; [| exact Hrun].
      cbn [confs with_confs]. intros t Ht. apply in_map_iff in Ht.
      destruct Ht as ([x w] & <- & Hxw).
      apply Hin, proj1, groups_sort_In in Hxw. apply Hxw. }
  destruct (filter_for (map fst (confs theoretical)) margin
              (confs experimental) (0%nat, [])) as [st |] eqn:Hfor;
    [| discriminate].
  cbn [bind] in Hrun'. injection Hrun' as <-.
  destruct (filter_for_sound _ _ _ _ Hfor) as (flags & Hlen & Hsnd & Hall).
  cbn [snd app] in Hsnd.
  cbn [label confs with_confs with_label empty_Spectrum].
  split; [reflexivity |]. split.
  - exists flags. split; assumption.
  - intros p Hp. rewrite Hsnd in Hp. rewrite Forall_forall in Hall.
    apply Hall, within_spec in Hp. destruct Hp as (t & Ht & Hle).
    exists t. split; [apply Hpos, Ht | exact Hle].
Qed.

Lemma filter_against_theoretical_sound_witness :
  let e : Spectrum Qc :=
    {| formula := ""; empty := false; label := "e"; charge := 1%Z;
       confs := [(lit (50 # 1), lit (1 # 1)); (lit (10 # 1), lit (1 # 1))] |} in
  let t : Spectrum Qc :=
    {| formula := ""; empty := false; label := "t"; charge := 1%Z;
       confs := [(lit (101 # 10), lit (1 # 1)); (lit (499 # 10), lit (1 # 1))] |} in
  exists res,
    filter_against_theoretical e (One t) (lit (2 # 10)) = OK res
    /\ label res = label e.
Proof.
  intros e t. eexists. split; [vm_compute; reflexivity |].
  eapply (@filter_against_theoretical_sound e (One t) (lit (2 # 10))).
  vm_compute. reflexivity.
Defined.

End FilterEdges.

(** ** Errors of the k-way merge *)

Section ScalarProductErrors.

Open Scope Qc_scope.

Lemma initial_queue_Raise (spectra : list (Spectrum Qc)) :
  forall i e, initial_queue spectra i = Raise e -> e = IndexError.
Proof.
  induction spectra as [| s rest IH]; intros i e; cbn [initial_queue];
    [discriminate |].
  destruct (getitem (confs s) 0) as [c |] eqn:G; cbn [bind].
  - destruct (initial_queue rest (S i)) as [Q |] eqn:E; cbn [bind];
      [discriminate |].
    intros [= <-]. exact (IH _ _ E).
  - intros [= <-]. exact (getitem_Raise _ _ G).
Qed.

Lemma initial_queue_empty_spectrum (spectra : list (Spectrum Qc)) :
  Exists (fun s => confs s = []) spectra ->
  forall i, initial_queue spectra i = Raise IndexError.
Proof.
  induction 1 as [s rest Hs | s rest _ IH]; intros i; cbn [initial_queue].
  - rewrite Hs. reflexivity.
  - destruct (getitem (confs s) 0) as [c |] eqn:G; cbn [bind].
    + rewrite IH. reflexivity.
    + rewrite (getitem_Raise _ _ G). reflexivity.
Qed.

Lemma initial_queue_items (spectra : list (Spectrum Qc)) :
  forall i Q,
    initial_queue spectra i = OK Q ->
    forall k, (k < List.length spectra)%nat ->
      exists c, In (c, (i + k)%nat, 0%nat) Q.
Proof.
  induction spectra as [| s rest IH]; intros i Q; cbn [initial_queue List.length].
  - intros _ k Hk. lia.
  - destruct (getitem (confs s) 0) as [c |]; cbn [bind]; [| discriminate].
    destruct (initial_queue rest (S i)) as [Q' |] eqn:E; cbn [bind];
      [| discriminate].
    intros [= <-] k Hk. destruct k as [| k].
    + exists c. rewrite Nat.add_0_r. left. reflexivity.
    + destruct (IH _ _ E k ltac:(lia)) as (c' & Hc').
      exists c'. right. replace (i + S k)%nat with (S i + k)%nat by lia.
      exact Hc'.
Qed.

(** The loop raises when the queue holds a peak of a spectrum that has
    no weight. *)
Lemma product_while_missing_weight (spectra : list (Spectrum Qc))
    (weights : list Qc) (Q : list (item Qc)) (ret_confs : list (peak Qc)) :
  (exists c k j, In (c, k, j) Q /\ (List.length weights <= k)%nat) ->
  product_while spectra weights Q ret_confs = Raise IndexError.
Proof.
  funelim (product_while spectra weights Q ret_confs);
    intros (c0 & k & j & Hin & Hk); try clear Heqcall; forget_inspect.
  - destruct Hin.
  - rewrite (getitem_Raise _ _ Heq). reflexivity.
  - rewrite (getitem_Raise _ _ e1). reflexivity.
  - apply H. exists c0, k, j. split; [| exact Hk].
    apply (Permutation_in _ (heappush_perm Q' (c, spectre_no, conf_idx + 1)%nat)).
    right. destruct Hin as [E | Hin]; [| exact Hin].
    injection E as _ <- _. apply getitem_OK in Heq.
    assert (nth_error weights spectre_no <> None) as Hn by congruence.
    apply nth_error_Some in Hn. lia.
  - apply H. exists c0, k, j. split; [| exact Hk].
    destruct Hin as [E | Hin]; [| exact Hin].
    injection E as _ <- _. apply getitem_OK in Heq.
    assert (nth_error weights spectre_no <> None) as Hn by congruence.
    apply nth_error_Some in Hn. lia.
Qed.

(** X24: [ScalarProduct] raises [IndexError] when the list of spectra
    is empty, when one of the spectra has no peak, and when there are
    fewer weights than spectra. *)
Theorem ScalarProduct_raises (spectra : list (Spectrum Qc)) (weights : list Qc) :
  spectra = []
  \/ Exists (fun s => confs s = []) spectra
  \/ (List.length weights < List.length spectra)%nat ->
  ScalarProduct spectra weights = Raise IndexError.
Proof.
  intros [-> | [Hex | Hlen]].
  - unfold ScalarProduct. cbn [initial_queue bind heapify fold_left].
    simp product_while. reflexivity.
  - unfold ScalarProduct. rewrite (initial_queue_empty_spectrum Hex).
    reflexivity.
  - unfold ScalarProduct.
    destruct (initial_queue spectra 0) as [Q | e] eqn:E; cbn [bind].
    + destruct (initial_queue_items _ _ E Hlen) as (c & Hc).
      rewrite product_while_missing_weight; [reflexivity |].
      exists c, (List.length weights), 0%nat. split; [| lia].
      apply (Permutation_in _ (proj1 (heapify_perm_sorted Q))). exact Hc.
    + rewrite (initial_queue_Raise _ _ E). reflexivity.
Qed.

Lemma ScalarProduct_raises_witness :
  let a : Spectrum Qc :=
    {| formula := ""; empty := false; label := "a"; charge := 1%Z;
       confs := [(lit (100 # 1), lit (1 # 2)); (lit (101 # 1), lit (1 # 2))] |} in
  ScalarProduct [a; a] [lit (1 # 1)] = Raise IndexError.
Proof.
  intros a. apply (@ScalarProduct_raises [a; a] [lit (1 # 1)]).
  right. right. cbn. lia.
Defined.

End ScalarProductErrors.

(** ** Scaling any spectrum *)

Section Scaling.

Open Scope Qc_scope.

Lemma weight_at_scaled (number : Qc) (l : list (peak Qc)) (x : Qc) :
  weight_at (scaled number l) x = number * weight_at l x.
Proof.
  induction l as [| [m p] l IH]; cbn [scaled map fst snd].
  - cbn. ring.
  - fold (scaled number l). rewrite !weight_at_cons, IH.
    destruct (eqb m x); cbn [mul exact]; ring.
Qed.

(** X25: [number * spectrum], which is [spectrum * number], on any
    spectrum, canonical or not: it raises [IndexError] when the
    spectrum has no peak, and otherwise returns, under the same label,
    a canonical list each peak of which stands at a position of the
    spectrum, with [number] times the total weight there. *)
Theorem rmul_any_spectrum (self : Spectrum Qc) (number : Qc) :
  (confs self = [] -> __rmul__ self number = Raise IndexError)
  /\ (confs self <> [] ->
      exists res,
        __rmul__ self number = OK res
        /\ label res = label self
        /\ canonical (confs res)
        /\ forall x w, In (x, w) (confs res) ->
             In x (map fst (confs self))
             /\ w = number * weight_at (confs self) x).
Proof.
  unfold __rmul__, __mul__. fold (scaled number (confs self)). split.
  - intros ->. reflexivity.
  - intros Hne.
    destruct (@set_confs_sound (scaled number (confs self))) as (c & -> & Hs & Hin).
    { intros E. apply map_eq_nil in E. contradiction. }
    cbn [bind]. eexists. split; [reflexivity |].
    cbn [label confs with_label with_confs].
    split; [reflexivity |]. split; [split |].
    + exact Hs.
    + apply Forall_forall. intros p Hp. apply (Hin p Hp).
    + intros x w Hxw. apply Hin, proj1, groups_sort_In in Hxw.
      destruct Hxw as [Hx ->]. split.
      * unfold scaled in Hx. rewrite map_map in Hx. exact Hx.
      * apply weight_at_scaled.
Qed.

Lemma rmul_any_spectrum_witness :
  let a : Spectrum Qc :=
    {| formula := ""; empty := false; label := "a"; charge := 1%Z;
       confs := [(lit (101 # 1), lit (1 # 2)); (lit (100 # 1), lit (1 # 4));
                 (lit (101 # 1), lit (1 # 4))] |} in
  exists res,
    __rmul__ a (lit (2 # 1)) = OK res /\ canonical (confs res).
Proof.
  intros a.
  destruct (proj2 (@rmul_any_spectrum a (lit (2 # 1))))
    as (res & Hres & _ & Hc & _).
  - discriminate.
  - exists res. split; assumption.
Defined.

End Scaling.

(** ** Distance after normalization *)

Section NormalizedDistance.

Open Scope Qc_scope.




End NormalizedDistance.

(** ** Binning *)

Section CoarseBin.

Open Scope Qc_scope.

Lemma weight_at_map_position (f : Qc -> Qc) (l : list (peak Qc)) (x : Qc) :
  weight_at (map (fun p => (f (fst p), snd p)) l) x
  = fsum (map snd (filter (fun p => eqb (f (fst p)) x) l)).
Proof.
  induction l as [| [m w] l IH]; [reflexivity |].
  cbn [map fst snd filter]. rewrite weight_at_cons, IH.
  destruct (eqb (f m) x); cbn [map snd]; rewrite ?fsum_cons; ring.
Qed.

Lemma sorted_by_position_map (f : Qc -> Qc) (l : list (peak Qc)) :
  (forall x y, x <= y -> f x <= f y) ->
  sorted_by_position l ->
  sorted_by_position (map (fun p => (f (fst p), snd p)) l).
Proof.
  intros Hf. induction 1 as [| p l _ IH Hp]; cbn [map]; constructor;
    [exact IH |].
  rewrite Forall_map. eapply Forall_impl; [| exact Hp].
  intros q Hq. cbn [fst]. apply Hf. exact Hq.
Qed.

(** X27: [coarse_bin] merges the rounded peaks without sorting them;
    rounding keeps the order of the positions, so that on a spectrum
    sorted by position, with at least one peak and no position rounded
    to the sentinel, it returns a canonical list: one peak for each
    rounded position, with the total weight of the peaks rounded to it,
    when that weight is above 1e-12.  A spectrum without peaks raises
    [IndexError]. *)
Theorem coarse_bin_merges (round : Qc -> Z -> Qc) (self : Spectrum Qc)
    (nb_of_digits : Z) :
  (forall x y, x <= y -> round x nb_of_digits <= round y nb_of_digits) ->
  (confs self = [] -> coarse_bin round self nb_of_digits = Raise IndexError)
  /\ (sorted_by_position (confs self) -> confs self <> [] ->
      Forall (fun p => round (fst p) nb_of_digits <> lit (-1 # 1)) (confs self) ->
      exists res,
        coarse_bin round self nb_of_digits = OK res
        /\ label res = label self
        /\ canonical (confs res)
        /\ forall x w,
             In (x, w) (confs res)
             <-> In x (map (fun p => round (fst p) nb_of_digits) (confs self))
                 /\ w = fsum (map snd
                           (filter (fun p => eqb (round (fst p) nb_of_digits) x)
                              (confs self)))
                 /\ prune_threshold < w).
Proof.
  intros Hmono. unfold coarse_bin. split.
  - intros ->. reflexivity.
  - intros Hs Hne Hoff.
    set (rounded := map (fun p => (round (fst p) nb_of_digits, snd p))
                      (confs self)).
    assert (sorted_by_position rounded) as Hsr
      by (apply (sorted_by_position_map (fun x => round x nb_of_digits));
          assumption).
    rewrite merge_confs_groups.
    + cbn [bind]. eexists. split; [reflexivity |].
      destruct self as [f e lb ch cs]. cbn [label confs with_confs] in *.
      split; [reflexivity |]. split; [split |].
      * apply strictly_sorted_filter, groups_sorted, Hsr.
      * apply Forall_forall. intros p Hp. apply filter_In in Hp. apply Hp.
      * intros x w. rewrite filter_In.
        rewrite <- (sort_confs_sorted Hsr) at 1. rewrite groups_sort_In.
        unfold rounded at 1 2. rewrite map_map. cbn [fst].
        rewrite (weight_at_map_position (fun x => round x nb_of_digits)).
        unfold kept. cbn [snd]. rewrite ltb_lt. tauto.
    + intros E. apply map_eq_nil in E. contradiction.
    + unfold off_sentinel, rounded. rewrite Forall_map. exact Hoff.
Qed.

Lemma coarse_bin_merges_witness :
  let floor (x : Qc) (n : Z) : Qc := Q2Qc (inject_Z (Qfloor x)) in
  let a : Spectrum Qc :=
    {| formula := ""; empty := false; label := "a"; charge := 1%Z;
       confs := [(lit (1001 # 10), lit (1 # 4)); (lit (1007 # 10), lit (1 # 4));
                 (lit (1012 # 10), lit (1 # 2))] |} in
  exists res, coarse_bin floor a 0 = OK res /\ canonical (confs res).
Proof.
  intros floor a.
  destruct (proj2 (@coarse_bin_merges floor a 0%Z
                     ltac:(intros x y Hxy; unfold floor, Qcle;
                           cbn [this Q2Qc]; rewrite !Qred_correct;
                           rewrite <- Zle_Qle; apply Qfloor_resp_le; exact Hxy)))
    as (res & Hres & _ & Hc & _).
  - repeat constructor; discriminate.
  - discriminate.
  - repeat constructor; qc_neq.
  - exists res. split; assumption.
Defined.

End CoarseBin.
